(** * GenEO/precond.py: the two-level domain-decomposition preconditioners

    A shallow embedding of [PCBNN], [PCNew] and the matrix-free operator
    contexts of [GenEO/precond.py].

    Conventions of the embedding.
    - PETSc scalars are exact rationals ([Qc]); rounding is not modelled.
    - A sequential [petsc4py.PETSc.Vec] is the list of its entries.  The
      operations are total on lists and truncate to the shorter operand;
      PETSc raises on operands of different sizes, so every statement
      below carries the sizes as hypotheses.
    - A method [op.mult(x, y)] that overwrites [y] is a function of [x]
      and of the old [y], returning the new [y]. *)

From Stdlib Require Import QArith Qcanon Ring Field.
From stdpp Require Import base numbers list gmap strings pretty.

Local Open Scope Qc_scope.

(** ** Scalars *)

Definition qc (z : Z) : Qc := Qc_of_Z z.

Global Instance Qc_inhabited : Inhabited Qc := populate 0.

(** ** [PETSc.Vec] *)

Module Vec.

Abbreviation t := (list Qc).

(** [v.set(c)] *)
Definition set (v : t) (c : Qc) : t := (λ _, c) <$> v.

(** [v.copy()] allocates an object holding the same entries. *)
Definition copy (v : t) : t := v.

(** [v.duplicate()]: same size; PETSc leaves the entries unspecified,
    every caller in this file overwrites them before reading. *)
Definition duplicate (v : t) : t := set v 0.

(** [x.dot(y)] *)
Definition dot (x y : t) : Qc := foldr Qcplus 0 (zip_with Qcmult x y).

(** [y.axpy(a, x)]: [y ← y + a·x] *)
Definition axpy (a : Qc) (x y : t) : t :=
  zip_with (λ yi xi, yi + a * xi) y x.

(** [a * v] with [a] a Python float: a scaled copy. *)
Definition rmul (a : Qc) (v : t) : t := Qcmult a <$> v.

(** [-v] *)
Definition neg (v : t) : t := Qcopp <$> v.

(** [x * y] on two vectors: entrywise product of a copy. *)
Definition mul (x y : t) : t := zip_with Qcmult x y.

(** [x / y] on two vectors: entrywise quotient of a copy. *)
Definition truediv (x y : t) : t := zip_with Qcdiv x y.

(** [a / v] with [a] a Python float: entrywise reciprocal, scaled. *)
Definition rtruediv (a : Qc) (v : t) : t := (λ vi, a * / vi) <$> v.

(** [y += x] *)
Definition iadd (y x : t) : t := axpy 1 x y.

(** [y *= x] on two vectors. *)
Definition imul (y x : t) : t := zip_with Qcmult y x.

(** [v.max()] returns the position and the value of the largest entry. *)
Definition max (v : t) : Qc :=
  foldr (λ a m, if bool_decide (m ≤ a) then a else m) (default 0 (head v)) v.

(** Entrywise operations of the mathematical statements. *)
Definition zeros (n : nat) : t := replicate n 0.
Definition add (x y : t) : t := zip_with Qcplus x y.
Definition sub (x y : t) : t := zip_with Qcminus x y.

(** [sum n vs]: the sum of the vectors [vs], all of size [n]. *)
Definition sum (n : nat) (vs : list t) : t := foldr add (zeros n) vs.

End Vec.


(** ** Assembled matrices

    A sequential AIJ matrix is the list of its rows, with the zero entries
    written out. *)

Module AIJ.

Abbreviation t := (list Vec.t).

(** [A.mult(x, y)] *)
Definition mult (A : t) (x : Vec.t) : Vec.t := (λ row, Vec.dot row x) <$> A.

(** [A.getDiagonal()] *)
Definition getDiagonal (A : t) : Vec.t := imap (λ i row, row !!! i) A.

(** [A.diagonalScale(L, R)]: [A ← diag(L)·A·diag(R)]. *)
Definition diagonalScale (A : t) (L R : Vec.t) : t :=
  zip_with (λ li row, zip_with (λ aij rj, li * aij * rj) row R) L A.

(** The entry in row [i], column [j]. *)
Definition entry (A : t) (i j : nat) : Qc := (A !!! i) !!! j.

End AIJ.

(** ** Operators: [PETSc.Mat], [PETSc.KSP], [PETSc.PC] and the Python contexts

    A [Mat] is an assembled matrix or a Python-type matrix carrying one
    of the context objects of this file; a [KSP] of type [preonly] carries
    its operator and its [PC], which is a Cholesky factorisation (the
    handle of the external direct solver, given by its solve) or a
    Python-type preconditioner carrying a context. *)

Inductive Mat : Type :=
  | MatAIJ (A : AIJ.t)
  | MatPython (ctx : Ctx)
with Ctx : Type :=
  | Anegs_ctx_obj (Vnegs DVnegs : list Vec.t) (gamma : Vec.t)
  | Aposs_ctx (Bs Anegs : Mat)
  | scaledmats_ctx (mats : Mat) (musl musr : Vec.t)
  | invAposs_ctx (Bs_ksp : KSP) (projVposs : Mat)
  | projVnegs_ctx (Vnegs : list Vec.t)
  | projVposs_ctx (projVnegs : Mat)
with KSP : Type :=
  | KSPpreonly (operators : Mat) (pc : PC)
with PC : Type :=
  | PCcholesky (solve : Vec.t → Vec.t)
  | PCpython (ctx : Ctx).

(** [Anegs_ctx.__init__]: the scratch vector [gamma] has one entry per
    vector of [Vnegs]. *)
Definition Anegs_ctx (Vnegs DVnegs : list Vec.t) : Ctx :=
  Anegs_ctx_obj Vnegs DVnegs (Vec.zeros (length Vnegs)).

(** [for i, vec in enumerate(vs)] *)
Definition enumerate {A} (vs : list A) : list (nat * A) := imap pair vs.

(** The methods of the context classes.  A method receives the methods
    of the operators its object holds, the way the Python code reaches
    them through [self]. *)
Section methods.

(** The type of [mult], [apply] and [solve]: input, old output, and
    the new output, or [None] where PETSc raises. *)
Definition method := Vec.t → Vec.t → option Vec.t.

(** [Anegs_ctx.mult] *)
Definition Anegs_ctx_mult (Vnegs DVnegs : list Vec.t) (gamma : Vec.t)
    (x y : Vec.t) : Vec.t :=
  let y := Vec.set y 0 in
  let gamma :=
    foldl (λ g '(i, vec), <[i := Vec.dot x vec]> g) gamma (enumerate DVnegs) in
  foldl (λ y '(i, vec), Vec.axpy (gamma !!! i) vec y) y (enumerate Vnegs).

(** [Aposs_ctx.mult] *)
Definition Aposs_ctx_mult (Bs_mult Anegs_mult : method) (x y : Vec.t)
    : option Vec.t :=
  let xtemp := Vec.duplicate x in
  xtemp ← Anegs_mult x xtemp;
  y ← Bs_mult x y;
  Some (Vec.iadd y xtemp).

(** [scaledmats_ctx.mult] and [scaledmats_ctx.apply] *)
Definition scaledmats_ctx_mult (mats_mult : method) (musl musr : Vec.t)
    (x y : Vec.t) : option Vec.t :=
  let xtemp := Vec.mul (Vec.copy x) musr in
  y ← mats_mult xtemp y;
  Some (Vec.imul y musl).

Definition scaledmats_ctx_apply (mats_mult : method) (musl musr : Vec.t)
    (x y : Vec.t) : option Vec.t :=
  scaledmats_ctx_mult mats_mult musl musr x y.

(** [invAposs_ctx.apply] and [invAposs_ctx.mult] *)
Definition invAposs_ctx_apply (Bs_ksp_solve projVposs_mult : method)
    (x y : Vec.t) : option Vec.t :=
  let xtemp1 := Vec.duplicate y in
  let xtemp2 := Vec.duplicate y in
  xtemp1 ← projVposs_mult x xtemp1;
  xtemp2 ← Bs_ksp_solve xtemp1 xtemp2;
  projVposs_mult xtemp2 y.

Definition invAposs_ctx_mult (Bs_ksp_solve projVposs_mult : method)
    (x y : Vec.t) : option Vec.t :=
  invAposs_ctx_apply Bs_ksp_solve projVposs_mult x y.

(** [projVnegs_ctx.mult] *)
Definition projVnegs_ctx_mult (Vnegs : list Vec.t) (x y : Vec.t) : Vec.t :=
  let y := Vec.set y 0 in
  foldl (λ y '(i, vec), Vec.axpy (Vec.dot x vec) vec y) y (enumerate Vnegs).

(** [projVposs_ctx.mult]; [self.projVnegs(-x, y)] is [Mat.__call__],
    which with an output argument is [mult]. *)
Definition projVposs_ctx_mult (projVnegs_call : method) (x y : Vec.t)
    : option Vec.t :=
  y ← projVnegs_call (Vec.neg x) y;
  Some (Vec.axpy 1 x y).

End methods.

(** Dispatch: [Mat.mult] of a Python-type matrix calls the [mult] of its
    context, a Python-type [PC] calls [apply], and a [preonly] solve is
    one application of the [PC].  The contexts without an [apply] method
    cannot serve as a [PC]. *)
Fixpoint Mat_mult (A : Mat) (x y : Vec.t) {struct A} : option Vec.t :=
  match A with
  | MatAIJ A => Some (AIJ.mult A x)
  | MatPython ctx => Ctx_mult ctx x y
  end
with Ctx_mult (c : Ctx) (x y : Vec.t) {struct c} : option Vec.t :=
  match c with
  | Anegs_ctx_obj Vnegs DVnegs gamma =>
      Some (Anegs_ctx_mult Vnegs DVnegs gamma x y)
  | Aposs_ctx Bs Anegs => Aposs_ctx_mult (Mat_mult Bs) (Mat_mult Anegs) x y
  | scaledmats_ctx mats musl musr =>
      scaledmats_ctx_mult (Mat_mult mats) musl musr x y
  | invAposs_ctx Bs_ksp projVposs =>
      invAposs_ctx_mult (KSP_solve Bs_ksp) (Mat_mult projVposs) x y
  | projVnegs_ctx Vnegs => Some (projVnegs_ctx_mult Vnegs x y)
  | projVposs_ctx projVnegs => projVposs_ctx_mult (Mat_mult projVnegs) x y
  end
with Ctx_apply (c : Ctx) (x y : Vec.t) {struct c} : option Vec.t :=
  match c with
  | scaledmats_ctx mats musl musr =>
      scaledmats_ctx_apply (Mat_mult mats) musl musr x y
  | invAposs_ctx Bs_ksp projVposs =>
      invAposs_ctx_apply (KSP_solve Bs_ksp) (Mat_mult projVposs) x y
  | _ => None
  end
with KSP_solve (ksp : KSP) (b x : Vec.t) {struct ksp} : option Vec.t :=
  match ksp with
  | KSPpreonly _ pc => PC_apply pc b x
  end
with PC_apply (pc : PC) (x y : Vec.t) {struct pc} : option Vec.t :=
  match pc with
  | PCcholesky solve => Some (solve x)
  | PCpython ctx => Ctx_apply ctx x y
  end.

(** ** The local/global exchange: [PETSc.Scatter]

    The program runs one process per subdomain, all executing the same
    statements, and meets at the collective operations.  The embedding
    follows the processes in lockstep: a sequential ([COMM_SELF]) vector
    is a family with one vector per rank, a parallel ([COMM_WORLD])
    vector is the list of its global entries.  The index set [is_A] of a
    rank lists the global index of each of its local degrees of freedom;
    [scatter_l2g = Scatter().create(vlocal, None, vglobal, is_A)]. *)

Module Scatter.

Abbreviation IS := (list nat).

(** What one rank adds in [scatter_l2g(vlocal, vglobal, ADD_VALUES)]. *)
Definition add_local (is_A : IS) (vlocal vglobal : Vec.t) : Vec.t :=
  foldl (λ g '(gi, li), alter (λ a, a + li) gi g) vglobal (zip is_A vlocal).

(** [scatter_l2g(vlocal, vglobal, ADD_VALUES)], over all ranks. *)
Definition forward_add (iss : list IS) (vlocals : list Vec.t)
    (vglobal : Vec.t) : Vec.t :=
  foldl (λ g '(is_A, l), add_local is_A l g) vglobal (zip iss vlocals).

(** [scatter_l2g(vglobal, vlocal, INSERT_VALUES, SCATTER_REVERSE)] on one
    rank: every local entry is overwritten. *)
Definition reverse_insert (is_A : IS) (vglobal : Vec.t) : Vec.t :=
  (λ gi, vglobal !!! gi) <$> is_A.

End Scatter.

(** ** The coarse space ([GenEO/projection.py]) *)

(** Modelled from the spec: [coarse_operators] of [GenEO/projection.py]
    is not among the sources.  Section 4.4 gives [project(y)] and
    [project_transpose(x)] as updates in place of their argument, and
    [coarse_init(b)] as returning the coarse correction; the formulas
    are left open. *)
Record Projection := {
  project : Vec.t → Vec.t;
  project_transpose : Vec.t → Vec.t;
  coarse_init : Vec.t → Vec.t;
}.

(** The external services and the absent builders a constructor calls:
    the direct solver (Cholesky by MUMPS) of an assembled matrix, and of
    [GenEO/projection.py] the constructors [minimal_V0] (its [V0s]),
    [GenEO_V0] (its [V0s]) and [coarse_operators]. *)
Record Services := {
  mumps : AIJ.t → Vec.t → Vec.t;
  minimal_V0 : KSP → list Vec.t;
  GenEO_V0 : KSP → Mat → AIJ.t → Qc → list Vec.t → option KSP → list Vec.t;
  coarse_operators :
    list (list Vec.t) → (Vec.t → Vec.t) → list Scatter.IS → Projection;
}.

(** A line on standard output, with the rank that printed it. *)
Abbreviation stdout := (list (nat * string)).

(** ** The vectors a preconditioner works on

    [mult(x, y)] receives references to two parallel vectors and updates
    objects in place, so the vectors live in a store.  [vecs] holds the
    parallel vectors by reference; [works_1] and [works_2] hold, for
    every rank, the sequential vector the attribute of that name is
    bound to (no method binds two names to one sequential vector). *)

Abbreviation loc := positive.

Record World := {
  vecs : gmap loc Vec.t;
  works_1 : list Vec.t;
  works_2 : list Vec.t;
  out : stdout;
}.

Definition with_vecs (f : gmap loc Vec.t → gmap loc Vec.t) (w : World) : World :=
  {| vecs := f (vecs w); works_1 := works_1 w; works_2 := works_2 w; out := out w |}.

(** A statement: runs on a world, returns a value and the new world, or
    raises. *)
Definition M (A : Type) : Type := World → option (A * World).

Global Instance M_ret : MRet M := λ A a w, Some (a, w).
Global Instance M_bind : MBind M := λ A B f m w,
  match m w with
  | Some (a, w') => f a w'
  | None => None
  end.

Definition get_vec (r : loc) : M Vec.t := λ w, v ← vecs w !! r; Some (v, w).

Definition put_vec (r : loc) (v : Vec.t) : M unit := λ w,
  _ ← vecs w !! r; Some (tt, with_vecs <[r := v]> w).

Definition alloc (v : Vec.t) : M loc := λ w,
  let r := fresh (dom (vecs w)) in Some (r, with_vecs <[r := v]> w).

(** The sequential work vectors, by the attribute that holds them. *)
Inductive attr := Works_1 | Works_2.

Definition get_works (a : attr) : M (list Vec.t) := λ w,
  Some (match a with Works_1 => works_1 w | Works_2 => works_2 w end, w).

Definition put_works (a : attr) (vs : list Vec.t) : M unit := λ w,
  Some (tt,
    match a with
    | Works_1 => {| vecs := vecs w; works_1 := vs; works_2 := works_2 w; out := out w |}
    | Works_2 => {| vecs := vecs w; works_1 := works_1 w; works_2 := vs; out := out w |}
    end).

(** [print(s)] on the rank [rank]. *)
Definition print (rank : nat) (s : string) : M unit := λ w,
  Some (tt, {| vecs := vecs w; works_1 := works_1 w; works_2 := works_2 w;
               out := out w ++ [(rank, s)] |}).

(** [for a in l: body(a)] *)
Fixpoint for_ {A} (l : list A) (body : A → M unit) : M unit :=
  match l with
  | [] => mret tt
  | a :: l => body a;; for_ l body
  end.

(** [x.copy()], [y.set(c)], [y += x] on parallel vectors. *)
Definition Vec_copy (x : loc) : M loc := v ← get_vec x; alloc (Vec.copy v).
Definition Vec_set (y : loc) (c : Qc) : M unit :=
  v ← get_vec y; put_vec y (Vec.set v c).
Definition Vec_iadd (y x : loc) : M unit :=
  yv ← get_vec y; xv ← get_vec x; put_vec y (Vec.iadd yv xv).

(** [proj.project_transpose(x)], [proj.project(y)], [proj.coarse_init(x)] *)
Definition proj_project_transpose (p : Projection) (x : loc) : M unit :=
  v ← get_vec x; put_vec x (project_transpose p v).
Definition proj_project (p : Projection) (y : loc) : M unit :=
  v ← get_vec y; put_vec y (project p v).
Definition proj_coarse_init (p : Projection) (x : loc) : M loc :=
  v ← get_vec x; alloc (coarse_init p v).

(** [scatter_l2g(x, self.a, INSERT_VALUES, SCATTER_REVERSE)] *)
Definition scatter_reverse (iss : list Scatter.IS) (x : loc) (a : attr) : M unit :=
  v ← get_vec x; put_works a ((λ is_A, Scatter.reverse_insert is_A v) <$> iss).

(** [scatter_l2g(self.a, y, ADD_VALUES)] *)
Definition scatter_forward (iss : list Scatter.IS) (a : attr) (y : loc) : M unit :=
  ls ← get_works a; v ← get_vec y; put_vec y (Scatter.forward_add iss ls v).

(** [ksp.solve(self.b, self.x)] on every rank. *)
Definition raise_None {A} (o : option A) : M A := λ w, a ← o; Some (a, w).

Definition solve_all (ksps : list KSP) (b x : attr) : M unit :=
  bs ← get_works b; xs ← get_works x;
  xs' ← raise_None (mapM (λ '(k, (bv, xv)), KSP_solve k bv xv) (zip ksps (zip bs xs)));
  put_works x xs'.

(** ** [PCBNN] *)

Module PCBNN.

Record Options := {
  PCBNN_switchtoASM : bool;
  PCBNN_kscaling : bool;
  PCBNN_verbose : bool;
  PCBNN_GenEO : bool;
  PCBNN_addCoarseSolve : bool;
  PCBNN_CoarseProjection : bool;
}.

(** The defaults of the [OptDB.getBool] calls. *)
Definition default_options : Options :=
  {| PCBNN_switchtoASM := false; PCBNN_kscaling := true;
     PCBNN_verbose := false; PCBNN_GenEO := true;
     PCBNN_addCoarseSolve := false; PCBNN_CoarseProjection := true |}.

(** Lines 86-91: the multiplicity of each degree of freedom.  Returns
    [vlocal] on every rank and [vglobal]. *)
Definition multiplicity (iss : list Scatter.IS) (nglobal : nat)
    : list Vec.t * Vec.t :=
  let vlocal := (λ is_A, Vec.set (Vec.zeros (length is_A)) 1) <$> iss in
  let vglobal := Vec.set (Vec.zeros nglobal) 0 in
  let vglobal := Scatter.forward_add iss vlocal vglobal in
  let vlocal := (λ is_A, Scatter.reverse_insert is_A vglobal) <$> iss in
  (vlocal, vglobal).

(** Lines 93-99: k-scaling or multiplicity scaling of the local
    non-assembled matrix, on one rank. *)
Definition scale_Ms (kscaling : bool) (vlocal : Vec.t) (As Ms : AIJ.t) : AIJ.t :=
  if bool_decide (kscaling = false) then
    AIJ.diagonalScale Ms vlocal vlocal
  else
    let v1 := AIJ.getDiagonal As in
    let v2 := AIJ.getDiagonal Ms in
    AIJ.diagonalScale Ms (Vec.truediv v1 v2) (Vec.truediv v1 v2).

(** The preconditioner object, over all ranks. *)
Record t := {
  switchtoASM : bool;
  kscaling : bool;
  verbose : bool;
  GenEO : bool;
  addCS : bool;
  projCS : bool;
  A : AIJ.t;
  Ms : list AIJ.t;
  As : list AIJ.t;
  ksp_Atildes : list KSP;
  ksp_Atildes_forSLEPc : list KSP;
  scatter_l2g : list Scatter.IS;
  mult_max : Qc;
  V0s : list (list Vec.t);
  proj : Projection;
}.

(** [PCBNN.__init__].  [A_mpiaij] is the assembled matrix, [Ms0] and
    [As0] give on every rank the non-assembled local matrix and the
    submatrix of [A_mpiaij] on the rank's index set, [nglobal] is the
    size of a parallel vector.  Returns the object, the initial work
    vectors [works_1] and [works_2] of every rank, and what was printed. *)
Definition init (sv : Services) (opts : Options) (A_mpiaij : AIJ.t)
    (Ms0 As0 : list AIJ.t) (iss : list Scatter.IS) (nglobal : nat)
    : t * (list Vec.t * list Vec.t) * stdout :=
  let '(vlocal, vglobal) := multiplicity iss nglobal in
  let mult_max := Vec.max vglobal in
  let Ms := zip_with (λ v '(As, Ms), scale_Ms (PCBNN_kscaling opts) v As Ms)
              vlocal (zip As0 Ms0) in
  let Atildes := if PCBNN_switchtoASM opts then As0 else Ms in
  let out : stdout :=
    if PCBNN_switchtoASM opts
    then [(0%nat, "The user has chosen to switch to Additive Schwarz instead of BNN.")]
    else [] in
  let ksp := (λ At, KSPpreonly (MatAIJ At) (PCcholesky (mumps sv At))) <$> Atildes in
  let minV0 := minimal_V0 sv <$> ksp in
  let V0s :=
    if bool_decide (PCBNN_GenEO opts = true) then
      (λ '(k, (Ms, (As, minV0s))),
         GenEO_V0 sv k (MatAIJ Ms) As mult_max minV0s None)
        <$> zip ksp (zip Ms (zip As0 minV0))
    else minV0 in
  let work := Vec.copy vglobal in
  let works_1 := Vec.copy <$> vlocal in
  let works_2 := Vec.copy <$> works_1 in
  ({| switchtoASM := PCBNN_switchtoASM opts;
      kscaling := PCBNN_kscaling opts;
      verbose := PCBNN_verbose opts;
      GenEO := PCBNN_GenEO opts;
      addCS := PCBNN_addCoarseSolve opts;
      projCS := PCBNN_CoarseProjection opts;
      A := A_mpiaij; Ms := Ms; As := As0;
      ksp_Atildes := ksp; ksp_Atildes_forSLEPc := ksp;
      scatter_l2g := iss; mult_max := mult_max; V0s := V0s;
      proj := coarse_operators sv V0s (AIJ.mult A_mpiaij) iss |},
   (works_1, works_2), out).

(** [PCBNN.mult] *)
Definition mult (self : t) (x y : loc) : M unit :=
  xd ← Vec_copy x;
  (if bool_decide (projCS self = true)
   then proj_project_transpose (proj self) xd else mret tt);;
  scatter_reverse (scatter_l2g self) xd Works_1;;
  solve_all (ksp_Atildes self) Works_1 Works_2;;
  Vec_set y 0;;
  scatter_forward (scatter_l2g self) Works_2 y;;
  (if bool_decide (projCS self = true)
   then proj_project (proj self) y else mret tt);;
  if bool_decide (addCS self = true) then
    xd ← Vec_copy x;
    ytild ← proj_coarse_init (proj self) xd;
    Vec_iadd y ytild
  else mret tt.

(** [PCBNN.MP_mult]; [y] is the Python list of the output vectors. *)
Definition MP_mult (self : t) (x : loc) (y : list loc) : M unit :=
  scatter_reverse (scatter_l2g self) x Works_1;;
  solve_all (ksp_Atildes self) Works_1 Works_2;;
  for_ (seq 0 (length (scatter_l2g self))) (λ i,
    w1 ← get_works Works_1;
    put_works Works_1 ((λ v, Vec.set v 0) <$> w1);;
    w1 ← get_works Works_1; w2 ← get_works Works_2;
    put_works Works_1
      (imap (λ rank v, if bool_decide (rank = i)
                       then Vec.copy (w2 !!! rank) else v) w1);;
    yi ← raise_None (y !! i);
    Vec_set yi 0;;
    scatter_forward (scatter_l2g self) Works_1 yi;;
    proj_project (proj self) yi).

(** [PCBNN.apply] *)
Definition apply {P} (self : t) (pc : P) (x y : loc) : M unit := mult self x y.

End PCBNN.

(** ** [PCNew] *)

Module PCNew.

Record Options := {
  PCNew_switchtoASM : bool;
  PCNew_verbose : bool;
  PCNew_GenEO : bool;
  PCNew_addCoarseSolve : bool;
  PCNew_CoarseProjection : bool;
  PCNew_Bs_nev : Z;
}.

(** The defaults of the [OptDB.getBool] and [OptDB.getInt] calls. *)
Definition default_options : Options :=
  {| PCNew_switchtoASM := false; PCNew_verbose := false;
     PCNew_GenEO := true; PCNew_addCoarseSolve := false;
     PCNew_CoarseProjection := true; PCNew_Bs_nev := 20 |}.

(** What [eps.solve()] leaves on a rank: the converged eigenpairs of
    [Bs], in the order of [eps.getEigenvalue(i)], [eps.getEigenvector(i)];
    [eps.getConverged()] is their number. *)
Abbreviation EPS := (list (Qc * Vec.t)).

(** The lists filled by the loop of lines 361-372. *)
Record Diag := {
  Dnegs : list Qc;
  Dposs : list Qc;
  Vnegs : list Vec.t;
  DVnegs : list Vec.t;
  invmusVnegs : list Vec.t;
}.

(** [l[-1]] *)
Definition last_of {A} `{Inhabited A} (l : list A) : A := default inhabitant (last l).

(** One iteration of [for i in range(eps.getConverged())]. *)
Definition diagonalize_step (invmus : Vec.t) (st : Diag) (pair : Qc * Vec.t) : Diag :=
  let tempscalar := pair.1 in
  if bool_decide (tempscalar < 0) then
    let Dnegs' := Dnegs st ++ [(-1) * tempscalar] in
    let Vnegs' := Vnegs st ++ [pair.2] in
    let DVnegs' := DVnegs st ++ [Vec.rmul (last_of Dnegs') (last_of Vnegs')] in
    let invmusVnegs' := invmusVnegs st ++ [Vec.mul invmus (last_of Vnegs')] in
    {| Dnegs := Dnegs'; Dposs := Dposs st; Vnegs := Vnegs';
       DVnegs := DVnegs'; invmusVnegs := invmusVnegs' |}
  else
    {| Dnegs := Dnegs st; Dposs := Dposs st ++ [tempscalar]; Vnegs := Vnegs st;
       DVnegs := DVnegs st; invmusVnegs := invmusVnegs st |}.

(** Lines 307-309 and 361-372. *)
Definition diagonalize (invmus : Vec.t) (eps : EPS) : Diag :=
  foldl (diagonalize_step invmus)
    {| Dnegs := []; Dposs := []; Vnegs := []; DVnegs := []; invmusVnegs := [] |}
    eps.

(** The message of line 359. *)
Definition msg_converged (rank converged : nat) (nev : Z) : string :=
  "for Bs in subdomain " +:+ pretty rank +:+ ": " +:+ pretty converged
  +:+ " eigenvalues converged (less that the " +:+ pretty nev +:+ " requested)".

(** The message of line 373. *)
Definition msg_negative (rank converged nneg : nat) (nev : Z) : string :=
  "for Bs in subdomain " +:+ pretty rank +:+ ": ncv= " +:+ pretty converged
  +:+ " with " +:+ pretty nneg +:+ " negative eigs (nev = " +:+ pretty nev +:+ ")".

(** The messages of lines 461 and 464. *)
Definition msg_eigmax : string :=
  "The GenEO coarse space for this Atildes with global opeator Apos is not implemented yet, the component for eigmax is missing".

Definition msg_ASM : string :=
  "The user has chosen to switch to Additive Schwarz instead of BNN.".

(** What the constructor builds on one rank. *)
Record Local := {
  mus : Vec.t;
  invmus : Vec.t;
  diag : Diag;
  nnegs : nat;
  Anegs : Mat;
  Aposs : Mat;
  projVnegs : Mat;
  projVposs : Mat;
  invAposs : Mat;
  ksp_Aposs : KSP;
  Ms : Mat;
  ksp_Ms : KSP;
  ksp_Ms_forSLEPc : KSP;
  Atildes : Mat;
  ksp_Atildes : KSP;
  ksp_Atildes_forSLEPc : KSP;
  minV0s : list Vec.t;
  V0s : list Vec.t;
}.

(** Lines 299-301 and 357-523 on the rank [rank]: from the eigenpairs of
    [Bs] to the local basis [V0s].  [work] is [Mu.getDiagonal()], the
    parallel vector of the multiplicities; [As] and [Bs] are the
    submatrices of [A_mpiaij] and of [B] on the rank's index set (the
    assembly of [Mu] and [B], lines 236-254, is PETSc's).  Returns the
    local objects and what the rank printed. *)
Definition init_local (sv : Services) (opts : Options) (rank : nat)
    (is_A : Scatter.IS) (work : Vec.t) (mult_max : Qc) (As Bs : AIJ.t)
    (eps : EPS) : Local * stdout :=
  let Bs_ksp := KSPpreonly (MatAIJ Bs) (PCcholesky (mumps sv Bs)) in
  let mus := Scatter.reverse_insert is_A work in
  let invmus := Vec.rtruediv 1 mus in
  let nev := PCNew_Bs_nev opts in
  let out1 : stdout :=
    if bool_decide (Z.of_nat (length eps) < nev)%Z
    then [(rank, msg_converged rank (length eps) nev)] else [] in
  let d := diagonalize invmus eps in
  let out2 : stdout := [(rank, msg_negative rank (length eps) (length (Vnegs d)) nev)] in
  let nnegs := length (Dnegs d) in
  let Anegs := MatPython (Anegs_ctx (Vnegs d) (DVnegs d)) in
  let Aposs := MatPython (Aposs_ctx (MatAIJ Bs) Anegs) in
  let projVnegs := MatPython (projVnegs_ctx (Vnegs d)) in
  let projVposs := MatPython (projVposs_ctx projVnegs) in
  let invAposs := MatPython (invAposs_ctx Bs_ksp projVposs) in
  let ksp_Aposs := KSPpreonly Aposs (PCpython (invAposs_ctx Bs_ksp projVposs)) in
  let Ms := MatPython (scaledmats_ctx Aposs mus mus) in
  let ksp_Ms := KSPpreonly Ms (PCpython (scaledmats_ctx invAposs invmus invmus)) in
  let ksp_Ms_forSLEPc := KSPpreonly Ms (PCpython (scaledmats_ctx invAposs invmus invmus)) in
  let '(Atildes, ksp_Atildes, minV0s, ksp_Atildes_forSLEPc, out3) :=
    if PCNew_switchtoASM opts then
      let out : stdout :=
        (rank, msg_eigmax)
        :: (if bool_decide (rank = 0%nat) then [(rank, msg_ASM)] else []) in
      let Atildes := MatAIJ As in
      let ksp_Atildes := KSPpreonly Atildes (PCcholesky (mumps sv As)) in
      let minV0s := minimal_V0 sv ksp_Atildes in
      let ksp_Atildes_forSLEPc := KSPpreonly Atildes (PCcholesky (mumps sv As)) in
      (Atildes, ksp_Atildes, minV0s, ksp_Atildes_forSLEPc, out)
    else
      let Atildes := Ms in
      let ksp_Atildes :=
        KSPpreonly Atildes (PCpython (scaledmats_ctx invAposs invmus invmus)) in
      let minV0s := invmusVnegs d in
      let ksp_Atildes_forSLEPc :=
        KSPpreonly Atildes (PCpython (scaledmats_ctx invAposs invmus invmus)) in
      (Atildes, ksp_Atildes, minV0s, ksp_Atildes_forSLEPc, ([] : stdout)) in
  let V0s :=
    if bool_decide (PCNew_GenEO opts = true) then
      GenEO_V0 sv ksp_Atildes_forSLEPc Ms As mult_max minV0s (Some ksp_Ms_forSLEPc)
    else minV0s in
  ({| mus := mus; invmus := invmus; diag := d; nnegs := nnegs;
      Anegs := Anegs; Aposs := Aposs; projVnegs := projVnegs;
      projVposs := projVposs; invAposs := invAposs; ksp_Aposs := ksp_Aposs;
      Ms := Ms; ksp_Ms := ksp_Ms; ksp_Ms_forSLEPc := ksp_Ms_forSLEPc;
      Atildes := Atildes; ksp_Atildes := ksp_Atildes;
      ksp_Atildes_forSLEPc := ksp_Atildes_forSLEPc;
      minV0s := minV0s; V0s := V0s |},
   out1 ++ out2 ++ out3).

(** [Aneg_ctx.mult], over all ranks: [self.works] receives the local
    part of [x], the inner products are taken with it, and it is then
    reused for the local result. *)
Definition Aneg_ctx_mult (iss : list Scatter.IS) (ds : list Diag)
    (x y : Vec.t) : Vec.t :=
  let y := Vec.set y 0 in
  let works :=
    (λ '(is_A, d),
       let works := Scatter.reverse_insert is_A x in
       let gamma :=
         foldl (λ g '(i, vec), <[i := Vec.dot works vec]> g)
           (Vec.zeros (length (Vnegs d))) (enumerate (DVnegs d)) in
       let works := Vec.set works 0 in
       foldl (λ w '(i, vec), Vec.axpy (gamma !!! i) vec w) works
         (enumerate (Vnegs d)))
      <$> zip iss ds in
  Scatter.forward_add iss works y.

(** [Apos_ctx.mult] *)
Definition Apos_ctx_mult (A_mpiaij : AIJ.t) (Aneg_mult : Vec.t → Vec.t → Vec.t)
    (x y : Vec.t) : Vec.t :=
  let xtemp := Vec.duplicate x in
  let xtemp := Aneg_mult x xtemp in
  let y := AIJ.mult A_mpiaij x in
  Vec.iadd y xtemp.

(** The preconditioner object, over all ranks. *)
Record t := {
  switchtoASM : bool;
  verbose : bool;
  GenEO : bool;
  addCS : bool;
  projCS : bool;
  nev : Z;
  A : AIJ.t;
  Apos : Vec.t → Vec.t → Vec.t;
  locals : list Local;
  scatter_l2g : list Scatter.IS;
  mult_max : Qc;
  proj : Projection;
}.

(** [PCNew.__init__], over all ranks.  Returns the object, the work
    vectors [works_1] and [works_2] of every rank, and what was printed. *)
Definition init (sv : Services) (opts : Options) (A_mpiaij : AIJ.t)
    (work : Vec.t) (As0 Bs0 : list AIJ.t) (iss : list Scatter.IS)
    (eps : list EPS) : t * (list Vec.t * list Vec.t) * stdout :=
  let mult_max := Vec.max work in
  let built :=
    imap (λ rank '(is_A, (As, (Bs, e))),
            init_local sv opts rank is_A work mult_max As Bs e)
      (zip iss (zip As0 (zip Bs0 eps))) in
  let locals := fst <$> built in
  let out := mjoin (snd <$> built) in
  let Aneg := Aneg_ctx_mult iss (diag <$> locals) in
  let Apos := Apos_ctx_mult A_mpiaij Aneg in
  let works := (λ is_A, Vec.zeros (length is_A)) <$> iss in
  let works_2 := Vec.duplicate <$> works in
  ({| switchtoASM := PCNew_switchtoASM opts;
      verbose := PCNew_verbose opts;
      GenEO := PCNew_GenEO opts;
      addCS := PCNew_addCoarseSolve opts;
      projCS := PCNew_CoarseProjection opts;
      nev := PCNew_Bs_nev opts;
      A := A_mpiaij; Apos := Apos; locals := locals;
      scatter_l2g := iss; mult_max := mult_max;
      proj := coarse_operators sv (V0s <$> locals) (λ x, Apos x (Vec.duplicate x)) iss |},
   (works, works_2), out).

(** [PCNew.mult] *)
Definition mult (self : t) (x y : loc) : M unit :=
  xd ← Vec_copy x;
  (if bool_decide (projCS self = true)
   then proj_project_transpose (proj self) xd else mret tt);;
  scatter_reverse (scatter_l2g self) xd Works_1;;
  solve_all (ksp_Atildes <$> locals self) Works_1 Works_2;;
  Vec_set y 0;;
  scatter_forward (scatter_l2g self) Works_2 y;;
  (if bool_decide (projCS self = true)
   then proj_project (proj self) y else mret tt);;
  if bool_decide (addCS self = true) then
    xd ← Vec_copy x;
    ytild ← proj_coarse_init (proj self) xd;
    Vec_iadd y ytild
  else mret tt.

(** [PCNew.MP_mult]: every rank prints. *)
Definition MP_mult (self : t) (x : loc) (y : list loc) : M unit :=
  for_ (seq 0 (length (scatter_l2g self))) (λ rank, print rank "not implemented").

(** [PCNew.apply] *)
Definition apply {P} (self : t) (pc : P) (x y : loc) : M unit := mult self x y.

End PCNew.

(** ** The eigensolver *)

(** [eps.setType(SLEPc.EPS.Type.LAPACK)] (line 322): the dense solver
    computes the whole spectrum of [Bs]; [setWhichEigenpairs] only
    orders it (line 323) and [nev] does not limit it, so
    [eps.getConverged()] is the size of [Bs]. *)
Definition EPS_LAPACK_solved (Bs : AIJ.t) (eps : PCNew.EPS) : Prop :=
  length eps = length Bs.

(** ** [Apos_debug_ctx] *)

(** [Apos_debug_ctx.mult], over all ranks: the local part of [x] goes
    through the [Aposs] of the rank into a new vector [works_2] of the
    size of [works], and the results are added up in [y]. *)
Definition Apos_debug_ctx_mult (iss : list Scatter.IS) (Aposs : list Mat)
    (x y : Vec.t) : option Vec.t :=
  let y := Vec.set y 0 in
  works_2 ←
    mapM (λ '(is_A, Aposs),
            let works_2 := Vec.duplicate (Vec.zeros (length is_A)) in
            let works := Scatter.reverse_insert is_A x in
            Mat_mult Aposs works works_2)
      (zip iss Aposs);
  Some (Scatter.forward_add iss works_2 y).

(** ** Induction on the operators *)

Scheme Mat_mutind := Induction for Mat Sort Prop
  with Ctx_mutind := Induction for Ctx Sort Prop
  with KSP_mutind := Induction for KSP Sort Prop
  with PC_mutind := Induction for PC Sort Prop.
Combined Scheme operators_mutind
  from Mat_mutind, Ctx_mutind, KSP_mutind, PC_mutind.

(** * Specification

    The mathematical notions the statements are written with, and the
    example data they are tried on. *)

(** ** Sums and orthonormal families *)

(** The sum of a list of scalars. *)
Definition sumQ (l : list Qc) : Qc := foldr Qcplus 0 l.

(** [y.axpy(c_i, v_i)] for every [i] in turn, from [y0]. *)
Definition lincomb (cs : list Qc) (vs : list Vec.t) (y0 : Vec.t) : Vec.t :=
  foldl (λ y '(c, v), Vec.axpy c v y) y0 (zip cs vs).

(** [vs] is an orthonormal family. *)
Inductive orthonormal : list Vec.t → Prop :=
  | orthonormal_nil : orthonormal []
  | orthonormal_cons v vs :
      Vec.dot v v = 1 → Forall (λ w, Vec.dot v w = 0) vs →
      orthonormal vs → orthonormal (v :: vs).

(** [Σ_i (x·v_i) v_i] and [x − Σ_i (x·v_i) v_i], for vectors of size [n]. *)
Definition projVnegs_sum (n : nat) (vs : list Vec.t) (x : Vec.t) : Vec.t :=
  Vec.sum n ((λ v, Vec.rmul (Vec.dot x v) v) <$> vs).

Definition projVposs_sum (n : nat) (vs : list Vec.t) (x : Vec.t) : Vec.t :=
  Vec.sub x (projVnegs_sum n vs x).

(** [Σ (x·v)·(−λ)·v] over the pairs [(λ, v)] of [eps] with [λ < 0], for
    vectors of size [n]. *)
Definition Anegs_sum (n : nat) (eps : PCNew.EPS) (x : Vec.t) : Vec.t :=
  Vec.sum n ((λ p, Vec.rmul (Vec.dot x p.2 * (- p.1)) p.2)
               <$> filter (λ p, p.1 < 0) eps).

(** The vector [e_j] of size [n]. *)
Definition unit_vector (n j : nat) : Vec.t := <[j := 1]> (Vec.zeros n).

(** ** Multiplicity *)

(** The number of subdomains that own the global degree of freedom [g]. *)
Definition owners (iss : list Scatter.IS) (g : nat) : nat :=
  length (filter (λ is_A, g ∈ is_A) iss).

Definition Qc_of_nat (n : nat) : Qc := Qc_of_Z (Z.of_nat n).

(** ** Applying a preconditioner *)

(** The body [PCBNN.mult] and [PCNew.mult] share, on the attributes it
    reads. *)
Definition dd_mult (projCS addCS : bool) (p : Projection)
    (iss : list Scatter.IS) (ksps : list KSP) (x y : loc) : M unit :=
  xd ← Vec_copy x;
  (if bool_decide (projCS = true)
   then proj_project_transpose p xd else mret tt);;
  scatter_reverse iss xd Works_1;;
  solve_all ksps Works_1 Works_2;;
  Vec_set y 0;;
  scatter_forward iss Works_2 y;;
  (if bool_decide (projCS = true)
   then proj_project p y else mret tt);;
  if bool_decide (addCS = true) then
    xd ← Vec_copy x;
    ytild ← proj_coarse_init p xd;
    Vec_iadd y ytild
  else mret tt.

(** The six steps of section 4.5 on the entries [xv] of the input, for
    an output vector holding [yv] and local solution vectors holding
    [w2] before the call. *)
Definition six_steps (projCS addCS : bool) (p : Projection)
    (iss : list Scatter.IS) (ksps : list KSP) (w2 : list Vec.t)
    (xv yv : Vec.t) : option Vec.t :=
  let x1 := if projCS then project_transpose p xv else xv in
  let locals := (λ is_A, Scatter.reverse_insert is_A x1) <$> iss in
  sols ← mapM (λ '(k, (b, s)), KSP_solve k b s) (zip ksps (zip locals w2));
  let y4 := Scatter.forward_add iss sols (Vec.set yv 0) in
  let y5 := if projCS then project p y4 else y4 in
  Some (if addCS then Vec.add y5 (coarse_init p xv) else y5).

(** The statements of [PCBNN.MP_mult], on the attributes they read. *)
Definition dd_MP_mult (p : Projection) (iss : list Scatter.IS)
    (ksps : list KSP) (x : loc) (y : list loc) : M unit :=
  scatter_reverse iss x Works_1;;
  solve_all ksps Works_1 Works_2;;
  for_ (seq 0 (length iss)) (λ i,
    w1 ← get_works Works_1;
    put_works Works_1 ((λ v, Vec.set v 0) <$> w1);;
    w1 ← get_works Works_1; w2 ← get_works Works_2;
    put_works Works_1
      (imap (λ rank v, if bool_decide (rank = i)
                       then Vec.copy (w2 !!! rank) else v) w1);;
    yi ← raise_None (y !! i);
    Vec_set yi 0;;
    scatter_forward iss Works_1 yi;;
    proj_project p yi).

(** ** The global operators, linearity *)

(** [Σ_i R_iᵀ Anegs_i R_i x]: the local negative parts of the ranks on
    the local parts of [x], added up in a parallel vector of the size
    of [x]. *)
Definition Aneg_sum (iss : list Scatter.IS) (eps : list PCNew.EPS)
    (x : Vec.t) : Vec.t :=
  Scatter.forward_add iss
    (zip_with (λ is_A e,
                 Anegs_sum (length is_A) e (Scatter.reverse_insert is_A x))
       iss eps)
    (Vec.zeros (length x)).

(** [Σ_i R_iᵀ Bs_i R_i x] *)
Definition Bs_sum (iss : list Scatter.IS) (Bs0 : list AIJ.t)
    (x : Vec.t) : Vec.t :=
  Scatter.forward_add iss
    (zip_with (λ is_A Bs, AIJ.mult Bs (Scatter.reverse_insert is_A x)) iss Bs0)
    (Vec.zeros (length x)).

(** [Op] is linear at [x], [z]: [Op (z + a x) = Op z + a (Op x)], the
    three products being defined. *)
Definition linear_at (Op : Mat) (a : Qc) (x z y : Vec.t) : Prop :=
  ∃ ox oz,
    Mat_mult Op x y = Some ox ∧ Mat_mult Op z y = Some oz
    ∧ Mat_mult Op (Vec.axpy a x z) y = Some (Vec.axpy a ox oz).

(** ** Example data

    Two subdomains of a chain of three degrees of freedom, sharing the
    middle one; the direct solver of a diagonal matrix; a coarse space
    without vectors. *)

Definition ex_services : Services :=
  {| mumps := λ A b, Vec.truediv b (AIJ.getDiagonal A);
     minimal_V0 := λ _, [];
     GenEO_V0 := λ _ _ _ _ minV0s _, minV0s;
     coarse_operators := λ _ _ _,
       {| project := λ y, y; project_transpose := λ x, x;
          coarse_init := λ b, Vec.set b 0 |} |}.

Definition ex_iss : list Scatter.IS := [[0; 1]; [1; 2]]%nat.

(** The assembled matrix and, on each rank, the non-assembled local
    matrix and the submatrix of the assembled one. *)
Definition ex_A : AIJ.t := [[qc 2; 0; 0]; [0; qc 4; 0]; [0; 0; qc 2]].
Definition ex_Ms : list AIJ.t := [[[qc 2; 0]; [0; qc 2]]; [[qc 2; 0]; [0; qc 2]]].
Definition ex_As : list AIJ.t := [[[qc 2; 0]; [0; qc 4]]; [[qc 4; 0]; [0; qc 2]]].

Definition ex_PCBNN : PCBNN.t * (list Vec.t * list Vec.t) * stdout :=
  PCBNN.init ex_services PCBNN.default_options ex_A ex_Ms ex_As ex_iss 3.

(** A store with an input vector at [1] and an output vector at [2]. *)
Definition ex_world (works : list Vec.t * list Vec.t) : World :=
  {| vecs := <[2%positive := [qc 5; qc 5; qc 5]]> {[1%positive := [qc 4; qc 8; qc 4]]};
     works_1 := works.1; works_2 := works.2; out := [] |}.

(** An indefinite diagonal [Bs] on two degrees of freedom, and
    eigenpairs of it. *)
Definition ex_Bs : AIJ.t := [[qc (-1); 0]; [0; qc 2]].
Definition ex_eps : PCNew.EPS := [(qc (-1), [1; 0]); (qc 2, [0; 1])].

Definition ex_PCNew (opts : PCNew.Options)
    : PCNew.t * (list Vec.t * list Vec.t) * stdout :=
  PCNew.init ex_services opts ex_A [1; qc 2; 1] ex_As [ex_Bs; ex_Bs] ex_iss
    [ex_eps; ex_eps].

(** The options with one eigenpair requested, and with Additive Schwarz
    selected. *)
Definition ex_nev1_options : PCNew.Options :=
  {| PCNew.PCNew_switchtoASM := false; PCNew.PCNew_verbose := false;
     PCNew.PCNew_GenEO := true; PCNew.PCNew_addCoarseSolve := false;
     PCNew.PCNew_CoarseProjection := true; PCNew.PCNew_Bs_nev := 1 |}.

Definition ex_ASM_options : PCNew.Options :=
  {| PCNew.PCNew_switchtoASM := true; PCNew.PCNew_verbose := false;
     PCNew.PCNew_GenEO := true; PCNew.PCNew_addCoarseSolve := false;
     PCNew.PCNew_CoarseProjection := true; PCNew.PCNew_Bs_nev := 20 |}.

(** ** Further example data *)

(** A store with an input vector at [1] and two output vectors, at [2]
    and [3]. *)
Definition ex_world_MP (works : list Vec.t * list Vec.t) : World :=
  {| vecs := <[3%positive := [qc 7; qc 7; qc 7]]>
               (<[2%positive := [qc 5; qc 5; qc 5]]>
                  {[1%positive := [qc 4; qc 8; qc 4]]});
     works_1 := works.1; works_2 := works.2; out := [] |}.

(** A positive definite diagonal [Bs] and its eigenpairs. *)
Definition ex_Bs_pos : AIJ.t := [[1; 0]; [0; qc 2]].
Definition ex_eps_pos : PCNew.EPS := [(1, [1; 0]); (qc 2, [0; 1])].

(** The matrix the two copies of [ex_Bs] add up to on [ex_iss]. *)
Definition ex_A_Bs : AIJ.t := [[qc (-1); 0; 0]; [0; 1; 0]; [0; 0; qc 2]].

(** * Facts *)

(** ** Scalars *)

Lemma Qc_square_nonneg (a : Qc) : 0 ≤ a * a.
Proof.
  destruct (Qclt_le_dec a 0) as [Hneg|Hpos].
  - replace (a * a) with ((- a) * (- a)) by ring.
    assert (0 ≤ - a) as Hn.
    { apply Qclt_le_weak in Hneg. apply Qcopp_le_compat in Hneg.
      by replace (- 0) with 0 in Hneg by ring. }
    replace 0 with (0 * (- a)) at 1 by ring.
    by apply Qcmult_le_compat_r.
  - replace 0 with (0 * a) at 1 by ring.
    by apply Qcmult_le_compat_r.
Qed.

Lemma Qc_mult_nonneg (a b : Qc) : 0 ≤ a → 0 ≤ b → 0 ≤ a * b.
Proof.
  intros Ha Hb. replace 0 with (0 * b) by ring.
  by apply Qcmult_le_compat_r.
Qed.

Lemma sumQ_nonneg (l : list Qc) : Forall (λ a, 0 ≤ a) l → 0 ≤ sumQ l.
Proof.
  induction 1 as [|a l Ha _ IH]; simpl; [apply Qcle_refl|].
  by apply Qcplus_nonneg_nonneg.
Qed.

(** ** Vectors *)

(** Closes the step of an entrywise induction. *)
Ltac pointwise IH :=
  simpl; f_equal; solve [ring | apply IH; done | done].

Section vec_facts.
Implicit Types (x y z v : Vec.t) (a c : Qc) (vs : list Vec.t).

Lemma length_set v c : length (Vec.set v c) = length v.
Proof. apply length_fmap. Qed.

Lemma length_duplicate v : length (Vec.duplicate v) = length v.
Proof. apply length_fmap. Qed.

Lemma set_zeros v : Vec.set v 0 = Vec.zeros (length v).
Proof. induction v as [|b v IH]; [done|]. unfold Vec.set, Vec.zeros in *. simpl. f_equal. apply IH. Qed.

Lemma length_zeros n : length (Vec.zeros n) = n.
Proof. apply length_replicate. Qed.

Lemma length_axpy a x y :
  length x = length y → length (Vec.axpy a x y) = length y.
Proof. intros H. unfold Vec.axpy. by rewrite length_zip_with_l_eq. Qed.

Lemma length_add x y : length x = length y → length (Vec.add x y) = length y.
Proof. intros H. unfold Vec.add. by rewrite length_zip_with_r_eq. Qed.

Lemma length_sub x y : length x = length y → length (Vec.sub x y) = length x.
Proof. intros H. unfold Vec.sub. by rewrite length_zip_with_l_eq. Qed.

Lemma length_rmul a v : length (Vec.rmul a v) = length v.
Proof. apply length_fmap. Qed.

Lemma length_neg v : length (Vec.neg v) = length v.
Proof. apply length_fmap. Qed.

Lemma dot_cons a x c y : Vec.dot (a :: x) (c :: y) = a * c + Vec.dot x y.
Proof. done. Qed.

Lemma dot_nil_r x : Vec.dot x [] = 0.
Proof. by destruct x. Qed.

Lemma dot_comm x y : Vec.dot x y = Vec.dot y x.
Proof.
  revert y. induction x as [|a x IH]; intros [|c y]; try done.
  rewrite !dot_cons, IH. ring.
Qed.

Lemma dot_zeros_l n z : Vec.dot (Vec.zeros n) z = 0.
Proof.
  revert z. induction n as [|n IH]; intros [|c z]; try done.
  unfold Vec.zeros in *. simpl replicate. rewrite dot_cons, IH. ring.
Qed.

Lemma dot_axpy a x y z :
  length x = length y →
  Vec.dot (Vec.axpy a x y) z = Vec.dot y z + a * Vec.dot x z.
Proof.
  revert y z. induction x as [|b x IH]; intros [|d y] [|c z] Hl;
    simplify_eq/=; try (unfold Vec.dot; simpl; ring).
  change (Vec.axpy a (b :: x) (d :: y)) with ((d + a * b) :: Vec.axpy a x y).
  rewrite !dot_cons, IH by done. ring.
Qed.

Lemma dot_add_l x y z :
  length x = length y →
  Vec.dot (Vec.add x y) z = Vec.dot x z + Vec.dot y z.
Proof.
  revert y z. induction x as [|b x IH]; intros [|d y] [|c z] Hl;
    simplify_eq/=; try (unfold Vec.dot; simpl; ring).
  change (Vec.add (b :: x) (d :: y)) with ((b + d) :: Vec.add x y).
  rewrite !dot_cons, IH by done. ring.
Qed.

Lemma dot_sub_l x y z :
  length x = length y →
  Vec.dot (Vec.sub x y) z = Vec.dot x z - Vec.dot y z.
Proof.
  revert y z. induction x as [|b x IH]; intros [|d y] [|c z] Hl;
    simplify_eq/=; try (unfold Vec.dot; simpl; ring).
  change (Vec.sub (b :: x) (d :: y)) with ((b - d) :: Vec.sub x y).
  rewrite !dot_cons, IH by done. ring.
Qed.

Lemma dot_rmul_l a x z : Vec.dot (Vec.rmul a x) z = a * Vec.dot x z.
Proof.
  revert z. induction x as [|b x IH]; intros [|c z];
    try (unfold Vec.dot; simpl; ring).
  change (Vec.rmul a (b :: x)) with ((a * b) :: Vec.rmul a x).
  rewrite !dot_cons, IH. ring.
Qed.

Lemma dot_rmul_r a x z : Vec.dot x (Vec.rmul a z) = a * Vec.dot x z.
Proof. by rewrite dot_comm, dot_rmul_l, dot_comm. Qed.

Lemma dot_neg_l x z : Vec.dot (Vec.neg x) z = - Vec.dot x z.
Proof.
  revert z. induction x as [|b x IH]; intros [|c z];
    try (unfold Vec.dot; simpl; ring).
  change (Vec.neg (b :: x)) with ((- b) :: Vec.neg x).
  rewrite !dot_cons, IH. ring.
Qed.

Lemma dot_self_nonneg x : 0 ≤ Vec.dot x x.
Proof.
  induction x as [|b x IH]; [apply Qcle_refl|].
  rewrite dot_cons. apply Qcplus_nonneg_nonneg; [apply Qc_square_nonneg|done].
Qed.

(** Entrywise identities. *)

Lemma axpy_add a x y :
  Vec.axpy a x y = Vec.add y (Vec.rmul a x).
Proof.
  revert y. induction x as [|b x IH]; intros [|d y]; try done.
  change (Vec.axpy a (b :: x) (d :: y)) with ((d + a * b) :: Vec.axpy a x y).
  by rewrite IH.
Qed.

Lemma iadd_add y x : Vec.iadd y x = Vec.add y x.
Proof.
  unfold Vec.iadd. revert y. induction x as [|b x IH]; intros [|d y]; try done.
  change (Vec.axpy 1 (b :: x) (d :: y)) with ((d + 1 * b) :: Vec.axpy 1 x y).
  unfold Vec.add, Vec.axpy in *. pointwise IH.
Qed.

Lemma add_assoc x y z : Vec.add (Vec.add x y) z = Vec.add x (Vec.add y z).
Proof.
  revert y z. induction x as [|b x IH]; intros [|d y] [|c z]; try done.
  unfold Vec.add in *. pointwise IH.
Qed.

Lemma add_zeros_l x : Vec.add (Vec.zeros (length x)) x = x.
Proof.
  induction x as [|b x IH]; [done|].
  unfold Vec.add, Vec.zeros in *. pointwise IH.
Qed.

Lemma add_zeros_r x : Vec.add x (Vec.zeros (length x)) = x.
Proof.
  induction x as [|b x IH]; [done|].
  unfold Vec.add, Vec.zeros in *. pointwise IH.
Qed.

Lemma axpy_1_zeros x : Vec.axpy 1 x (Vec.zeros (length x)) = x.
Proof.
  induction x as [|b x IH]; [done|].
  unfold Vec.axpy, Vec.zeros in *. pointwise IH.
Qed.

Lemma axpy_1_neg x p :
  Vec.axpy 1 x (Vec.neg p) = Vec.sub x p.
Proof.
  revert p. induction x as [|b x IH]; intros [|d p]; try done.
  unfold Vec.axpy, Vec.neg, Vec.sub in *. pointwise IH.
Qed.

Lemma neg_zeros n : Vec.neg (Vec.zeros n) = Vec.zeros n.
Proof.
  induction n as [|n IH]; [done|].
  unfold Vec.neg, Vec.zeros in *. pointwise IH.
Qed.

Lemma neg_axpy a x y :
  Vec.neg (Vec.axpy a x y) = Vec.axpy (- a) x (Vec.neg y).
Proof.
  revert y. induction x as [|b x IH]; intros [|d y]; try done.
  unfold Vec.axpy, Vec.neg in *. pointwise IH.
Qed.

Lemma axpy_0 x y : length x = length y → Vec.axpy 0 x y = y.
Proof.
  revert y. induction x as [|b x IH]; intros [|d y] Hl; simplify_eq/=; [done|].
  unfold Vec.axpy in *. pointwise IH.
Qed.

End vec_facts.

(** ** The loops over the eigenvectors *)

Section loops.
Implicit Types (x y z v : Vec.t) (a c : Qc) (vs : list Vec.t) (cs : list Qc).

Lemma foldl_imap_zip {A B} (G : nat → A → B → B) (G' : Qc → A → B → B)
    (h : nat → nat) cs (l : list A) (b : B) :
  length cs = length l →
  (∀ i c e, cs !! i = Some c → l !! i = Some e → G (h i) e = G' c e) →
  foldl (λ acc '(i, e), G i e acc) b (imap (λ i e, (h i, e)) l)
  = foldl (λ acc '(c, e), G' c e acc) b (zip cs l).
Proof.
  revert cs h b. induction l as [|e l IH]; intros [|c cs] h b Hl HG;
    simplify_eq/=; [done|].
  rewrite (HG 0%nat c e) by done.
  apply (IH cs (h ∘ S)); [done|].
  intros i c' e' Hc He. by apply (HG (S i)).
Qed.

Lemma foldl_enumerate_zip {A B} (G : nat → A → B → B) (G' : Qc → A → B → B)
    cs (l : list A) (b : B) :
  length cs = length l →
  (∀ i c e, cs !! i = Some c → l !! i = Some e → G i e = G' c e) →
  foldl (λ acc '(i, e), G i e acc) b (enumerate l)
  = foldl (λ acc '(c, e), G' c e acc) b (zip cs l).
Proof. intros Hl HG. by apply (foldl_imap_zip G G' id). Qed.

(** The first loop of [Anegs_ctx.mult] fills [gamma]. *)
Lemma gamma_loop_from (F : Vec.t → Qc) (k : nat) (DV : list Vec.t) (gamma : Vec.t) :
  length gamma = (k + length DV)%nat →
  foldl (λ g '(i, vec), <[i := F vec]> g) gamma (imap (λ i v, ((k + i)%nat, v)) DV)
  = take k gamma ++ (F <$> DV).
Proof.
  revert k gamma. induction DV as [|v DV IH]; intros k gamma Hl; simpl in *.
  - rewrite take_ge by lia. by rewrite app_nil_r.
  - replace (k + 0)%nat with k by lia.
    rewrite (imap_ext _ (λ i v, ((S k + i)%nat, v))); last first.
    { intros i w _. simpl. f_equal. lia. }
    rewrite IH by (rewrite length_insert; lia).
    rewrite (take_S_r _ _ (F v)); last first.
    { apply list_lookup_insert_eq. lia. }
    rewrite take_insert_ge by lia. by rewrite <-app_assoc.
Qed.

Lemma gamma_loop (F : Vec.t → Qc) (DV : list Vec.t) (gamma : Vec.t) :
  length gamma = length DV →
  foldl (λ g '(i, vec), <[i := F vec]> g) gamma (enumerate DV) = F <$> DV.
Proof. intros Hl. by apply (gamma_loop_from F 0). Qed.

(** The loops of the contexts as linear combinations. *)
Lemma projVnegs_ctx_mult_lincomb vs x y :
  projVnegs_ctx_mult vs x y = lincomb ((λ v, Vec.dot x v) <$> vs) vs (Vec.set y 0).
Proof.
  unfold projVnegs_ctx_mult, lincomb.
  apply (foldl_enumerate_zip (λ _ vec, Vec.axpy (Vec.dot x vec) vec)
           (λ c v, Vec.axpy c v)); [by rewrite length_fmap|].
  intros i c v Hc Hv. rewrite list_lookup_fmap, Hv in Hc. by simplify_eq/=.
Qed.

Lemma Anegs_ctx_mult_lincomb vs DV gamma x y :
  length DV = length vs → length gamma = length vs →
  Anegs_ctx_mult vs DV gamma x y
  = lincomb ((λ v, Vec.dot x v) <$> DV) vs (Vec.set y 0).
Proof.
  intros HDV Hg. unfold Anegs_ctx_mult, lincomb.
  rewrite (gamma_loop (λ v, Vec.dot x v)) by congruence.
  apply (foldl_enumerate_zip
           (λ i vec, Vec.axpy (((λ v, Vec.dot x v) <$> DV) !!! i) vec)
           (λ c v, Vec.axpy c v)); [by rewrite length_fmap|].
  intros i c v Hc Hv. by rewrite (list_lookup_total_correct _ _ _ Hc).
Qed.

(** Sizes and inner products of a linear combination. *)
Lemma length_lincomb cs vs y0 :
  Forall (λ v, length v = length y0) vs → length (lincomb cs vs y0) = length y0.
Proof.
  unfold lincomb. revert cs y0.
  induction vs as [|v vs IH]; intros [|c cs] y0 Hvs; try done.
  apply Forall_cons in Hvs as [Hv Hvs]. simpl.
  rewrite IH; [by apply length_axpy|].
  rewrite length_axpy by done. done.
Qed.

Lemma dot_lincomb cs vs y0 z :
  Forall (λ v, length v = length y0) vs →
  Vec.dot (lincomb cs vs y0) z
  = Vec.dot y0 z + sumQ (zip_with (λ c v, c * Vec.dot v z) cs vs).
Proof.
  unfold lincomb. revert cs y0.
  induction vs as [|v vs IH]; intros [|c cs] y0 Hvs; simpl; try ring.
  apply Forall_cons in Hvs as [Hv Hvs].
  rewrite IH by (by rewrite length_axpy).
  rewrite dot_axpy by done. ring.
Qed.

Lemma lincomb_sum cs vs y0 :
  Forall (λ v, length v = length y0) vs →
  lincomb cs vs y0 = Vec.add y0 (Vec.sum (length y0) (zip_with Vec.rmul cs vs)).
Proof.
  unfold lincomb. revert cs y0.
  induction vs as [|v vs IH]; intros cs y0 Hvs.
  - rewrite zip_with_nil_r. destruct cs; simpl; by rewrite add_zeros_r.
  - destruct cs as [|c cs]; simpl; [by rewrite add_zeros_r|].
    apply Forall_cons in Hvs as [Hv Hvs].
    rewrite IH by (by rewrite length_axpy).
    rewrite length_axpy, axpy_add, add_assoc by done. done.
Qed.

End loops.

(** ** The projections onto the negative eigenvectors and their complement *)

Section projections.
Implicit Types (x y z v w : Vec.t) (a c : Qc) (vs : list Vec.t) (cs : list Qc).

Lemma length_sum n vs : Forall (λ v, length v = n) vs → length (Vec.sum n vs) = n.
Proof.
  induction 1 as [|v vs Hv _ IH]; simpl; [apply length_zeros|].
  rewrite length_add; congruence.
Qed.

Lemma sum_coeffs_cons (f : Vec.t → Qc) v vs z :
  sumQ (zip_with (λ c v, c * Vec.dot v z) (f <$> v :: vs) (v :: vs))
  = f v * Vec.dot v z + sumQ (zip_with (λ c v, c * Vec.dot v z) (f <$> vs) vs).
Proof. done. Qed.

Lemma sum_coeffs_orthogonal (f : Vec.t → Qc) vs z :
  Forall (λ v, Vec.dot v z = 0) vs →
  sumQ (zip_with (λ c v, c * Vec.dot v z) (f <$> vs) vs) = 0.
Proof.
  induction 1 as [|v vs Hv _ IH]; [done|].
  rewrite sum_coeffs_cons, Hv, IH. ring.
Qed.

Lemma sum_coeffs_orthonormal (f : Vec.t → Qc) vs w :
  orthonormal vs → w ∈ vs →
  sumQ (zip_with (λ c v, c * Vec.dot v w) (f <$> vs) vs) = f w.
Proof.
  induction 1 as [|v vs Hvv Hvs Hon IH]; intros Hw; [by apply elem_of_nil in Hw|].
  rewrite sum_coeffs_cons. apply elem_of_cons in Hw as [->|Hw].
  - rewrite Hvv, sum_coeffs_orthogonal; [ring|].
    eapply Forall_impl; [exact Hvs|]. intros u Hu. by rewrite dot_comm.
  - rewrite IH by done.
    rewrite Forall_forall in Hvs. rewrite (Hvs w Hw). ring.
Qed.

Lemma lincomb_ext (f g : Vec.t → Qc) vs y0 :
  (∀ v, v ∈ vs → f v = g v) →
  lincomb (f <$> vs) vs y0 = lincomb (g <$> vs) vs y0.
Proof.
  intros Hfg. f_equal. apply Forall_fmap_ext, Forall_forall. exact Hfg.
Qed.

Lemma lincomb_zero vs y0 :
  Forall (λ v, length v = length y0) vs →
  lincomb ((λ _, 0) <$> vs) vs y0 = y0.
Proof.
  unfold lincomb. revert y0. induction vs as [|v vs IH]; intros y0 Hvs; [done|].
  apply Forall_cons in Hvs as [Hv Hvs]. simpl.
  rewrite axpy_0 by done. by apply IH.
Qed.

Lemma lincomb_neg cs vs y0 :
  lincomb (Qcopp <$> cs) vs (Vec.neg y0) = Vec.neg (lincomb cs vs y0).
Proof.
  unfold lincomb. revert cs y0.
  induction vs as [|v vs IH]; intros [|c cs] y0; try done.
  simpl. by rewrite <-IH, neg_axpy.
Qed.

(** [projVnegs_ctx.mult] computes the sum it is specified by. *)
Lemma projVnegs_ctx_mult_sum n vs x y :
  Forall (λ v, length v = n) vs → length y = n →
  projVnegs_ctx_mult vs x y = projVnegs_sum n vs x.
Proof.
  intros Hvs Hy. rewrite projVnegs_ctx_mult_lincomb, set_zeros, Hy.
  rewrite lincomb_sum by (by rewrite length_zeros).
  rewrite length_zeros, zip_with_fmap_l, zip_with_diag.
  unfold projVnegs_sum.
  rewrite <-(length_sum n ((λ v, Vec.rmul (Vec.dot x v) v) <$> vs)) at 1.
  - apply add_zeros_l.
  - apply Forall_fmap. eapply Forall_impl; [exact Hvs|].
    intros v Hv. simpl. by rewrite length_rmul.
Qed.

Lemma length_projVnegs_ctx_mult n vs x y :
  Forall (λ v, length v = n) vs → length y = n →
  length (projVnegs_ctx_mult vs x y) = n.
Proof.
  intros Hvs Hy. rewrite projVnegs_ctx_mult_lincomb, length_lincomb.
  - by rewrite length_set.
  - by rewrite length_set, Hy.
Qed.

(** The inner product of [projVnegs x] with a vector of the family. *)
Lemma dot_projVnegs_ctx_mult n vs x y w :
  Forall (λ v, length v = n) vs → length y = n → orthonormal vs → w ∈ vs →
  Vec.dot (projVnegs_ctx_mult vs x y) w = Vec.dot x w.
Proof.
  intros Hvs Hy Hon Hw. rewrite projVnegs_ctx_mult_lincomb, dot_lincomb.
  - rewrite (sum_coeffs_orthonormal (λ v, Vec.dot x v)) by done.
    rewrite set_zeros, dot_zeros_l. ring.
  - by rewrite length_set, Hy.
Qed.

Lemma projVnegs_ctx_mult_idempotent n vs x y y' :
  Forall (λ v, length v = n) vs → length y = n → length y' = n →
  orthonormal vs →
  projVnegs_ctx_mult vs (projVnegs_ctx_mult vs x y) y'
  = projVnegs_ctx_mult vs x y.
Proof.
  intros Hvs Hy Hy' Hon.
  rewrite (projVnegs_ctx_mult_lincomb vs (projVnegs_ctx_mult vs x y)).
  rewrite (lincomb_ext _ (λ v, Vec.dot x v)).
  - by rewrite projVnegs_ctx_mult_lincomb, !set_zeros, Hy, Hy'.
  - intros v Hv. by apply (dot_projVnegs_ctx_mult n).
Qed.

(** [projVnegs] of the opposite vector. *)
Lemma projVnegs_ctx_mult_neg vs x y :
  projVnegs_ctx_mult vs (Vec.neg x) y = Vec.neg (projVnegs_ctx_mult vs x y).
Proof.
  rewrite !projVnegs_ctx_mult_lincomb, <-lincomb_neg.
  rewrite !set_zeros, neg_zeros. f_equal.
  rewrite <-list_fmap_compose. apply list_fmap_ext. intros i v _. simpl.
  apply dot_neg_l.
Qed.

(** [projVposs_ctx.mult] is [x − projVnegs x]. *)
Lemma projVposs_ctx_mult_sub vs x y :
  projVposs_ctx_mult (λ x y, Some (projVnegs_ctx_mult vs x y)) x y
  = Some (Vec.sub x (projVnegs_ctx_mult vs x y)).
Proof.
  unfold projVposs_ctx_mult. simpl.
  by rewrite projVnegs_ctx_mult_neg, axpy_1_neg.
Qed.

Lemma sub_projVnegs_idempotent n vs x y y' :
  Forall (λ v, length v = n) vs → length x = n → length y = n → length y' = n →
  orthonormal vs →
  let q := Vec.sub x (projVnegs_ctx_mult vs x y) in
  Vec.sub q (projVnegs_ctx_mult vs q y') = q.
Proof.
  intros Hvs Hx Hy Hy' Hon q.
  assert (length q = n) as Hq.
  { unfold q. rewrite length_sub; [done|].
    by rewrite (length_projVnegs_ctx_mult n). }
  rewrite <-axpy_1_neg, <-projVnegs_ctx_mult_neg.
  rewrite projVnegs_ctx_mult_lincomb.
  rewrite (lincomb_ext _ (λ _, 0)).
  - rewrite lincomb_zero by (by rewrite length_set, Hy').
    rewrite set_zeros, Hy', <-Hq. apply axpy_1_zeros.
  - intros v Hv. rewrite dot_neg_l. unfold q.
    rewrite dot_sub_l by (by rewrite (length_projVnegs_ctx_mult n)).
    rewrite (dot_projVnegs_ctx_mult n) by done. ring.
Qed.

End projections.

(** ** The sign splitting of [Bs] *)

Section splitting.
Implicit Types (x y z v w : Vec.t) (a c : Qc) (vs : list Vec.t)
  (eps negs : PCNew.EPS).

Lemma Forall_filter {A} (P Q : A → Prop) `{∀ e, Decision (P e)} (l : list A) :
  Forall Q l → Forall Q (filter P l).
Proof.
  rewrite !Forall_forall. intros HQ e [_ He]%list_elem_of_filter. by apply HQ.
Qed.

Lemma last_of_snoc {A} `{Inhabited A} (l : list A) (e : A) :
  PCNew.last_of (l ++ [e]) = e.
Proof. unfold PCNew.last_of. by rewrite last_snoc. Qed.

(** The lists the loop of lines 361-372 builds. *)
Lemma diagonalize_filter invmus eps :
  PCNew.diagonalize invmus eps
  = {| PCNew.Dnegs := (λ p, (-1) * p.1) <$> filter (λ p, p.1 < 0) eps;
       PCNew.Dposs := fst <$> filter (λ p, ¬ p.1 < 0) eps;
       PCNew.Vnegs := snd <$> filter (λ p, p.1 < 0) eps;
       PCNew.DVnegs :=
         (λ p, Vec.rmul ((-1) * p.1) p.2) <$> filter (λ p, p.1 < 0) eps;
       PCNew.invmusVnegs :=
         (λ p, Vec.mul invmus p.2) <$> filter (λ p, p.1 < 0) eps |}.
Proof.
  unfold PCNew.diagonalize.
  induction eps as [|p eps IH] using rev_ind; [done|].
  rewrite foldl_snoc, IH, !filter_app, !fmap_app.
  unfold PCNew.diagonalize_step. simpl.
  rewrite !(filter_singleton _ p) by exact [].
  case_bool_decide as Hp.
  - rewrite !last_of_snoc. destruct (decide (p.1 < 0)); [|done].
    destruct (decide (¬ p.1 < 0)); [done|]. simpl. by rewrite app_nil_r.
  - destruct (decide (p.1 < 0)); [done|].
    destruct (decide (¬ p.1 < 0)); [|done]. simpl. by rewrite !app_nil_r.
Qed.

Lemma length_AIJ_mult (A : AIJ.t) x : length (AIJ.mult A x) = length A.
Proof. apply length_fmap. Qed.

Lemma sumQ_cons a (l : list Qc) : sumQ (a :: l) = a + sumQ l.
Proof. done. Qed.

Lemma sumQ_fmap_plus {A} (F G : A → Qc) (l : list A) :
  sumQ (F <$> l) + sumQ (G <$> l) = sumQ ((λ e, F e + G e) <$> l).
Proof.
  induction l as [|e l IH]; [simpl; ring|].
  rewrite !fmap_cons, !sumQ_cons, <-IH. ring.
Qed.

Lemma sumQ_fmap_zero {A} (F : A → Qc) (l : list A) :
  Forall (λ e, F e = 0) l → sumQ (F <$> l) = 0.
Proof.
  induction 1 as [|e l He _ IH]; [done|].
  rewrite fmap_cons, sumQ_cons, He, IH. ring.
Qed.

(** Inner products of a combination of the second components of a list
    of pairs. *)
Lemma dot_lincomb_pairs (f : Qc * Vec.t → Qc) negs y0 w :
  Forall (λ p, length p.2 = length y0) negs →
  Vec.dot (lincomb (f <$> negs) (snd <$> negs) y0) w
  = Vec.dot y0 w + sumQ ((λ p, f p * Vec.dot p.2 w) <$> negs).
Proof.
  intros Hn. rewrite dot_lincomb by (by apply Forall_fmap).
  by rewrite zip_with_fmap_l, zip_with_fmap_r, zip_with_diag.
Qed.

(** [Anegs_ctx.mult] on the lists of the constructor. *)
Lemma Anegs_ctx_mult_pairs negs x y :
  Anegs_ctx_mult (snd <$> negs) ((λ p, Vec.rmul ((-1) * p.1) p.2) <$> negs)
    (Vec.zeros (length (snd <$> negs))) x y
  = lincomb ((λ p, Vec.dot x p.2 * (- p.1)) <$> negs) (snd <$> negs) (Vec.set y 0).
Proof.
  rewrite Anegs_ctx_mult_lincomb by (by rewrite ?length_zeros, !length_fmap).
  f_equal. rewrite <-list_fmap_compose. apply list_fmap_ext.
  intros i p _. simpl. rewrite dot_rmul_r. ring.
Qed.

Lemma Anegs_ctx_mult_sum n eps x y :
  Forall (λ p, length p.2 = n) eps → length y = n →
  let negs := filter (λ p, p.1 < 0) eps in
  Anegs_ctx_mult (snd <$> negs) ((λ p, Vec.rmul ((-1) * p.1) p.2) <$> negs)
    (Vec.zeros (length (snd <$> negs))) x y
  = Anegs_sum n eps x.
Proof.
  intros Heps Hy negs. rewrite Anegs_ctx_mult_pairs.
  assert (Forall (λ p, length p.2 = n) negs) as Hnegs.
  { by apply Forall_filter. }
  rewrite set_zeros, Hy.
  rewrite lincomb_sum by (rewrite length_zeros; by apply Forall_fmap).
  rewrite length_zeros, zip_with_fmap_l, zip_with_fmap_r, zip_with_diag.
  unfold Anegs_sum. fold negs.
  rewrite <-(length_sum n ((λ p, Vec.rmul (Vec.dot x p.2 * - p.1) p.2) <$> negs)) at 1.
  - apply add_zeros_l.
  - apply Forall_fmap. eapply Forall_impl; [exact Hnegs|].
    intros p Hp. simpl. by rewrite length_rmul.
Qed.

Lemma length_Anegs_sum n eps x :
  Forall (λ p, length p.2 = n) eps → length (Anegs_sum n eps x) = n.
Proof.
  intros Heps. unfold Anegs_sum. apply length_sum, Forall_fmap.
  apply Forall_filter. eapply Forall_impl; [exact Heps|].
  intros p Hp. simpl. by rewrite length_rmul.
Qed.

End splitting.

Section positive_part.
Implicit Types (x y z v w : Vec.t) (a c : Qc) (vs : list Vec.t)
  (eps negs : PCNew.EPS).

Lemma sub_add x p : length x = length p → Vec.add (Vec.sub x p) p = x.
Proof.
  revert p. induction x as [|b x IH]; intros [|d p] Hl; simplify_eq/=; [done|].
  unfold Vec.add, Vec.sub in *. pointwise IH.
Qed.

Lemma dot_add_r x y z :
  length x = length y →
  Vec.dot z (Vec.add x y) = Vec.dot z x + Vec.dot z y.
Proof.
  intros Hl. rewrite dot_comm, dot_add_l by done.
  by rewrite (dot_comm x), (dot_comm y).
Qed.

Lemma orthonormal_filter (P : Qc * Vec.t → Prop) `{∀ p, Decision (P p)} eps :
  orthonormal (snd <$> eps) → orthonormal (snd <$> filter P eps).
Proof.
  induction eps as [|p eps IH]; [done|].
  rewrite fmap_cons. inversion 1 as [|v vs Hvv Hvs Hon]; simplify_eq.
  rewrite filter_cons. destruct (decide (P p)); [|by apply IH].
  rewrite fmap_cons. constructor; [done| |by apply IH].
  apply Forall_fmap, Forall_filter. by apply Forall_fmap in Hvs.
Qed.

(** The energy of [Aposs] at [x] is the energy of [Bs] at the part of
    [x] orthogonal to the vectors of [negs]. *)
Lemma Aposs_energy n (Bs : AIJ.t) negs x :
  length Bs = n → Forall (λ p, length p.2 = n) negs → length x = n →
  (∀ v w, length v = n → length w = n →
     Vec.dot (AIJ.mult Bs v) w = Vec.dot v (AIJ.mult Bs w)) →
  Forall (λ p, AIJ.mult Bs p.2 = Vec.rmul p.1 p.2) negs →
  orthonormal (snd <$> negs) →
  let z := Vec.sub x (projVnegs_ctx_mult (snd <$> negs) x (Vec.zeros n)) in
  let an := lincomb ((λ p, Vec.dot x p.2 * (- p.1)) <$> negs) (snd <$> negs)
              (Vec.zeros n) in
  length z = n ∧
  Forall (λ p, Vec.dot z p.2 = 0) negs ∧
  Vec.dot (Vec.add (AIJ.mult Bs x) an) x = Vec.dot (AIJ.mult Bs z) z.
Proof.
  intros HBs Hnegs Hx Hsym Heig Hon z an.
  set (p := projVnegs_ctx_mult (snd <$> negs) x (Vec.zeros n)) in *.
  assert (Forall (λ v, length v = n) (snd <$> negs)) as Hvs by by apply Forall_fmap.
  assert (length p = n) as Hp.
  { apply (length_projVnegs_ctx_mult n); [done|apply length_zeros]. }
  assert (length z = n) as Hz by (unfold z; rewrite length_sub; congruence).
  assert (Vec.add z p = x) as Hzp by (apply sub_add; congruence).
  assert (Forall (λ q, Vec.dot z q.2 = 0) negs) as Horth.
  { apply Forall_forall. intros q Hq. unfold z.
    rewrite dot_sub_l by congruence. unfold p.
    rewrite (dot_projVnegs_ctx_mult n); [ring|done|apply length_zeros|done|].
    apply list_elem_of_fmap. by exists q. }
  assert (∀ w, length w = n →
            Vec.dot (AIJ.mult Bs p) w
            = sumQ ((λ q, Vec.dot x q.2 * q.1 * Vec.dot q.2 w) <$> negs)) as HBp.
  { intros w Hw. rewrite Hsym by done. unfold p.
    rewrite projVnegs_ctx_mult_lincomb, <-list_fmap_compose.
    rewrite (dot_lincomb_pairs (λ q, Vec.dot x q.2)); last first.
    { by rewrite length_set, length_zeros. }
    rewrite set_zeros, dot_zeros_l, Qcplus_0_l. f_equal.
    apply list_fmap_ext. intros i q Hq.
    assert (q ∈ negs) as Hin by (by eapply list_elem_of_lookup_2).
    rewrite Forall_forall in Heig. rewrite Forall_forall in Hnegs.
    rewrite <-Hsym by auto. rewrite (Heig q Hin), dot_rmul_l. ring. }
  split; [done|]. split; [done|].
  assert (length (AIJ.mult Bs x) = length an) as Hlen.
  { rewrite length_AIJ_mult, HBs. unfold an.
    rewrite length_lincomb; by rewrite length_zeros. }
  rewrite dot_add_l by done.
  assert (Vec.dot (AIJ.mult Bs x) x
          = Vec.dot (AIJ.mult Bs z) z + Vec.dot (AIJ.mult Bs p) z
            + Vec.dot (AIJ.mult Bs p) x) as ->.
  { assert (Vec.dot (AIJ.mult Bs x) x
            = Vec.dot (AIJ.mult Bs z) x + Vec.dot (AIJ.mult Bs p) x) as E1.
    { transitivity (Vec.dot (Vec.add z p) (AIJ.mult Bs x)).
      - rewrite Hzp. by apply Hsym.
      - rewrite dot_add_l by congruence. by rewrite <-!Hsym. }
    assert (Vec.dot (AIJ.mult Bs z) x
            = Vec.dot (AIJ.mult Bs z) z + Vec.dot (AIJ.mult Bs p) z) as E2.
    { transitivity (Vec.dot (AIJ.mult Bs z) (Vec.add z p)); [by rewrite Hzp|].
      rewrite dot_add_r by congruence.
      by rewrite (Hsym z p), (dot_comm z (AIJ.mult Bs p)). }
    rewrite E1, E2. ring. }
  unfold an. rewrite dot_lincomb_pairs by (by rewrite length_zeros).
  rewrite dot_zeros_l, !HBp by done.
  rewrite (sumQ_fmap_zero _ negs); last first.
  { eapply Forall_impl; [exact Horth|]. intros q Hq. simpl.
    rewrite (dot_comm q.2 z), Hq. ring. }
  assert (sumQ ((λ q, Vec.dot x q.2 * q.1 * Vec.dot q.2 x) <$> negs)
          + sumQ ((λ q, Vec.dot x q.2 * - q.1 * Vec.dot q.2 x) <$> negs) = 0) as Hs.
  { rewrite sumQ_fmap_plus. apply sumQ_fmap_zero, Forall_forall.
    intros q _. simpl. ring. }
  revert Hs.
  generalize (sumQ ((λ q, Vec.dot x q.2 * q.1 * Vec.dot q.2 x) <$> negs)).
  generalize (sumQ ((λ q, Vec.dot x q.2 * - q.1 * Vec.dot q.2 x) <$> negs)).
  intros s2 s1 Hs.
  transitivity (Vec.dot (AIJ.mult Bs z) z + (s1 + s2)); [ring|].
  rewrite Hs. ring.
Qed.

(** The energy of [Anegs] is a sum of squares with weights [−λ > 0]. *)
Lemma Anegs_energy_nonneg n negs x :
  Forall (λ p, length p.2 = n) negs → Forall (λ p, p.1 < 0) negs →
  0 ≤ Vec.dot (lincomb ((λ p, Vec.dot x p.2 * (- p.1)) <$> negs)
                 (snd <$> negs) (Vec.zeros n)) x.
Proof.
  intros Hnegs Hneg. rewrite dot_lincomb_pairs by (by rewrite length_zeros).
  rewrite dot_zeros_l, Qcplus_0_l. apply sumQ_nonneg, Forall_fmap.
  eapply Forall_impl; [exact Hneg|]. intros q Hq. simpl.
  replace (Vec.dot x q.2 * - q.1 * Vec.dot q.2 x)
    with ((- q.1) * (Vec.dot x q.2 * Vec.dot x q.2))
    by (rewrite (dot_comm q.2 x); ring).
  apply Qc_mult_nonneg; [|apply Qc_square_nonneg].
  apply Qclt_le_weak in Hq. apply Qcopp_le_compat in Hq.
  by replace (- 0) with 0 in Hq by ring.
Qed.

End positive_part.

(** ** The local operators built by [PCNew.__init__] *)

Lemma init_local_objects sv opts rank is_A work mult_max As Bs eps :
  let L := (PCNew.init_local sv opts rank is_A work mult_max As Bs eps).1 in
  let Bs_ksp := KSPpreonly (MatAIJ Bs) (PCcholesky (mumps sv Bs)) in
  PCNew.diag L
    = PCNew.diagonalize (Vec.rtruediv 1 (Scatter.reverse_insert is_A work)) eps
  ∧ PCNew.Anegs L
    = MatPython (Anegs_ctx (PCNew.Vnegs (PCNew.diag L)) (PCNew.DVnegs (PCNew.diag L)))
  ∧ PCNew.Aposs L = MatPython (Aposs_ctx (MatAIJ Bs) (PCNew.Anegs L))
  ∧ PCNew.projVnegs L = MatPython (projVnegs_ctx (PCNew.Vnegs (PCNew.diag L)))
  ∧ PCNew.projVposs L = MatPython (projVposs_ctx (PCNew.projVnegs L))
  ∧ PCNew.invAposs L = MatPython (invAposs_ctx Bs_ksp (PCNew.projVposs L))
  ∧ PCNew.ksp_Aposs L
    = KSPpreonly (PCNew.Aposs L) (PCpython (invAposs_ctx Bs_ksp (PCNew.projVposs L))).
Proof.
  unfold PCNew.init_local. by destruct (PCNew.PCNew_switchtoASM opts).
Qed.

Lemma init_local_Anegs_mult sv opts rank is_A work mult_max As Bs eps n x y :
  Forall (λ p, length p.2 = n) eps → length y = n →
  Mat_mult (PCNew.Anegs (PCNew.init_local sv opts rank is_A work mult_max As Bs eps).1) x y
  = Some (Anegs_sum n eps x).
Proof.
  intros Heps Hy.
  destruct (init_local_objects sv opts rank is_A work mult_max As Bs eps)
    as (Hd & -> & _).
  rewrite Hd, diagonalize_filter. simpl. f_equal.
  by apply Anegs_ctx_mult_sum.
Qed.

(** ** What [PCNew.__init__] builds and prints on a rank *)

Lemma init_rank sv opts A_mpiaij work As0 Bs0 iss eps rank is_A As Bs e :
  iss !! rank = Some is_A → As0 !! rank = Some As → Bs0 !! rank = Some Bs →
  eps !! rank = Some e →
  let built := PCNew.init sv opts A_mpiaij work As0 Bs0 iss eps in
  let local :=
    PCNew.init_local sv opts rank is_A work (Vec.max work) As Bs e in
  PCNew.locals built.1.1 !! rank = Some local.1
  ∧ ∀ line, line ∈ local.2 → line ∈ built.2.
Proof.
  intros His HAs HBs He built local.
  assert (imap (λ rank '(is_A, (As, (Bs, e))),
                  PCNew.init_local sv opts rank is_A work (Vec.max work) As Bs e)
            (zip iss (zip As0 (zip Bs0 eps))) !! rank = Some local) as Hb.
  { rewrite list_lookup_imap.
    assert (zip iss (zip As0 (zip Bs0 eps)) !! rank = Some (is_A, (As, (Bs, e))))
      as ->; [|done].
    rewrite !lookup_zip_with, His, HAs, HBs, He. done. }
  split.
  - unfold built, PCNew.init. simpl. by rewrite list_lookup_fmap, Hb.
  - intros line Hline. unfold built, PCNew.init. simpl.
    apply list_elem_of_join. exists local.2. split; [done|].
    apply list_elem_of_fmap. exists local. split; [done|].
    by eapply list_elem_of_lookup_2.
Qed.

(** ** Applying a preconditioner *)

Section world.
Implicit Types (w : World) (x y r : loc) (v : Vec.t).

Lemma bind_Some {A B} (m : M A) (f : A → M B) w a w' :
  m w = Some (a, w') → (m ≫= f) w = f a w'.
Proof. intros H. unfold mbind, M_bind. by rewrite H. Qed.

Lemma bind_None {A B} (m : M A) (f : A → M B) w :
  m w = None → (m ≫= f) w = None.
Proof. intros H. unfold mbind, M_bind. by rewrite H. Qed.

Lemma get_vec_run w r v : vecs w !! r = Some v → get_vec r w = Some (v, w).
Proof. intros H. unfold get_vec. by rewrite H. Qed.

Lemma put_vec_run w r v v' :
  vecs w !! r = Some v → put_vec r v' w = Some (tt, with_vecs <[r := v']> w).
Proof. intros H. unfold put_vec. by rewrite H. Qed.

Lemma alloc_run w v :
  ∃ r, vecs w !! r = None ∧ alloc v w = Some (r, with_vecs <[r := v]> w).
Proof.
  exists (fresh (dom (vecs w))). split; [|done].
  apply not_elem_of_dom, is_fresh.
Qed.

Lemma Vec_copy_run w x v :
  vecs w !! x = Some v →
  ∃ r, vecs w !! r = None ∧ Vec_copy x w = Some (r, with_vecs <[r := v]> w).
Proof.
  intros H. unfold Vec_copy.
  rewrite (bind_Some _ _ _ _ _ (get_vec_run _ _ _ H)). apply alloc_run.
Qed.

Lemma Vec_set_run w y v c :
  vecs w !! y = Some v →
  Vec_set y c w = Some (tt, with_vecs <[y := Vec.set v c]> w).
Proof.
  intros H. unfold Vec_set.
  rewrite (bind_Some _ _ _ _ _ (get_vec_run _ _ _ H)). by apply (put_vec_run _ _ v).
Qed.

Lemma Vec_iadd_run w y x yv xv :
  vecs w !! y = Some yv → vecs w !! x = Some xv →
  Vec_iadd y x w = Some (tt, with_vecs <[y := Vec.iadd yv xv]> w).
Proof.
  intros Hy Hx. unfold Vec_iadd.
  rewrite (bind_Some _ _ _ _ _ (get_vec_run _ _ _ Hy)).
  rewrite (bind_Some _ _ _ _ _ (get_vec_run _ _ _ Hx)). by apply (put_vec_run _ _ yv).
Qed.

Lemma proj_project_transpose_run p w x v :
  vecs w !! x = Some v →
  proj_project_transpose p x w
  = Some (tt, with_vecs <[x := project_transpose p v]> w).
Proof.
  intros H. unfold proj_project_transpose.
  rewrite (bind_Some _ _ _ _ _ (get_vec_run _ _ _ H)). by apply (put_vec_run _ _ v).
Qed.

Lemma proj_project_run p w y v :
  vecs w !! y = Some v →
  proj_project p y w = Some (tt, with_vecs <[y := project p v]> w).
Proof.
  intros H. unfold proj_project.
  rewrite (bind_Some _ _ _ _ _ (get_vec_run _ _ _ H)). by apply (put_vec_run _ _ v).
Qed.

Lemma proj_coarse_init_run p w x v :
  vecs w !! x = Some v →
  ∃ r, vecs w !! r = None
    ∧ proj_coarse_init p x w = Some (r, with_vecs <[r := coarse_init p v]> w).
Proof.
  intros H. unfold proj_coarse_init.
  rewrite (bind_Some _ _ _ _ _ (get_vec_run _ _ _ H)). apply alloc_run.
Qed.

Lemma scatter_reverse_run iss w x v :
  vecs w !! x = Some v →
  scatter_reverse iss x Works_1 w
  = Some (tt, {| vecs := vecs w;
                 works_1 := (λ is_A, Scatter.reverse_insert is_A v) <$> iss;
                 works_2 := works_2 w; out := out w |}).
Proof.
  intros H. unfold scatter_reverse.
  by rewrite (bind_Some _ _ _ _ _ (get_vec_run _ _ _ H)).
Qed.

Lemma scatter_forward_run iss w y v :
  vecs w !! y = Some v →
  scatter_forward iss Works_2 y w
  = Some (tt, with_vecs <[y := Scatter.forward_add iss (works_2 w) v]> w).
Proof.
  intros H. unfold scatter_forward.
  rewrite (bind_Some (get_works Works_2) _ w (works_2 w) w) by done.
  rewrite (bind_Some _ _ _ _ _ (get_vec_run _ _ _ H)). by apply (put_vec_run _ _ v).
Qed.

Lemma solve_all_run ksps w :
  solve_all ksps Works_1 Works_2 w
  = match mapM (λ '(k, (b, s)), KSP_solve k b s)
            (zip ksps (zip (works_1 w) (works_2 w))) with
    | Some sols => Some (tt, {| vecs := vecs w; works_1 := works_1 w;
                                works_2 := sols; out := out w |})
    | None => None
    end.
Proof.
  unfold solve_all.
  rewrite (bind_Some (get_works Works_1) _ w (works_1 w) w) by done.
  rewrite (bind_Some (get_works Works_2) _ w (works_2 w) w) by done.
  by destruct (mapM _ _).
Qed.

Lemma bind_run {A B} (m : M A) (f : A → M B) w :
  (m ≫= f) w = match m w with Some (a, w') => f a w' | None => None end.
Proof. done. Qed.

End world.

Section dd_mult.
Implicit Types (w : World) (x y r : loc) (v : Vec.t).

(** Runs the next statement of a sequence by the lemma [lem]. *)
Ltac run_step lem :=
  erewrite bind_Some; [|apply lem; simpl; simplify_map_eq; done].

(** Runs [x.copy()] or [proj.coarse_init(x)], naming the new vector. *)
Ltac run_alloc lem r Hr :=
  let Hrun := fresh "Hrun" in
  match goal with
  | |- context [mbind _ _ ?W] =>
      destruct (lem W) as (r & Hr & Hrun);
      [simpl; simplify_map_eq; done|];
      simpl in Hr;
      rewrite (bind_Some _ _ _ _ _ Hrun); clear Hrun
  end.

Lemma dd_mult_run projCS addCS p iss ksps x y w xv yv :
  x ≠ y → vecs w !! x = Some xv → vecs w !! y = Some yv →
  match six_steps projCS addCS p iss ksps (works_2 w) xv yv with
  | Some yr =>
      ∃ w', dd_mult projCS addCS p iss ksps x y w = Some (tt, w')
        ∧ vecs w' !! y = Some yr
        ∧ (∀ r, r ∈ dom (vecs w) → r ≠ y → vecs w' !! r = vecs w !! r)
        ∧ out w' = out w
  | None => dd_mult projCS addCS p iss ksps x y w = None
  end.
Proof.
  intros Hxy Hx Hy. unfold six_steps, dd_mult.
  destruct (Vec_copy_run w x xv Hx) as (xd & Hxd & Hrun).
  rewrite (bind_Some _ _ _ _ _ Hrun). clear Hrun.
  assert (x ≠ xd) as Hxd_x by congruence.
  assert (y ≠ xd) as Hxd_y by congruence.
  assert (∀ r, r ∈ dom (vecs w) → r ≠ xd) as Hdom_xd.
  { intros r [v Hr]%elem_of_dom. congruence. }
  destruct projCS; simpl.
  - run_step proj_project_transpose_run.
    run_step scatter_reverse_run.
    rewrite bind_run, solve_all_run. simpl.
    destruct (mapM _ _) as [sols|]; simpl; [|done].
    run_step Vec_set_run.
    run_step scatter_forward_run.
    run_step proj_project_run.
    destruct addCS; simpl.
    + run_alloc (λ W, Vec_copy_run W x xv) xd2 Hxd2.
      run_alloc (λ W, proj_coarse_init_run p W xd2 xv) ytild Hytild.
      assert (y ≠ xd2) as Hxd2_y by (intros ->; by simplify_map_eq).
      assert (y ≠ ytild) as Hyt_y by (intros ->; by simplify_map_eq).
      assert (xd2 ≠ ytild) as Hyt_xd2 by (intros ->; by simplify_map_eq).
      eexists. split; [eapply Vec_iadd_run; simpl; by simplify_map_eq|].
      simpl. split_and!.
      * rewrite lookup_insert_eq. by rewrite iadd_add.
      * intros r Hr Hry. pose proof (Hdom_xd r Hr).
        apply elem_of_dom in Hr as [v Hr].
        assert (r ≠ xd2) by (intros ->; by simplify_map_eq).
        assert (r ≠ ytild) by (intros ->; by simplify_map_eq).
        by simplify_map_eq.
      * done.
    + eexists. split; [done|]. simpl. split_and!.
      * by rewrite lookup_insert_eq.
      * intros r Hr Hry. pose proof (Hdom_xd r Hr). by simplify_map_eq.
      * done.
  - rewrite (bind_Some (mret tt) _ _ tt _) by done.
    run_step scatter_reverse_run.
    rewrite bind_run, solve_all_run. simpl.
    destruct (mapM _ _) as [sols|]; simpl; [|done].
    run_step Vec_set_run.
    run_step scatter_forward_run.
    rewrite (bind_Some (mret tt) _ _ tt _) by done.
    destruct addCS; simpl.
    + run_alloc (λ W, Vec_copy_run W x xv) xd2 Hxd2.
      run_alloc (λ W, proj_coarse_init_run p W xd2 xv) ytild Hytild.
      assert (y ≠ xd2) as Hxd2_y by (intros ->; by simplify_map_eq).
      assert (y ≠ ytild) as Hyt_y by (intros ->; by simplify_map_eq).
      assert (xd2 ≠ ytild) as Hyt_xd2 by (intros ->; by simplify_map_eq).
      eexists. split; [eapply Vec_iadd_run; simpl; by simplify_map_eq|].
      simpl. split_and!.
      * rewrite lookup_insert_eq. by rewrite iadd_add.
      * intros r Hr Hry. pose proof (Hdom_xd r Hr).
        apply elem_of_dom in Hr as [v Hr].
        assert (r ≠ xd2) by (intros ->; by simplify_map_eq).
        assert (r ≠ ytild) by (intros ->; by simplify_map_eq).
        by simplify_map_eq.
      * done.
    + eexists. split; [done|]. simpl. split_and!.
      * by rewrite lookup_insert_eq.
      * intros r Hr Hry. pose proof (Hdom_xd r Hr). by simplify_map_eq.
      * done.
Qed.

End dd_mult.

Lemma PCBNN_mult_body self x y :
  PCBNN.mult self x y
  = dd_mult (PCBNN.projCS self) (PCBNN.addCS self) (PCBNN.proj self)
      (PCBNN.scatter_l2g self) (PCBNN.ksp_Atildes self) x y.
Proof. done. Qed.

Lemma PCNew_mult_body self x y :
  PCNew.mult self x y
  = dd_mult (PCNew.projCS self) (PCNew.addCS self) (PCNew.proj self)
      (PCNew.scatter_l2g self) (PCNew.ksp_Atildes <$> PCNew.locals self) x y.
Proof. done. Qed.

Lemma PCBNN_MP_mult_body self x y :
  PCBNN.MP_mult self x y
  = dd_MP_mult (PCBNN.proj self) (PCBNN.scatter_l2g self)
      (PCBNN.ksp_Atildes self) x y.
Proof. done. Qed.

Lemma for_print (l : list nat) (s : string) (w : World) :
  for_ l (λ rank, print rank s) w
  = Some (tt, {| vecs := vecs w; works_1 := works_1 w; works_2 := works_2 w;
                 out := out w ++ ((λ rank, (rank, s)) <$> l) |}).
Proof.
  revert w. induction l as [|r l IH]; intros w; simpl.
  - rewrite app_nil_r. by destruct w.
  - rewrite (bind_Some (print r s) _ w tt _) by done.
    rewrite IH. simpl. by rewrite <-app_assoc.
Qed.

(** ** The multiplicity and the scalings of [PCBNN.__init__] *)

Section scaling.
Implicit Types (is_A : Scatter.IS) (iss : list Scatter.IS) (g : Vec.t)
  (A : AIJ.t).

Lemma Qc_of_nat_0 : Qc_of_nat 0 = 0.
Proof. exact Z2Qc_inj_0. Qed.

Lemma Qc_of_nat_S n : Qc_of_nat (S n) = 1 + Qc_of_nat n.
Proof.
  unfold Qc_of_nat. rewrite Nat2Z.inj_succ, <-Z.add_1_l, Z2Qc_inj_add.
  by rewrite Z2Qc_inj_1.
Qed.

Lemma set_replicate n c d : Vec.set (replicate n d) c = replicate n c.
Proof. unfold Vec.set. by rewrite fmap_replicate. Qed.

Lemma add_local_ones is_A g k :
  NoDup is_A →
  Scatter.add_local is_A (replicate (length is_A) 1) g !! k
  = (λ a, a + (if bool_decide (k ∈ is_A) then 1 else 0)) <$> g !! k.
Proof.
  unfold Scatter.add_local. intros Hnd. revert g.
  induction Hnd as [|gi is_A Hgi Hnd IH]; intros g; simpl.
  - destruct (g !! k); simpl; [|done]. f_equal. ring.
  - rewrite IH, list_lookup_alter.
    destruct (decide (gi = k)) as [->|Hne].
    + rewrite bool_decide_eq_false_2 by done.
      rewrite bool_decide_eq_true_2 by apply list_elem_of_here.
      destruct (g !! k); simpl; [|done]. f_equal. ring.
    + destruct (g !! k); simpl; [|done]. f_equal. f_equal.
      rewrite (bool_decide_ext (k ∈ gi :: is_A) (k ∈ is_A)); [done|].
      rewrite elem_of_cons. split; [intros [?|?]; [congruence|done]|by right].
Qed.

Lemma owners_cons is_A iss k :
  owners (is_A :: iss) k
  = ((if bool_decide (k ∈ is_A) then 1 else 0) + owners iss k)%nat.
Proof.
  unfold owners. rewrite filter_cons.
  destruct (decide (k ∈ is_A)).
  - by rewrite bool_decide_eq_true_2.
  - by rewrite bool_decide_eq_false_2.
Qed.

Lemma forward_add_ones iss g k :
  Forall NoDup iss →
  Scatter.forward_add iss ((λ is_A, replicate (length is_A) 1) <$> iss) g !! k
  = (λ a, a + Qc_of_nat (owners iss k)) <$> g !! k.
Proof.
  unfold Scatter.forward_add. intros Hnd. revert g.
  induction Hnd as [|is_A iss His _ IH]; intros g; simpl.
  - change (owners [] k) with 0%nat. rewrite Qc_of_nat_0.
    destruct (g !! k); simpl; [|done]. f_equal. ring.
  - rewrite IH, add_local_ones, owners_cons by done.
    destruct (g !! k); simpl; [|done]. f_equal.
    case_bool_decide; simpl.
    + rewrite Qc_of_nat_S. ring.
    + ring.
Qed.

(** Lines 86-90 leave on every local entry the number of subdomains that
    own its degree of freedom. *)
Lemma multiplicity_owners iss nglobal rank is_A i gi :
  Forall NoDup iss → Forall (Forall (λ gi, gi < nglobal)%nat) iss →
  iss !! rank = Some is_A → is_A !! i = Some gi →
  ((PCBNN.multiplicity iss nglobal).1 !!! rank) !! i
  = Some (Qc_of_nat (owners iss gi)).
Proof.
  intros Hnd Hrange His Hgi. unfold PCBNN.multiplicity. simpl.
  rewrite (list_lookup_total_correct _ _ (Scatter.reverse_insert is_A
    (Scatter.forward_add iss
       ((λ is_A, Vec.set (Vec.zeros (length is_A)) 1) <$> iss)
       (Vec.set (Vec.zeros nglobal) 0)))); last first.
  { by rewrite list_lookup_fmap, His. }
  unfold Scatter.reverse_insert. rewrite list_lookup_fmap, Hgi. simpl. f_equal.
  apply list_lookup_total_correct.
  assert ((λ is_A, Vec.set (Vec.zeros (length is_A)) 1) <$> iss
          = (λ is_A, replicate (length is_A) 1) <$> iss) as ->.
  { apply list_fmap_ext. intros ? ? _. simpl. apply set_replicate. }
  rewrite forward_add_ones by done.
  unfold Vec.zeros. rewrite set_replicate.
  rewrite lookup_replicate_2; last first.
  { rewrite Forall_forall in Hrange.
    specialize (Hrange is_A (list_elem_of_lookup_2 _ _ _ His)).
    rewrite Forall_forall in Hrange.
    apply Hrange. by eapply list_elem_of_lookup_2. }
  simpl. f_equal. ring.
Qed.

Lemma entry_diagonalScale A (L R : Vec.t) n i j :
  length A = n → Forall (λ row, length row = n) A →
  length L = n → length R = n → (i < n)%nat → (j < n)%nat →
  AIJ.entry (AIJ.diagonalScale A L R) i j
  = (L !!! i) * AIJ.entry A i j * (R !!! j).
Proof.
  intros HA Hrows HL HR Hi Hj. unfold AIJ.entry, AIJ.diagonalScale.
  destruct (lookup_lt_is_Some_2 A i) as [row Hrow]; [lia|].
  destruct (lookup_lt_is_Some_2 L i) as [li Hli]; [lia|].
  destruct (lookup_lt_is_Some_2 R j) as [rj Hrj]; [lia|].
  assert (length row = n) as Hlrow.
  { rewrite Forall_forall in Hrows. apply Hrows.
    by eapply list_elem_of_lookup_2. }
  destruct (lookup_lt_is_Some_2 row j) as [a Ha]; [lia|].
  rewrite (list_lookup_total_correct _ _ _ Hrow),
    (list_lookup_total_correct _ _ _ Hli),
    (list_lookup_total_correct _ _ _ Hrj),
    (list_lookup_total_correct _ _ _ Ha).
  erewrite (list_lookup_total_correct _ i); last first.
  { rewrite lookup_zip_with, Hli. simpl. rewrite Hrow. simpl. done. }
  apply list_lookup_total_correct.
  rewrite lookup_zip_with, Ha. simpl. by rewrite Hrj.
Qed.

Lemma getDiagonal_lookup A n i :
  length A = n → (i < n)%nat → AIJ.getDiagonal A !!! i = AIJ.entry A i i.
Proof.
  intros HA Hi. unfold AIJ.getDiagonal, AIJ.entry.
  destruct (lookup_lt_is_Some_2 A i) as [row Hrow]; [lia|].
  rewrite (list_lookup_total_correct _ _ _ Hrow).
  apply list_lookup_total_correct. by rewrite list_lookup_imap, Hrow.
Qed.

Lemma truediv_lookup (v1 v2 : Vec.t) n i :
  length v1 = n → length v2 = n → (i < n)%nat →
  Vec.truediv v1 v2 !!! i = (v1 !!! i) / (v2 !!! i).
Proof.
  intros H1 H2 Hi. unfold Vec.truediv.
  destruct (lookup_lt_is_Some_2 v1 i) as [a Ha]; [lia|].
  destruct (lookup_lt_is_Some_2 v2 i) as [b Hb]; [lia|].
  rewrite (list_lookup_total_correct _ _ _ Ha),
    (list_lookup_total_correct _ _ _ Hb).
  apply list_lookup_total_correct.
  rewrite lookup_zip_with, Ha. simpl. by rewrite Hb.
Qed.

End scaling.

(** ** Further facts on the local operators *)

Section local_operators.
Implicit Types (x y z v w : Vec.t) (a c : Qc) (vs : list Vec.t)
  (eps negs : PCNew.EPS).

Lemma add_comm x y : Vec.add x y = Vec.add y x.
Proof.
  revert y. induction x as [|b x IH]; intros [|d y]; try done.
  unfold Vec.add in *. pointwise IH.
Qed.

Lemma add_sub_cancel p x : length p = length x → Vec.add p (Vec.sub x p) = x.
Proof.
  revert x. induction p as [|b p IH]; intros [|d x] Hl; simplify_eq/=; [done|].
  unfold Vec.add, Vec.sub in *. pointwise IH.
Qed.

Lemma mul_rtruediv_ones (mus : Vec.t) :
  Forall (λ m, m ≠ 0) mus →
  Vec.mul (Vec.rtruediv 1 mus) mus = replicate (length mus) 1.
Proof.
  induction 1 as [|m mus Hm _ IH]; [done|].
  unfold Vec.mul, Vec.rtruediv in *. simpl. f_equal; [|exact IH].
  by field.
Qed.

Lemma mul_comm x y : Vec.mul x y = Vec.mul y x.
Proof.
  revert y. induction x as [|b x IH]; intros [|d y]; try done.
  unfold Vec.mul in *. pointwise IH.
Qed.

Lemma Anegs_sum_lincomb n eps x :
  Forall (λ p, length p.2 = n) eps →
  Anegs_sum n eps x
  = lincomb ((λ p, Vec.dot x p.2 * (- p.1)) <$> filter (λ p, p.1 < 0) eps)
      (snd <$> filter (λ p, p.1 < 0) eps) (Vec.zeros n).
Proof.
  intros Heps.
  rewrite <-(Anegs_ctx_mult_sum n eps x (Vec.zeros n))
    by (done || apply length_zeros).
  by rewrite Anegs_ctx_mult_pairs, set_zeros, length_zeros.
Qed.

(** The bilinear form of [Anegs]. *)
Lemma dot_Anegs_sum n eps x z :
  Forall (λ p, length p.2 = n) eps →
  Vec.dot (Anegs_sum n eps x) z
  = sumQ ((λ p, Vec.dot x p.2 * (- p.1) * Vec.dot p.2 z)
            <$> filter (λ p, p.1 < 0) eps).
Proof.
  intros Heps. rewrite Anegs_sum_lincomb by done.
  rewrite dot_lincomb_pairs;
    [|rewrite length_zeros; by apply Forall_filter].
  rewrite dot_zeros_l. ring.
Qed.

(** The bilinear form of [projVnegs]. *)
Lemma dot_projVnegs_sum n vs x z :
  Forall (λ v, length v = n) vs →
  Vec.dot (projVnegs_sum n vs x) z
  = sumQ ((λ v, Vec.dot x v * Vec.dot v z) <$> vs).
Proof.
  intros Hvs.
  rewrite <-(projVnegs_ctx_mult_sum n vs x (Vec.zeros n))
    by (done || apply length_zeros).
  rewrite projVnegs_ctx_mult_lincomb, dot_lincomb
    by (by rewrite length_set, length_zeros).
  rewrite set_zeros, dot_zeros_l, Qcplus_0_l.
  by rewrite zip_with_fmap_l, zip_with_diag.
Qed.

Lemma length_projVnegs_sum n vs x :
  Forall (λ v, length v = n) vs → length (projVnegs_sum n vs x) = n.
Proof.
  intros Hvs. unfold projVnegs_sum. apply length_sum, Forall_fmap.
  eapply Forall_impl; [exact Hvs|]. intros v Hv. simpl. by rewrite length_rmul.
Qed.

Lemma length_projVposs_sum n vs x :
  Forall (λ v, length v = n) vs → length x = n →
  length (projVposs_sum n vs x) = n.
Proof.
  intros Hvs Hx. unfold projVposs_sum.
  rewrite length_sub; [done|]. by rewrite length_projVnegs_sum.
Qed.

(** The complement is orthogonal to the family. *)
Lemma dot_projVposs_sum_orthogonal n vs x v :
  Forall (λ v, length v = n) vs → length x = n → orthonormal vs → v ∈ vs →
  Vec.dot (projVposs_sum n vs x) v = 0.
Proof.
  intros Hvs Hx Hon Hv. unfold projVposs_sum.
  rewrite dot_sub_l by (by rewrite length_projVnegs_sum).
  rewrite <-(projVnegs_ctx_mult_sum n vs x (Vec.zeros n))
    by (done || apply length_zeros).
  rewrite (dot_projVnegs_ctx_mult n); [ring|done|apply length_zeros|done|done].
Qed.

Lemma sumQ_fmap_ext {A} (F G : A → Qc) (l : list A) :
  (∀ e, e ∈ l → F e = G e) → sumQ (F <$> l) = sumQ (G <$> l).
Proof.
  intros H. f_equal. apply Forall_fmap_ext, Forall_forall. exact H.
Qed.

End local_operators.

(** ** Linearity of the assembled matrices *)

Section linearity.
Implicit Types (x y z v w : Vec.t) (a c : Qc) (vs : list Vec.t)
  (eps negs : PCNew.EPS) (A : AIJ.t).

Lemma AIJ_mult_axpy A c v y :
  length v = length y →
  AIJ.mult A (Vec.axpy c v y) = Vec.axpy c (AIJ.mult A v) (AIJ.mult A y).
Proof.
  intros Hl. induction A as [|row A IH]; [done|].
  unfold AIJ.mult, Vec.axpy in *. simpl. f_equal; [|exact IH].
  rewrite (dot_comm row), (dot_comm row y), (dot_comm row v).
  by apply dot_axpy.
Qed.

Lemma length_axpy_eq c v y :
  length v = length y → length (Vec.axpy c v y) = length v.
Proof. intros Hl. rewrite length_axpy; congruence. Qed.

Lemma AIJ_mult_lincomb A cs vs y0 :
  Forall (λ v, length v = length y0) vs →
  AIJ.mult A (lincomb cs vs y0)
  = lincomb cs (AIJ.mult A <$> vs) (AIJ.mult A y0).
Proof.
  unfold lincomb. revert cs y0.
  induction vs as [|v vs IH]; intros [|c cs] y0 Hvs; try done.
  apply Forall_cons in Hvs as [Hv Hvs]. simpl.
  rewrite IH by (by rewrite length_axpy).
  by rewrite AIJ_mult_axpy.
Qed.

Lemma AIJ_mult_sub A x p :
  length x = length p →
  AIJ.mult A (Vec.sub x p) = Vec.sub (AIJ.mult A x) (AIJ.mult A p).
Proof.
  intros Hl. induction A as [|row A IH]; [done|].
  unfold AIJ.mult, Vec.sub in *. simpl. f_equal; [|exact IH].
  rewrite (dot_comm row), (dot_comm row x), (dot_comm row p).
  by apply dot_sub_l.
Qed.

Lemma AIJ_mult_zeros A n : AIJ.mult A (Vec.zeros n) = Vec.zeros (length A).
Proof.
  induction A as [|row A IH]; [done|].
  unfold AIJ.mult, Vec.zeros in *. simpl. f_equal; [|exact IH].
  rewrite dot_comm. apply dot_zeros_l.
Qed.

Lemma axpy_rmul c d v y :
  Vec.axpy c (Vec.rmul d v) y = Vec.axpy (c * d) v y.
Proof.
  revert y. induction v as [|b v IH]; intros [|e y]; try done.
  unfold Vec.axpy, Vec.rmul in *. pointwise IH.
Qed.

Lemma lincomb_rmul_pairs (f g : Qc * Vec.t → Qc) negs y0 :
  lincomb (f <$> negs) ((λ p, Vec.rmul (g p) p.2) <$> negs) y0
  = lincomb ((λ p, f p * g p) <$> negs) (snd <$> negs) y0.
Proof.
  unfold lincomb. revert y0. induction negs as [|p negs IH]; intros y0; [done|].
  simpl. by rewrite axpy_rmul, IH.
Qed.

Lemma add_neg x m : Vec.add x (Vec.neg m) = Vec.sub x m.
Proof.
  revert m. induction x as [|b x IH]; intros [|d m]; try done.
  unfold Vec.add, Vec.neg, Vec.sub in *. pointwise IH.
Qed.

Lemma sub_zeros x : Vec.sub x (Vec.zeros (length x)) = x.
Proof.
  induction x as [|b x IH]; [done|].
  unfold Vec.sub, Vec.zeros in *. pointwise IH.
Qed.

Lemma projVnegs_sum_lincomb n vs x :
  Forall (λ v, length v = n) vs →
  projVnegs_sum n vs x = lincomb ((λ v, Vec.dot x v) <$> vs) vs (Vec.zeros n).
Proof.
  intros Hvs.
  rewrite <-(projVnegs_ctx_mult_sum n vs x (Vec.zeros n))
    by (done || apply length_zeros).
  by rewrite projVnegs_ctx_mult_lincomb, set_zeros, length_zeros.
Qed.

(** [Bs] on the projection onto genuine eigenvectors of negative
    eigenvalue is the opposite of [Anegs]. *)
Lemma Bs_projVnegs_sum n (Bs : AIJ.t) eps x :
  length Bs = n → Forall (λ p, length p.2 = n) eps →
  Forall (λ p, p.1 < 0 → AIJ.mult Bs p.2 = Vec.rmul p.1 p.2) eps →
  AIJ.mult Bs (projVnegs_sum n (snd <$> filter (λ p, p.1 < 0) eps) x)
  = Vec.neg (Anegs_sum n eps x).
Proof.
  intros HBs Heps Heig. set (negs := filter (λ p, p.1 < 0) eps).
  assert (Forall (λ p, length p.2 = n) negs) as Hnegs by by apply Forall_filter.
  rewrite projVnegs_sum_lincomb by (by apply Forall_fmap).
  rewrite AIJ_mult_lincomb by (rewrite length_zeros; by apply Forall_fmap).
  rewrite AIJ_mult_zeros, HBs, Anegs_sum_lincomb by done. fold negs.
  rewrite <-lincomb_neg, neg_zeros, <-!list_fmap_compose.
  assert ((AIJ.mult Bs ∘ snd) <$> negs = (λ p, Vec.rmul p.1 p.2) <$> negs) as ->.
  { apply Forall_fmap_ext, Forall_forall.
    intros p [Hp Hin]%list_elem_of_filter. simpl.
    rewrite Forall_forall in Heig. by apply Heig. }
  rewrite (lincomb_rmul_pairs (Vec.dot x ∘ snd) fst). f_equal.
  apply list_fmap_ext. intros i p _. simpl. ring.
Qed.

(** [Aposs] is [Bs] after the projection on the complement. *)
Lemma Aposs_Bs_projVposs n (Bs : AIJ.t) eps x :
  length Bs = n → Forall (λ p, length p.2 = n) eps → length x = n →
  Forall (λ p, p.1 < 0 → AIJ.mult Bs p.2 = Vec.rmul p.1 p.2) eps →
  Vec.add (AIJ.mult Bs x) (Anegs_sum n eps x)
  = AIJ.mult Bs (projVposs_sum n (snd <$> filter (λ p, p.1 < 0) eps) x).
Proof.
  intros HBs Heps Hx Heig. unfold projVposs_sum.
  rewrite AIJ_mult_sub; last first.
  { rewrite length_projVnegs_sum; [done|]. by apply Forall_fmap, Forall_filter. }
  rewrite (Bs_projVnegs_sum n) by done.
  rewrite <-add_neg. f_equal.
  unfold Vec.neg. rewrite <-list_fmap_compose.
  rewrite <-(list_fmap_id (Anegs_sum n eps x)) at 1.
  apply list_fmap_ext. intros i q _. simpl. ring.
Qed.

(** A symmetric [Bs] keeps the complement of its eigenvectors. *)
Lemma projVposs_Bs_orthogonal n (Bs : AIJ.t) negs z :
  length Bs = n → Forall (λ p, length p.2 = n) negs → length z = n →
  (∀ v w, length v = n → length w = n →
     Vec.dot (AIJ.mult Bs v) w = Vec.dot v (AIJ.mult Bs w)) →
  Forall (λ p, AIJ.mult Bs p.2 = Vec.rmul p.1 p.2) negs →
  Forall (λ p, Vec.dot z p.2 = 0) negs →
  projVposs_sum n (snd <$> negs) (AIJ.mult Bs z) = AIJ.mult Bs z.
Proof.
  intros HBs Hnegs Hz Hsym Heig Horth. unfold projVposs_sum.
  rewrite projVnegs_sum_lincomb by (by apply Forall_fmap).
  rewrite (lincomb_ext _ (λ _, 0)).
  - rewrite lincomb_zero by (rewrite length_zeros; by apply Forall_fmap).
    rewrite <-HBs, <-(length_AIJ_mult Bs z). apply sub_zeros.
  - intros v [p [-> Hp]]%list_elem_of_fmap.
    rewrite Forall_forall in Hnegs. rewrite Forall_forall in Heig.
    rewrite Forall_forall in Horth.
    rewrite Hsym by auto. rewrite (Heig p Hp), dot_rmul_r, (Horth p Hp). ring.
Qed.

Lemma projVposs_sum_idempotent n vs x :
  Forall (λ v, length v = n) vs → length x = n → orthonormal vs →
  projVposs_sum n vs (projVposs_sum n vs x) = projVposs_sum n vs x.
Proof.
  intros Hvs Hx Hon. unfold projVposs_sum.
  rewrite <-!(projVnegs_ctx_mult_sum n vs _ (Vec.zeros n))
    by (done || apply length_zeros).
  apply (sub_projVnegs_idempotent n); try done; apply length_zeros.
Qed.

Lemma mul_assoc x y z : Vec.mul (Vec.mul x y) z = Vec.mul x (Vec.mul y z).
Proof.
  revert y z. induction x as [|b x IH]; intros [|d y] [|e z]; try done.
  unfold Vec.mul in *. pointwise IH.
Qed.

Lemma mul_ones_r x : Vec.mul x (replicate (length x) 1) = x.
Proof.
  induction x as [|b x IH]; [done|].
  unfold Vec.mul in *. pointwise IH.
Qed.

Lemma imul_mul y x : Vec.imul y x = Vec.mul y x.
Proof. done. Qed.

Lemma length_filter_split {T} (P : T → Prop) `{∀ e, Decision (P e)} (l : list T) :
  (length (filter P l) + length (filter (λ e, ¬ P e) l) = length l)%nat.
Proof.
  induction l as [|e l IH]; [done|].
  rewrite !filter_cons. destruct (decide (P e)), (decide (¬ P e)); simpl; try done; lia.
Qed.

End linearity.

(** ** Orthonormal bases *)

Section orthonormal_basis.
Implicit Types (x y z v w q : Vec.t) (vs : list Vec.t).

Lemma dot_unit_vector_l n j v :
  length v = n → (j < n)%nat → Vec.dot (unit_vector n j) v = v !!! j.
Proof.
  unfold unit_vector, Vec.zeros. revert j v.
  induction n as [|n IH]; intros j [|b v] Hl Hj; try (simpl in *; lia).
  injection Hl as Hl. destruct j as [|j].
  - change (<[0%nat := 1]> (replicate (S n) 0)) with (1 :: replicate n 0).
    rewrite dot_cons. change (replicate n 0) with (Vec.zeros n).
    rewrite dot_zeros_l. change ((b :: v) !!! 0%nat) with b. ring.
  - change (<[S j := 1]> (replicate (S n) 0))
      with (0 :: <[j := 1]> (replicate n 0)).
    rewrite dot_cons, IH by (done || lia).
    change ((b :: v) !!! S j) with (v !!! j). ring.
Qed.

Lemma length_unit_vector n j : length (unit_vector n j) = n.
Proof. unfold unit_vector. by rewrite length_insert, length_zeros. Qed.

Lemma dot_unit_vector_self n j :
  (j < n)%nat → Vec.dot (unit_vector n j) (unit_vector n j) = 1.
Proof.
  intros Hj. rewrite dot_unit_vector_l by (done || apply length_unit_vector).
  unfold unit_vector. apply list_lookup_total_insert_eq.
  by rewrite length_zeros.
Qed.

Lemma dot_seq x y n :
  length x = n → length y = n →
  Vec.dot x y = sumQ ((λ j, x !!! j * y !!! j) <$> seq 0 n).
Proof.
  revert y n. induction x as [|b x IH]; intros [|d y] [|n] Hx Hy; try done.
  injection Hx as Hx. injection Hy as Hy.
  change (seq 0 (S n)) with (0%nat :: seq 1 n).
  rewrite fmap_cons, dot_cons, sumQ_cons, (IH y n) by done.
  by rewrite <-fmap_S_seq, <-list_fmap_compose.
Qed.

Lemma sumQ_swap {A B} (F : A → B → Qc) (la : list A) (lb : list B) :
  sumQ ((λ e, sumQ ((λ b, F e b) <$> lb)) <$> la)
  = sumQ ((λ b, sumQ ((λ e, F e b) <$> la)) <$> lb).
Proof.
  induction la as [|e la IH].
  - simpl. symmetry. apply sumQ_fmap_zero; by apply Forall_true.
  - rewrite fmap_cons, sumQ_cons, IH, sumQ_fmap_plus.
    by f_equal.
Qed.

Lemma sumQ_fmap_const {A} (l : list A) (c : Qc) :
  sumQ ((λ _, c) <$> l) = Qc_of_nat (length l) * c.
Proof.
  induction l as [|e l IH].
  - simpl. rewrite Qc_of_nat_0. ring.
  - rewrite fmap_cons, sumQ_cons, IH. simpl length. rewrite Qc_of_nat_S. ring.
Qed.

Lemma Qc_nonneg_sum_zero (a s : Qc) : 0 ≤ a → 0 ≤ s → a + s = 0 → a = 0 ∧ s = 0.
Proof.
  intros Ha Hs Hsum.
  assert (a ≤ 0) as Ha'.
  { replace a with (- s) by (rewrite <-(Qcplus_0_r (- s)), <-Hsum; ring).
    apply Qcopp_le_compat in Hs. by replace (- 0) with 0 in Hs by ring. }
  assert (a = 0) as -> by by apply Qcle_antisym.
  split; [done|]. rewrite <-Hsum. ring.
Qed.

Lemma sumQ_nonneg_zero (l : list Qc) :
  Forall (λ t, 0 ≤ t) l → sumQ l = 0 → Forall (λ t, t = 0) l.
Proof.
  induction 1 as [|a l Ha Hl IH]; intros Hsum; [done|].
  rewrite sumQ_cons in Hsum.
  destruct (Qc_nonneg_sum_zero a (sumQ l)) as [-> Hs];
    [done|by apply sumQ_nonneg|done|].
  constructor; [done|by apply IH].
Qed.

(** A vector of norm zero is zero. *)
Lemma dot_self_zero q : Vec.dot q q = 0 → q = Vec.zeros (length q).
Proof.
  induction q as [|b q IH]; intros Hq; [done|].
  rewrite dot_cons in Hq.
  destruct (Qc_nonneg_sum_zero (b * b) (Vec.dot q q)) as [Hb Hq'];
    [apply Qc_square_nonneg|apply dot_self_nonneg|done|].
  apply Qcmult_integral in Hb.
  assert (b = 0) as -> by by destruct Hb.
  simpl. unfold Vec.zeros in *. simpl. f_equal. by apply IH.
Qed.

(** The norm of what the projection onto an orthonormal family leaves. *)
Lemma residual_norm n vs x :
  Forall (λ v, length v = n) vs → length x = n → orthonormal vs →
  let q := projVposs_sum n vs x in
  Vec.dot q q
  = Vec.dot x x - sumQ ((λ v, Vec.dot x v * Vec.dot x v) <$> vs).
Proof.
  intros Hvs Hx Hon q.
  assert (length (projVnegs_sum n vs x) = n) as Hlp
    by by apply length_projVnegs_sum.
  assert (∀ v, v ∈ vs → Vec.dot q v = 0) as Horth.
  { intros v Hv. by apply dot_projVposs_sum_orthogonal. }
  assert (Vec.dot (projVnegs_sum n vs x) q = 0) as Hpq.
  { rewrite dot_projVnegs_sum by done.
    apply sumQ_fmap_zero, Forall_forall. intros v Hv.
    rewrite (dot_comm v q), (Horth v Hv). ring. }
  unfold q at 1. unfold projVposs_sum.
  rewrite dot_sub_l by congruence. fold (projVposs_sum n vs x). fold q.
  rewrite Hpq, (dot_comm x q). unfold q, projVposs_sum.
  rewrite dot_sub_l by congruence.
  rewrite dot_projVnegs_sum by done.
  assert (sumQ ((λ v, Vec.dot x v * Vec.dot v x) <$> vs)
          = sumQ ((λ v, Vec.dot x v * Vec.dot x v) <$> vs)) as ->.
  { f_equal. apply list_fmap_ext. intros i v _. simpl.
    by rewrite (dot_comm v x). }
  ring.
Qed.

(** An orthonormal family of [n] vectors of size [n] leaves nothing of
    the vectors [e_j]. *)
Lemma orthonormal_basis_unit n vs j :
  Forall (λ v, length v = n) vs → length vs = n → orthonormal vs →
  (j < n)%nat → projVposs_sum n vs (unit_vector n j) = Vec.zeros n.
Proof.
  intros Hvs Hn Hon Hj.
  set (t := λ j, Vec.dot (projVposs_sum n vs (unit_vector n j))
                   (projVposs_sum n vs (unit_vector n j))).
  assert (∀ i, (i < n)%nat →
            t i = 1 - sumQ ((λ v, (v !!! i) * (v !!! i)) <$> vs)) as Ht.
  { intros i Hi. unfold t.
    rewrite (residual_norm n) by (done || apply length_unit_vector).
    rewrite dot_unit_vector_self by done. f_equal. f_equal.
    apply Forall_fmap_ext, Forall_forall. intros v Hv. simpl.
    rewrite Forall_forall in Hvs. by rewrite dot_unit_vector_l by auto. }
  assert (∀ v, v ∈ vs → Vec.dot v v = 1) as Hnorm.
  { clear -Hon. induction Hon as [|v vs Hv _ _ IH]; intros w Hw.
    - by apply elem_of_nil in Hw.
    - apply elem_of_cons in Hw as [->|Hw]; [done|by apply IH]. }
  assert (sumQ (t <$> seq 0 n) = 0) as Hsum.
  { rewrite (list_fmap_ext t
               (λ i, 1 + - sumQ ((λ v, (v !!! i) * (v !!! i)) <$> vs))
               (seq 0 n)); last first.
    { intros k i Hk. apply lookup_seq in Hk as [-> Hk].
      rewrite Ht by lia. ring. }
    rewrite <-sumQ_fmap_plus, sumQ_fmap_const, length_seq.
    assert (sumQ ((λ i, - sumQ ((λ v, (v !!! i) * (v !!! i)) <$> vs))
                    <$> seq 0 n)
            = - sumQ ((λ i, sumQ ((λ v, (v !!! i) * (v !!! i)) <$> vs))
                        <$> seq 0 n)) as ->.
    { generalize (seq 0 n). intros l. induction l as [|i l IH]; [simpl; ring|].
      rewrite !fmap_cons, !sumQ_cons, IH. ring. }
    rewrite (sumQ_swap (λ i v, (v !!! i) * (v !!! i))).
    rewrite (list_fmap_ext _ (λ _, 1) vs); last first.
    { intros k v Hk. simpl.
      assert (v ∈ vs) as Hv by by eapply list_elem_of_lookup_2.
      rewrite Forall_forall in Hvs.
      rewrite <-(dot_seq v v n) by auto. by apply Hnorm. }
    rewrite sumQ_fmap_const, Hn. ring. }
  assert (t j = 0) as Htj.
  { apply sumQ_nonneg_zero in Hsum.
    - rewrite Forall_fmap, Forall_forall in Hsum. apply Hsum.
      apply elem_of_seq. lia.
    - apply Forall_fmap, Forall_forall. intros i _. apply dot_self_nonneg. }
  unfold t in Htj. apply dot_self_zero in Htj.
  by rewrite length_projVposs_sum in Htj by (done || apply length_unit_vector).
Qed.

(** An orthonormal family of [n] vectors of size [n] is complete:
    [x = Σ_i (x·v_i) v_i]. *)
Lemma orthonormal_basis_complete n vs x :
  Forall (λ v, length v = n) vs → length vs = n → orthonormal vs →
  length x = n → projVnegs_sum n vs x = x.
Proof.
  intros Hvs Hn Hon Hx.
  set (r := projVposs_sum n vs x).
  assert (length r = n) as Hlr by by apply length_projVposs_sum.
  assert (length (projVnegs_sum n vs x) = n) as Hlp
    by by apply length_projVnegs_sum.
  assert (∀ v, v ∈ vs → Vec.dot v r = 0) as Horth.
  { intros v Hv. rewrite dot_comm. by apply dot_projVposs_sum_orthogonal. }
  assert (r = Vec.zeros n) as Hr.
  { apply list_eq. intros j. unfold Vec.zeros.
    destruct (decide (j < n)%nat) as [Hj|Hj].
    - rewrite lookup_replicate_2 by done.
      destruct (lookup_lt_is_Some_2 r j) as [a Ha]; [lia|].
      rewrite Ha. f_equal.
      rewrite <-(list_lookup_total_correct _ _ _ Ha).
      rewrite <-(dot_unit_vector_l n j r) by done.
      rewrite <-(add_sub_cancel (projVnegs_sum n vs (unit_vector n j))
                  (unit_vector n j)) at 1;
        last by rewrite length_projVnegs_sum, length_unit_vector.
      fold (projVposs_sum n vs (unit_vector n j)).
      rewrite orthonormal_basis_unit by done.
      rewrite dot_add_l by (by rewrite length_projVnegs_sum, length_zeros).
      rewrite dot_zeros_l, dot_projVnegs_sum by done.
      rewrite sumQ_fmap_zero; [ring|].
      apply Forall_forall. intros v Hv. rewrite (Horth v Hv). ring.
    - rewrite !lookup_ge_None_2; [done| |lia].
      rewrite length_replicate. lia. }
  rewrite <-(add_sub_cancel (projVnegs_sum n vs x) x) at 2 by congruence.
  fold (projVposs_sum n vs x). fold r. rewrite Hr.
  replace (Vec.zeros n) with (Vec.zeros (length (projVnegs_sum n vs x)))
    by (by rewrite Hlp).
  by rewrite add_zeros_r.
Qed.

End orthonormal_basis.

Section full_spectrum.
Implicit Types (x y z v w : Vec.t) (eps negs : PCNew.EPS).

Lemma sumQ_fmap_filter {A} (P : A → Prop) `{∀ e, Decision (P e)}
    (g h : A → Qc) (l : list A) :
  sumQ (g <$> l) + sumQ (h <$> filter P l)
  = sumQ ((λ e, g e + (if decide (P e) then h e else 0)) <$> l).
Proof.
  induction l as [|e l IH]; [simpl; ring|].
  rewrite filter_cons, !fmap_cons, !sumQ_cons, <-IH.
  destruct (decide (P e)); [rewrite fmap_cons, sumQ_cons|]; ring.
Qed.

(** With the whole spectrum of [Bs] at hand, the energy of
    [Aposs = Bs + Anegs] is the sum over the eigenvalues that are not
    negative. *)
Lemma Aposs_nonneg_full_spectrum n (Bs : AIJ.t) eps x :
  length Bs = n → Forall (λ p, length p.2 = n) eps → length x = n →
  length eps = n →
  Forall (λ p, AIJ.mult Bs p.2 = Vec.rmul p.1 p.2) eps →
  orthonormal (snd <$> eps) →
  0 ≤ Vec.dot (Vec.add (AIJ.mult Bs x) (Anegs_sum n eps x)) x.
Proof.
  intros HBs Heps Hx Hn Heig Hon.
  assert (Forall (λ v, length v = n) (snd <$> eps)) as Hvs by by apply Forall_fmap.
  assert (AIJ.mult Bs x
          = lincomb ((λ p, Vec.dot x p.2 * p.1) <$> eps) (snd <$> eps)
              (Vec.zeros n)) as HBx.
  { rewrite <-(orthonormal_basis_complete n (snd <$> eps) x) at 1
      by (done || by rewrite length_fmap).
    rewrite projVnegs_sum_lincomb by done.
    rewrite AIJ_mult_lincomb by (by rewrite length_zeros).
    rewrite AIJ_mult_zeros, HBs, <-!list_fmap_compose.
    assert ((AIJ.mult Bs ∘ snd) <$> eps = (λ p, Vec.rmul p.1 p.2) <$> eps) as ->.
    { apply Forall_fmap_ext. exact Heig. }
    by rewrite (lincomb_rmul_pairs (Vec.dot x ∘ snd) fst). }
  rewrite dot_add_l by (by rewrite length_AIJ_mult, length_Anegs_sum, HBs).
  rewrite HBx, dot_lincomb_pairs by (by rewrite length_zeros).
  rewrite dot_zeros_l, Qcplus_0_l, dot_Anegs_sum by done.
  rewrite (sumQ_fmap_filter (λ p, p.1 < 0)).
  apply sumQ_nonneg, Forall_fmap, Forall_forall. intros p _. simpl.
  rewrite (dot_comm p.2 x).
  destruct (decide (p.1 < 0)) as [Hneg|Hpos].
  - replace (Vec.dot x p.2 * p.1 * Vec.dot x p.2
             + Vec.dot x p.2 * - p.1 * Vec.dot x p.2) with 0 by ring.
    apply Qcle_refl.
  - replace (Vec.dot x p.2 * p.1 * Vec.dot x p.2 + 0)
      with (p.1 * (Vec.dot x p.2 * Vec.dot x p.2)) by ring.
    apply Qc_mult_nonneg; [by apply Qcnot_lt_le|apply Qc_square_nonneg].
Qed.

End full_spectrum.

(** ** The statements on the example data *)

(** Decides a closed statement by evaluation. *)
Ltac by_evaluation := apply (bool_decide_unpack _); vm_compute; exact I.

(** A diagonal matrix of size 2 is symmetric. *)
Lemma ex_Bs_symmetric (c1 c2 : Qc) (v w : Vec.t) :
  length v = 2%nat → length w = 2%nat →
  Vec.dot (AIJ.mult [[c1; 0]; [0; c2]] v) w
  = Vec.dot v (AIJ.mult [[c1; 0]; [0; c2]] w).
Proof.
  destruct v as [|a [|b [|]]]; try done.
  destruct w as [|c [|d [|]]]; try done.
  intros _ _. unfold AIJ.mult, Vec.dot. simpl. ring.
Qed.

(** * Properties of the preconditioners *)

(** C1, as amended.  In [PCBNN.__init__]: the vector [vlocal] computed by
    lines 86-90 holds, at each local degree of freedom of a rank, the
    number of subdomains that own it (the multiplicity); when
    [PCBNN_kscaling] is false the local non-assembled matrix [Ms] is
    scaled on each side by the multiplicity itself, entry [(i, j)]
    becoming [m_i · Ms_ij · m_j] (not by its reciprocal); when
    [PCBNN_kscaling] is true, which is the default, [Ms] is scaled on
    each side by the ratio of the diagonal of the assembled [As] to the
    diagonal of [Ms], entry [(i, j)] becoming
    [(As_ii / Ms_ii) · Ms_ij · (As_jj / Ms_jj)] where the diagonal entries
    [Ms_ii] and [Ms_jj] are not zero. *)
Theorem PCBNN_scaling iss nglobal rank is_A (As Ms : AIJ.t) n i j :
  Forall NoDup iss → Forall (Forall (λ gi, gi < nglobal)%nat) iss →
  iss !! rank = Some is_A → length is_A = n →
  length Ms = n → Forall (λ row, length row = n) Ms →
  length As = n → Forall (λ row, length row = n) As →
  (i < n)%nat → (j < n)%nat →
  let vlocal := (PCBNN.multiplicity iss nglobal).1 !!! rank in
  (∀ k gk, is_A !! k = Some gk → vlocal !! k = Some (Qc_of_nat (owners iss gk)))
  ∧ AIJ.entry (PCBNN.scale_Ms false vlocal As Ms) i j
    = (vlocal !!! i) * AIJ.entry Ms i j * (vlocal !!! j)
  ∧ (AIJ.entry Ms i i ≠ 0 → AIJ.entry Ms j j ≠ 0 →
     AIJ.entry (PCBNN.scale_Ms true vlocal As Ms) i j
     = (AIJ.entry As i i / AIJ.entry Ms i i) * AIJ.entry Ms i j
       * (AIJ.entry As j j / AIJ.entry Ms j j))
  ∧ PCBNN.PCBNN_kscaling PCBNN.default_options = true.
Proof.
  intros Hnd Hrange His Hlen HMs HMsr HAs HAsr Hi Hj vlocal.
  assert (∀ k gk, is_A !! k = Some gk →
            vlocal !! k = Some (Qc_of_nat (owners iss gk))) as Hm.
  { intros k gk Hk. by apply (multiplicity_owners iss nglobal rank is_A). }
  assert (length vlocal = n) as Hlv.
  { unfold vlocal, PCBNN.multiplicity. simpl.
    erewrite list_lookup_total_correct; last first.
    { by rewrite list_lookup_fmap, His. }
    unfold Scatter.reverse_insert. by rewrite length_fmap. }
  split_and!; [done| | |done].
  - unfold PCBNN.scale_Ms. simpl. by apply (entry_diagonalScale _ _ _ n).
  - intros _ _. unfold PCBNN.scale_Ms. simpl.
    assert (length (AIJ.getDiagonal As) = n) as H1
      by (unfold AIJ.getDiagonal; by rewrite length_imap).
    assert (length (AIJ.getDiagonal Ms) = n) as H2
      by (unfold AIJ.getDiagonal; by rewrite length_imap).
    rewrite (entry_diagonalScale _ _ _ n); try done.
    + rewrite !(truediv_lookup _ _ n), !(getDiagonal_lookup _ n) by done. done.
    + unfold Vec.truediv. rewrite length_zip_with; lia.
    + unfold Vec.truediv. rewrite length_zip_with; lia.
Qed.

(** C1 on the subdomain [0] of the example, at its shared degree of
    freedom. *)
Lemma PCBNN_scaling_witness :
  let vlocal := (PCBNN.multiplicity ex_iss 3).1 !!! 0%nat in
  let As := [[qc 2; 0]; [0; qc 4]] in
  let Ms := [[qc 2; 0]; [0; qc 2]] in
  (∀ k gk, [0; 1]%nat !! k = Some gk →
     vlocal !! k = Some (Qc_of_nat (owners ex_iss gk)))
  ∧ AIJ.entry (PCBNN.scale_Ms false vlocal As Ms) 1 1
    = (vlocal !!! 1%nat) * AIJ.entry Ms 1 1 * (vlocal !!! 1%nat)
  ∧ (AIJ.entry Ms 1 1 ≠ 0 → AIJ.entry Ms 1 1 ≠ 0 →
     AIJ.entry (PCBNN.scale_Ms true vlocal As Ms) 1 1
     = (AIJ.entry As 1 1 / AIJ.entry Ms 1 1) * AIJ.entry Ms 1 1
       * (AIJ.entry As 1 1 / AIJ.entry Ms 1 1))
  ∧ PCBNN.PCBNN_kscaling PCBNN.default_options = true.
Proof.
  apply (PCBNN_scaling ex_iss 3 0 [0; 1]%nat _ _ 2 1 1);
    try done; try lia; by_evaluation.
Defined.

(** C1, the claim as stated fails: on the subdomain [0] of the example,
    whose second degree of freedom has multiplicity 2, multiplicity
    scaling turns the diagonal entry 2 of [Ms] into 8, where a scaling by
    [1/multiplicity] on each side would give 1/2. *)
Lemma PCBNN_scaling_counterexample :
  let vlocal := (PCBNN.multiplicity ex_iss 3).1 !!! 0%nat in
  let As := [[qc 2; 0]; [0; qc 4]] in
  let Ms := [[qc 2; 0]; [0; qc 2]] in
  vlocal = [1; qc 2]
  ∧ PCBNN.scale_Ms false vlocal As Ms = [[qc 2; 0]; [0; qc 8]]
  ∧ AIJ.diagonalScale Ms (Vec.rtruediv 1 vlocal) (Vec.rtruediv 1 vlocal)
    = [[qc 2; 0]; [0; Q2Qc (1 # 2)]]
  ∧ PCBNN.scale_Ms false vlocal As Ms
    ≠ AIJ.diagonalScale Ms (Vec.rtruediv 1 vlocal) (Vec.rtruediv 1 vlocal).
Proof. split_and!; by_evaluation. Qed.

(** C2, as amended.  [PCNew.MP_mult(x, y)] is not implemented: every
    rank prints [not implemented], and the call returns with every
    vector, the vectors of [y] among them, and every work vector as it
    was. *)
Theorem PCNew_MP_mult_not_implemented (self : PCNew.t) x (y : list loc) w :
  ∃ w', PCNew.MP_mult self x y w = Some (tt, w')
  ∧ vecs w' = vecs w ∧ works_1 w' = works_1 w ∧ works_2 w' = works_2 w
  ∧ out w' = out w ++ ((λ rank, (rank, "not implemented"))
                         <$> seq 0 (length (PCNew.scatter_l2g self))).
Proof.
  eexists. split; [apply for_print|]. done.
Qed.

(** C2, the claim as stated fails: on the example, the statements of
    [PCBNN.MP_mult] run on the attributes of the [PCNew] object leave
    [(0, 1, 0)] in the output vector [y[0]], the spread of the local
    solve of subdomain [0], while [PCNew.MP_mult] leaves it as it was. *)
Lemma PCNew_MP_mult_counterexample :
  let pc := (ex_PCNew PCNew.default_options).1.1 in
  let w := ex_world (ex_PCNew PCNew.default_options).1.2 in
  let y := [2; 3]%positive in
  let w := with_vecs <[3%positive := [qc 5; qc 5; qc 5]]> w in
  ((λ r, vecs r.2 !! 2%positive) <$> PCNew.MP_mult pc 1 y w)
  = Some (Some [qc 5; qc 5; qc 5])
  ∧ ((λ r, vecs r.2 !! 2%positive)
       <$> dd_MP_mult (PCNew.proj pc) (PCNew.scatter_l2g pc)
             (PCNew.ksp_Atildes <$> PCNew.locals pc) 1 y w)
    = Some (Some [0; 1; 0]).
Proof. split; by_evaluation. Qed.

(** C3.  [PCBNN.mult(x, y)], called on two different vectors, leaves in
    [y] what the six steps give on the entries of [x]: (1) with coarse
    projection enabled the input is replaced by its [project_transpose];
    (2) it is moved to the local vectors by the reverse scatter in insert
    mode; (3) every rank solves with its local solver; (4) the local
    results are added into the zeroed [y] by the forward scatter in add
    mode; (5) with coarse projection enabled [project] is applied to [y];
    (6) with the additive coarse solve enabled [coarse_init] of the
    original input is added to [y].  The call raises exactly when a
    local solve does, and [PCBNN.apply] is [PCBNN.mult]. *)
Theorem PCBNN_mult_six_steps (self : PCBNN.t) x y w xv yv :
  x ≠ y → vecs w !! x = Some xv → vecs w !! y = Some yv →
  let result :=
    six_steps (PCBNN.projCS self) (PCBNN.addCS self) (PCBNN.proj self)
      (PCBNN.scatter_l2g self) (PCBNN.ksp_Atildes self) (works_2 w) xv yv in
  (∀ yr, result = Some yr →
     ∃ w', PCBNN.mult self x y w = Some (tt, w') ∧ vecs w' !! y = Some yr)
  ∧ (result = None → PCBNN.mult self x y w = None)
  ∧ (∀ P (pc : P), PCBNN.apply self pc x y w = PCBNN.mult self x y w).
Proof.
  intros Hxy Hx Hy result.
  pose proof (dd_mult_run (PCBNN.projCS self) (PCBNN.addCS self)
                (PCBNN.proj self) (PCBNN.scatter_l2g self)
                (PCBNN.ksp_Atildes self) x y w xv yv Hxy Hx Hy) as Hrun.
  fold result in Hrun. rewrite PCBNN_mult_body. split_and!.
  - intros yr Hr. rewrite Hr in Hrun. destruct Hrun as (w' & Hw' & Hyr & _).
    by exists w'.
  - intros Hr. by rewrite Hr in Hrun.
  - done.
Qed.

(** C3 on the example: the call leaves [(2, 2, 2)] in [y], which here is
    the solution of [A y = x]. *)
Lemma PCBNN_mult_six_steps_witness :
  let self := ex_PCBNN.1.1 in
  let w := ex_world ex_PCBNN.1.2 in
  let result :=
    six_steps (PCBNN.projCS self) (PCBNN.addCS self) (PCBNN.proj self)
      (PCBNN.scatter_l2g self) (PCBNN.ksp_Atildes self) (works_2 w)
      [qc 4; qc 8; qc 4] [qc 5; qc 5; qc 5] in
  result = Some [qc 2; qc 2; qc 2]
  ∧ (∀ yr, result = Some yr →
       ∃ w', PCBNN.mult self 1 2 w = Some (tt, w')
         ∧ vecs w' !! 2%positive = Some yr)
  ∧ (result = None → PCBNN.mult self 1 2 w = None)
  ∧ (∀ P (pc : P), PCBNN.apply self pc 1 2 w = PCBNN.mult self 1 2 w).
Proof.
  split; [by_evaluation|].
  apply (PCBNN_mult_six_steps ex_PCBNN.1.1 1 2 (ex_world ex_PCBNN.1.2));
    by_evaluation.
Defined.

(** C4.  For the operators [PCNew.__init__] builds from a square matrix
    [Bs] of size [n] and the eigenpairs [eps] the eigensolver returned:
    [Aposs.mult(x) = Bs.mult(x) + Anegs.mult(x)] for every local vector
    [x]; hence [⟨Bs x, x⟩ = ⟨Aposs x, x⟩ − ⟨Anegs x, x⟩]; and
    [⟨Anegs x, x⟩ ≥ 0].  The eigensolver is of type LAPACK and returns
    the whole spectrum of [Bs], whatever [PCNew_Bs_nev]: when the pairs
    it returned are genuine orthonormal eigenpairs of [Bs],
    [⟨Aposs x, x⟩ ≥ 0]. *)
Theorem Aposs_sign_split
    sv opts rank is_A work mult_max As Bs eps n x y :
  length Bs = n → Forall (λ p, length p.2 = n) eps →
  length x = n → length y = n →
  let L := (PCNew.init_local sv opts rank is_A work mult_max As Bs eps).1 in
  let Anegs_x := Anegs_sum n eps x in
  let Aposs_x := Vec.add (AIJ.mult Bs x) Anegs_x in
  Mat_mult (MatAIJ Bs) x y = Some (AIJ.mult Bs x)
  ∧ Mat_mult (PCNew.Anegs L) x y = Some Anegs_x
  ∧ Mat_mult (PCNew.Aposs L) x y = Some Aposs_x
  ∧ Vec.dot (AIJ.mult Bs x) x = Vec.dot Aposs_x x - Vec.dot Anegs_x x
  ∧ 0 ≤ Vec.dot Anegs_x x
  ∧ (EPS_LAPACK_solved Bs eps →
     Forall (λ p, AIJ.mult Bs p.2 = Vec.rmul p.1 p.2) eps →
     orthonormal (snd <$> eps) →
     0 ≤ Vec.dot Aposs_x x).
Proof.
  intros HBs Heps Hx Hy L Anegs_x Aposs_x.
  destruct (init_local_objects sv opts rank is_A work mult_max As Bs eps)
    as (_ & _ & HAp & _).
  fold L in HAp.
  set (negs := filter (λ p, p.1 < 0) eps).
  assert (Forall (λ p, length p.2 = n) negs) as Hnegs by by apply Forall_filter.
  assert (Anegs_x
          = lincomb ((λ p, Vec.dot x p.2 * (- p.1)) <$> negs) (snd <$> negs)
              (Vec.zeros n)) as HAn.
  { unfold Anegs_x. rewrite <-(Anegs_ctx_mult_sum n eps x (Vec.zeros n))
      by (done || apply length_zeros).
    fold negs. by rewrite Anegs_ctx_mult_pairs, set_zeros, length_zeros. }
  assert (length Anegs_x = n) as HlAn by by apply length_Anegs_sum.
  split_and!.
  - done.
  - by apply init_local_Anegs_mult.
  - rewrite HAp. simpl. unfold Aposs_ctx_mult.
    unfold L. rewrite (init_local_Anegs_mult _ _ _ _ _ _ _ _ _ n)
      by (by rewrite ?length_duplicate).
    simpl. by rewrite iadd_add.
  - unfold Aposs_x. rewrite dot_add_l by (by rewrite length_AIJ_mult, HBs). ring.
  - rewrite HAn. apply Anegs_energy_nonneg; [done|].
    apply Forall_forall. by intros p [Hp _]%list_elem_of_filter.
  - intros Hfull Heig Hon. unfold Aposs_x, Anegs_x.
    apply Aposs_nonneg_full_spectrum; try done.
    unfold EPS_LAPACK_solved in Hfull. congruence.
Qed.

(** C4 on the example, with one eigenpair requested: the eigensolver
    returns the two eigenpairs of [ex_Bs]. *)
Lemma Aposs_sign_split_witness :
  let L := (PCNew.init_local ex_services ex_nev1_options 0 [0; 1]%nat
              [1; qc 2; 1] (qc 2) ex_Bs ex_Bs ex_eps).1 in
  let x := [qc 3; qc 4] in
  let Anegs_x := Anegs_sum 2 ex_eps x in
  let Aposs_x := Vec.add (AIJ.mult ex_Bs x) Anegs_x in
  Mat_mult (PCNew.Anegs L) x [0; 0] = Some Anegs_x
  ∧ Mat_mult (PCNew.Aposs L) x [0; 0] = Some Aposs_x
  ∧ Vec.dot (AIJ.mult ex_Bs x) x = Vec.dot Aposs_x x - Vec.dot Anegs_x x
  ∧ 0 ≤ Vec.dot Anegs_x x
  ∧ 0 ≤ Vec.dot Aposs_x x.
Proof.
  destruct (Aposs_sign_split ex_services ex_nev1_options 0 [0; 1]%nat
              [1; qc 2; 1] (qc 2) ex_Bs ex_Bs ex_eps 2 [qc 3; qc 4] [0; 0])
    as (_ & HAn & HAp & Hsplit & Hneg & Hpos); [by_evaluation..|].
  split_and!; [exact HAn|exact HAp|exact Hsplit|exact Hneg|]. apply Hpos.
  - reflexivity.
  - by_evaluation.
  - repeat constructor; try by_evaluation.
Defined.

(** The operators on [diag(−1, −2)] with one eigenpair requested: the
    eigensolver returns the two eigenpairs, both enter [Vnegs], the rank
    reports two negative eigenvalues, and [Aposs] is the zero
    operator. *)
Lemma Aposs_sign_split_negative_definite :
  let Bs := [[qc (-1); 0]; [0; qc (-2)]] in
  let eps := [(qc (-2), [0; 1]); (qc (-1), [1; 0])] in
  let built := PCNew.init_local ex_services ex_nev1_options 0 [0; 1]%nat
                 [1; qc 2; 1] (qc 2) Bs Bs eps in
  EPS_LAPACK_solved Bs eps
  ∧ PCNew.Vnegs (PCNew.diag built.1) = [[0; 1]; [1; 0]]
  ∧ (0%nat, PCNew.msg_negative 0 2 2 1) ∈ built.2
  ∧ Mat_mult (PCNew.Aposs built.1) [1; 0] [0; 0] = Some [0; 0]
  ∧ Mat_mult (PCNew.Aposs built.1) [qc 3; qc 4] [0; 0] = Some [0; 0].
Proof. split_and!; first [reflexivity | by_evaluation]. Qed.

(** C5.  The operator [Anegs] that [PCNew.__init__] builds from the
    converged eigenpairs [eps] of [Bs] sends every local vector [x] to
    the sum of [(x·v)·(−λ)·v] over the pairs [(λ, v)] of [eps] with
    [λ < 0], in their order, and over no other pair: [Vnegs] holds exactly
    the eigenvectors of those pairs and [Dnegs] the opposites [−λ > 0]
    of their eigenvalues. *)
Theorem Anegs_mult_negative_eigenpairs
    sv opts rank is_A work mult_max As Bs eps n x y :
  Forall (λ p, length p.2 = n) eps → length x = n → length y = n →
  let L := (PCNew.init_local sv opts rank is_A work mult_max As Bs eps).1 in
  PCNew.Vnegs (PCNew.diag L) = snd <$> filter (λ p, p.1 < 0) eps
  ∧ PCNew.Dnegs (PCNew.diag L) = (λ p, - p.1) <$> filter (λ p, p.1 < 0) eps
  ∧ Forall (λ d, 0 < d) (PCNew.Dnegs (PCNew.diag L))
  ∧ Mat_mult (PCNew.Anegs L) x y = Some (Anegs_sum n eps x).
Proof.
  intros Heps Hx Hy L.
  destruct (init_local_objects sv opts rank is_A work mult_max As Bs eps)
    as (Hd & _).
  fold L in Hd. rewrite Hd, diagonalize_filter. simpl.
  assert ((λ p : Qc * Vec.t, -1 * p.1) <$> filter (λ p, p.1 < 0) eps
          = (λ p, - p.1) <$> filter (λ p, p.1 < 0) eps) as ->.
  { apply list_fmap_ext. intros i p _. simpl. ring. }
  split_and!; [done|done| |by apply init_local_Anegs_mult].
  apply Forall_fmap, Forall_forall. intros p [Hp _]%list_elem_of_filter. simpl.
  apply Qclt_minus_iff in Hp. by replace (0 + - p.1) with (- p.1) in Hp by ring.
Qed.

(** C5 on the example. *)
Lemma Anegs_mult_negative_eigenpairs_witness :
  let L := (PCNew.init_local ex_services PCNew.default_options 0 [0; 1]%nat
              [1; qc 2; 1] (qc 2) ex_Bs ex_Bs ex_eps).1 in
  PCNew.Vnegs (PCNew.diag L) = snd <$> filter (λ p, p.1 < 0) ex_eps
  ∧ PCNew.Dnegs (PCNew.diag L) = (λ p, - p.1) <$> filter (λ p, p.1 < 0) ex_eps
  ∧ Forall (λ d, 0 < d) (PCNew.Dnegs (PCNew.diag L))
  ∧ Mat_mult (PCNew.Anegs L) [qc 3; qc 4] [0; 0]
    = Some (Anegs_sum 2 ex_eps [qc 3; qc 4]).
Proof.
  apply (Anegs_mult_negative_eigenpairs ex_services PCNew.default_options 0
           [0; 1]%nat [1; qc 2; 1] (qc 2) ex_Bs ex_Bs ex_eps 2);
    by_evaluation.
Defined.

(** C6.  For an orthonormal family [Vnegs] of vectors of size [n],
    [projVnegs_ctx.mult] computes [Σ_i (x·v_i) v_i], [projVposs_ctx.mult]
    computes [x − Σ_i (x·v_i) v_i], and each is idempotent. *)
Theorem projVnegs_projVposs_idempotent n Vnegs x y y' :
  Forall (λ v, length v = n) Vnegs →
  length x = n → length y = n → length y' = n →
  orthonormal Vnegs →
  let projVnegs := MatPython (projVnegs_ctx Vnegs) in
  let projVposs := MatPython (projVposs_ctx projVnegs) in
  Mat_mult projVnegs x y = Some (projVnegs_sum n Vnegs x)
  ∧ Mat_mult projVposs x y = Some (projVposs_sum n Vnegs x)
  ∧ Mat_mult projVnegs (projVnegs_sum n Vnegs x) y'
    = Some (projVnegs_sum n Vnegs x)
  ∧ Mat_mult projVposs (projVposs_sum n Vnegs x) y'
    = Some (projVposs_sum n Vnegs x).
Proof.
  intros Hvs Hx Hy Hy' Hon projVnegs projVposs.
  pose proof (projVnegs_ctx_mult_sum n Vnegs x y Hvs Hy) as HP.
  unfold projVposs_sum. rewrite <-HP. simpl. split_and!.
  - done.
  - apply projVposs_ctx_mult_sub.
  - f_equal. by apply (projVnegs_ctx_mult_idempotent n).
  - rewrite projVposs_ctx_mult_sub. f_equal.
    by apply (sub_projVnegs_idempotent n).
Qed.

(** C6 for the family of the single vector [(1, 0)]. *)
Lemma projVnegs_projVposs_idempotent_witness :
  let Vnegs := [[1; 0]] in
  let x := [qc 3; qc 4] in
  let projVnegs := MatPython (projVnegs_ctx Vnegs) in
  let projVposs := MatPython (projVposs_ctx projVnegs) in
  Mat_mult projVnegs x [0; 0] = Some (projVnegs_sum 2 Vnegs x)
  ∧ Mat_mult projVposs x [0; 0] = Some (projVposs_sum 2 Vnegs x)
  ∧ Mat_mult projVnegs (projVnegs_sum 2 Vnegs x) [0; 0]
    = Some (projVnegs_sum 2 Vnegs x)
  ∧ Mat_mult projVposs (projVposs_sum 2 Vnegs x) [0; 0]
    = Some (projVposs_sum 2 Vnegs x).
Proof.
  apply (projVnegs_projVposs_idempotent 2 [[1; 0]] [qc 3; qc 4] [0; 0] [0; 0]);
    try by_evaluation.
  repeat constructor; try by_evaluation.
Defined.

(** C7.  The operator [invAposs] that [PCNew.__init__] builds computes,
    for every local vector [x], [projVposs(Bs_solve(projVposs(x)))],
    where [Bs_solve] is the solve of the factorisation of [Bs] and
    [projVposs(v) = v − Σ_i (v·v_i) v_i] over the vectors of [Vnegs]; it
    does so through [mult] (as a matrix) and through [apply] (as the
    preconditioner of [ksp_Aposs]), and for every [invAposs_ctx] object
    the two methods agree. *)
Theorem invAposs_projected_solve
    sv opts rank is_A work mult_max As Bs eps n x y :
  Forall (λ p, length p.2 = n) eps → length x = n → length y = n →
  let L := (PCNew.init_local sv opts rank is_A work mult_max As Bs eps).1 in
  let Vnegs := PCNew.Vnegs (PCNew.diag L) in
  let result :=
    projVposs_sum n Vnegs (mumps sv Bs (projVposs_sum n Vnegs x)) in
  Mat_mult (PCNew.invAposs L) x y = Some result
  ∧ KSP_solve (PCNew.ksp_Aposs L) x y = Some result
  ∧ ∀ Bs_ksp projVposs x y,
      Ctx_mult (invAposs_ctx Bs_ksp projVposs) x y
      = Ctx_apply (invAposs_ctx Bs_ksp projVposs) x y.
Proof.
  intros Heps Hx Hy L Vnegs result.
  destruct (init_local_objects sv opts rank is_A work mult_max As Bs eps)
    as (Hd & _ & _ & HPn & HPp & Hinv & Hksp).
  fold L in Hd, HPn, HPp, Hinv, Hksp.
  assert (Forall (λ v, length v = n) Vnegs) as Hvs.
  { unfold Vnegs. rewrite Hd, diagonalize_filter. simpl.
    by apply Forall_fmap, Forall_filter. }
  assert (Ctx_apply (invAposs_ctx (KSPpreonly (MatAIJ Bs) (PCcholesky (mumps sv Bs)))
                       (PCNew.projVposs L)) x y = Some result) as Happly.
  { rewrite HPp, HPn. fold Vnegs. simpl. unfold invAposs_ctx_apply.
    rewrite projVposs_ctx_mult_sub. simpl.
    rewrite projVposs_ctx_mult_sub. unfold result, projVposs_sum.
    rewrite !(projVnegs_ctx_mult_sum n) by (by rewrite ?length_duplicate). done. }
  split_and!.
  - rewrite Hinv. exact Happly.
  - rewrite Hksp. exact Happly.
  - done.
Qed.

(** C7 on the example. *)
Lemma invAposs_projected_solve_witness :
  let L := (PCNew.init_local ex_services PCNew.default_options 0 [0; 1]%nat
              [1; qc 2; 1] (qc 2) ex_Bs ex_Bs ex_eps).1 in
  let x := [qc 3; qc 4] in
  let Vnegs := PCNew.Vnegs (PCNew.diag L) in
  let result :=
    projVposs_sum 2 Vnegs (mumps ex_services ex_Bs (projVposs_sum 2 Vnegs x)) in
  Mat_mult (PCNew.invAposs L) x [0; 0] = Some result
  ∧ KSP_solve (PCNew.ksp_Aposs L) x [0; 0] = Some result
  ∧ ∀ Bs_ksp projVposs x y,
      Ctx_mult (invAposs_ctx Bs_ksp projVposs) x y
      = Ctx_apply (invAposs_ctx Bs_ksp projVposs) x y.
Proof.
  apply (invAposs_projected_solve ex_services PCNew.default_options 0
           [0; 1]%nat [1; qc 2; 1] (qc 2) ex_Bs ex_Bs ex_eps 2);
    by_evaluation.
Defined.

(** C8.  When [PCNew_switchtoASM] is set, [PCNew.__init__] still returns
    the preconditioner: every rank prints that the GenEO coarse space for
    this combination is not implemented, the component for eigmax
    missing; the local solver is the Cholesky factorisation of the
    assembled [As]; and the coarse-space seed [minV0s] is the basis of
    [minimal_V0] for that solver, not the scaled negative eigenvectors
    [invmusVnegs]. *)
Theorem switchtoASM_warns_and_proceeds
    sv opts A_mpiaij work As0 Bs0 iss eps rank is_A As Bs e :
  iss !! rank = Some is_A → As0 !! rank = Some As → Bs0 !! rank = Some Bs →
  eps !! rank = Some e →
  PCNew.PCNew_switchtoASM opts = true →
  let built := PCNew.init sv opts A_mpiaij work As0 Bs0 iss eps in
  ∃ L, PCNew.locals built.1.1 !! rank = Some L
  ∧ PCNew.switchtoASM built.1.1 = true
  ∧ (rank,
     "The GenEO coarse space for this Atildes with global opeator Apos is not implemented yet, the component for eigmax is missing")
    ∈ built.2
  ∧ PCNew.Atildes L = MatAIJ As
  ∧ PCNew.ksp_Atildes L = KSPpreonly (MatAIJ As) (PCcholesky (mumps sv As))
  ∧ PCNew.minV0s L = minimal_V0 sv (PCNew.ksp_Atildes L)
  ∧ PCNew.V0s L
    = (if PCNew.PCNew_GenEO opts
       then GenEO_V0 sv (PCNew.ksp_Atildes_forSLEPc L) (PCNew.Ms L) As
              (Vec.max work) (PCNew.minV0s L) (Some (PCNew.ksp_Ms_forSLEPc L))
       else PCNew.minV0s L).
Proof.
  intros His HAs HBs He HASM built.
  destruct (init_rank sv opts A_mpiaij work As0 Bs0 iss eps rank is_A As Bs e)
    as [HL Hout]; try done.
  eexists. split; [exact HL|]. split; [done|]. split.
  - apply Hout. unfold PCNew.init_local. rewrite HASM. simpl.
    rewrite !elem_of_app, !elem_of_cons. auto.
  - unfold PCNew.init_local. rewrite HASM. simpl.
    by destruct (PCNew.PCNew_GenEO opts).
Qed.

(** C8 on the rank [1] of the example. *)
Lemma switchtoASM_warns_and_proceeds_witness :
  let built := ex_PCNew ex_ASM_options in
  let As := [[qc 4; 0]; [0; qc 2]] in
  ∃ L, PCNew.locals built.1.1 !! 1%nat = Some L
  ∧ PCNew.switchtoASM built.1.1 = true
  ∧ (1%nat,
     "The GenEO coarse space for this Atildes with global opeator Apos is not implemented yet, the component for eigmax is missing")
    ∈ built.2
  ∧ PCNew.Atildes L = MatAIJ As
  ∧ PCNew.ksp_Atildes L = KSPpreonly (MatAIJ As) (PCcholesky (mumps ex_services As))
  ∧ PCNew.minV0s L = minimal_V0 ex_services (PCNew.ksp_Atildes L)
  ∧ PCNew.V0s L
    = (if PCNew.PCNew_GenEO ex_ASM_options
       then GenEO_V0 ex_services (PCNew.ksp_Atildes_forSLEPc L) (PCNew.Ms L) As
              (Vec.max [1; qc 2; 1]) (PCNew.minV0s L)
              (Some (PCNew.ksp_Ms_forSLEPc L))
       else PCNew.minV0s L).
Proof.
  apply (switchtoASM_warns_and_proceeds ex_services ex_ASM_options ex_A
           [1; qc 2; 1] ex_As [ex_Bs; ex_Bs] ex_iss [ex_eps; ex_eps] 1
           [1; 2]%nat [[qc 4; 0]; [0; qc 2]] ex_Bs ex_eps);
    reflexivity.
Defined.

(** C9, as amended.  When the eigensolver converges fewer eigenpairs of
    [Bs] than the [PCNew_Bs_nev] requested on a rank, [PCNew.__init__]
    still returns the preconditioner: the rank prints the diagnostic
    with its rank, the number converged and the number requested, and
    its negative part [Vnegs], [DVnegs], [Anegs] is built from the
    converged eigenpairs alone.  So is its coarse-space seed [minV0s],
    [invmus * Vnegs], unless [PCNew_switchtoASM] is set; with
    [PCNew_switchtoASM] the seed is [minimal_V0] of the Cholesky solver
    of [As], which the eigenpairs do not enter. *)
Theorem eigensolver_under_convergence
    sv opts A_mpiaij work As0 Bs0 iss eps rank is_A As Bs e :
  iss !! rank = Some is_A → As0 !! rank = Some As → Bs0 !! rank = Some Bs →
  eps !! rank = Some e →
  (Z.of_nat (length e) < PCNew.PCNew_Bs_nev opts)%Z →
  let built := PCNew.init sv opts A_mpiaij work As0 Bs0 iss eps in
  let negs := filter (λ p, p.1 < 0) e in
  ∃ L, PCNew.locals built.1.1 !! rank = Some L
  ∧ (rank,
     "for Bs in subdomain " +:+ pretty rank +:+ ": " +:+ pretty (length e)
     +:+ " eigenvalues converged (less that the "
     +:+ pretty (PCNew.PCNew_Bs_nev opts) +:+ " requested)") ∈ built.2
  ∧ PCNew.Vnegs (PCNew.diag L) = snd <$> negs
  ∧ PCNew.DVnegs (PCNew.diag L) = (λ p, Vec.rmul ((-1) * p.1) p.2) <$> negs
  ∧ PCNew.Anegs L
    = MatPython (Anegs_ctx (PCNew.Vnegs (PCNew.diag L)) (PCNew.DVnegs (PCNew.diag L)))
  ∧ (PCNew.PCNew_switchtoASM opts = false →
     PCNew.minV0s L = (λ p, Vec.mul (PCNew.invmus L) p.2) <$> negs)
  ∧ (PCNew.PCNew_switchtoASM opts = true →
     PCNew.minV0s L
     = minimal_V0 sv (KSPpreonly (MatAIJ As) (PCcholesky (mumps sv As)))).
Proof.
  intros His HAs HBs He Hnev built negs.
  destruct (init_rank sv opts A_mpiaij work As0 Bs0 iss eps rank is_A As Bs e)
    as [HL Hout]; try done.
  eexists. split; [exact HL|].
  destruct (init_local_objects sv opts rank is_A work (Vec.max work) As Bs e)
    as (Hd & HAn & _).
  split_and!.
  - apply Hout. unfold PCNew.init_local.
    rewrite (bool_decide_eq_true_2 (Z.of_nat (length e) < _)%Z) by done.
    destruct (PCNew.PCNew_switchtoASM opts); simpl; apply list_elem_of_here.
  - by rewrite Hd, diagonalize_filter.
  - by rewrite Hd, diagonalize_filter.
  - exact HAn.
  - intros HASM. unfold PCNew.init_local. rewrite HASM. simpl.
    by rewrite diagonalize_filter.
  - intros HASM. unfold PCNew.init_local. by rewrite HASM.
Qed.

(** C9 on the rank [1] of the example: two eigenpairs for the twenty
    requested. *)
Lemma eigensolver_under_convergence_witness :
  let built := ex_PCNew PCNew.default_options in
  let negs := filter (λ p, p.1 < 0) ex_eps in
  ∃ L, PCNew.locals built.1.1 !! 1%nat = Some L
  ∧ (1%nat,
     "for Bs in subdomain " +:+ pretty 1%nat +:+ ": " +:+ pretty (length ex_eps)
     +:+ " eigenvalues converged (less that the "
     +:+ pretty 20%Z +:+ " requested)") ∈ built.2
  ∧ PCNew.Vnegs (PCNew.diag L) = snd <$> negs
  ∧ PCNew.DVnegs (PCNew.diag L) = (λ p, Vec.rmul ((-1) * p.1) p.2) <$> negs
  ∧ PCNew.Anegs L
    = MatPython (Anegs_ctx (PCNew.Vnegs (PCNew.diag L)) (PCNew.DVnegs (PCNew.diag L)))
  ∧ PCNew.minV0s L = (λ p, Vec.mul (PCNew.invmus L) p.2) <$> negs.
Proof.
  destruct (eigensolver_under_convergence ex_services PCNew.default_options
              ex_A [1; qc 2; 1] ex_As [ex_Bs; ex_Bs] ex_iss [ex_eps; ex_eps] 1
              [1; 2]%nat [[qc 4; 0]; [0; qc 2]] ex_Bs ex_eps)
    as (L & HL & Hmsg & HV & HDV & HAn & Hseed & _);
    [first [reflexivity | by_evaluation]..|].
  exists L.
  split_and!; [exact HL|exact Hmsg|exact HV|exact HDV|exact HAn|].
  by apply Hseed.
Defined.

(** C9, the claim as stated fails: on the rank [0] of the example with
    [PCNew_switchtoASM], two eigenpairs converge for the twenty
    requested and one of them is negative, so the seed built from the
    converged eigenpairs would hold [invmus * (1, 0)]; the seed of the
    constructor is what [minimal_V0] returns for the solver of [As],
    here no vector, and it is the same when the eigensolver returns
    other eigenpairs. *)
Lemma eigensolver_under_convergence_counterexample :
  let opts := ex_ASM_options in
  let As := [[qc 2; 0]; [0; qc 4]] in
  let L := (PCNew.init_local ex_services opts 0 [0; 1]%nat [1; qc 2; 1]
              (qc 2) As ex_Bs ex_eps).1 in
  let L' := (PCNew.init_local ex_services opts 0 [0; 1]%nat [1; qc 2; 1]
               (qc 2) As ex_Bs [(qc (-1), [0; 1])]).1 in
  (Z.of_nat (length ex_eps) < PCNew.PCNew_Bs_nev opts)%Z
  ∧ PCNew.locals (ex_PCNew opts).1.1 !! 0%nat = Some L
  ∧ (λ p : Qc * Vec.t, Vec.mul (PCNew.invmus L) p.2)
      <$> filter (λ p, p.1 < 0) ex_eps = [[1; 0]]
  ∧ PCNew.minV0s L
    = minimal_V0 ex_services (KSPpreonly (MatAIJ As) (PCcholesky (mumps ex_services As)))
  ∧ PCNew.minV0s L = []
  ∧ PCNew.minV0s L
    ≠ (λ p : Qc * Vec.t, Vec.mul (PCNew.invmus L) p.2)
        <$> filter (λ p, p.1 < 0) ex_eps
  ∧ PCNew.minV0s L' = PCNew.minV0s L.
Proof.
  split_and!; try by_evaluation.
  - by destruct (init_rank ex_services ex_ASM_options ex_A [1; qc 2; 1] ex_As
                   [ex_Bs; ex_Bs] ex_iss [ex_eps; ex_eps] 0 [0; 1]%nat
                   [[qc 2; 0]; [0; qc 4]] ex_Bs ex_eps) as [HL _].
Qed.

(** C10.  [PCBNN.mult(x, y)] and [PCNew.mult(x, y)] (hence [apply]),
    called with an input [x] that is not the output vector [y], return
    with [x] holding the entries it held before the call, whatever the
    flags: the statements that update in place act on copies of [x], on
    [y] and on the work vectors.  The calls return whenever every local
    solve does. *)
Theorem mult_preserves_input x y w xv yv :
  x ≠ y → vecs w !! x = Some xv → vecs w !! y = Some yv →
  (∀ (self : PCBNN.t) P (pc : P) u w',
     PCBNN.mult self x y w = Some (u, w') ∨ PCBNN.apply self pc x y w = Some (u, w') →
     vecs w' !! x = Some xv)
  ∧ (∀ (self : PCNew.t) P (pc : P) u w',
     PCNew.mult self x y w = Some (u, w') ∨ PCNew.apply self pc x y w = Some (u, w') →
     vecs w' !! x = Some xv)
  ∧ (∀ self : PCBNN.t,
     is_Some (six_steps (PCBNN.projCS self) (PCBNN.addCS self) (PCBNN.proj self)
                (PCBNN.scatter_l2g self) (PCBNN.ksp_Atildes self) (works_2 w) xv yv) →
     is_Some (PCBNN.mult self x y w))
  ∧ (∀ self : PCNew.t,
     is_Some (six_steps (PCNew.projCS self) (PCNew.addCS self) (PCNew.proj self)
                (PCNew.scatter_l2g self) (PCNew.ksp_Atildes <$> PCNew.locals self)
                (works_2 w) xv yv) →
     is_Some (PCNew.mult self x y w)).
Proof.
  intros Hxy Hx Hy.
  assert (∀ projCS addCS p iss ksps u w',
            dd_mult projCS addCS p iss ksps x y w = Some (u, w') →
            vecs w' !! x = Some xv) as Hframe.
  { intros projCS addCS p iss ksps u w' Hrun.
    pose proof (dd_mult_run projCS addCS p iss ksps x y w xv yv Hxy Hx Hy) as H.
    destruct (six_steps _ _ _ _ _ _ _ _); [|congruence].
    destruct H as (w'' & Hw'' & _ & Hother & _).
    rewrite Hrun in Hw''. simplify_eq.
    rewrite Hother; [done| |done]. apply elem_of_dom. eauto. }
  assert (∀ projCS addCS p iss ksps,
            is_Some (six_steps projCS addCS p iss ksps (works_2 w) xv yv) →
            is_Some (dd_mult projCS addCS p iss ksps x y w)) as Hret.
  { intros projCS addCS p iss ksps [yr Hyr].
    pose proof (dd_mult_run projCS addCS p iss ksps x y w xv yv Hxy Hx Hy) as H.
    rewrite Hyr in H. destruct H as (w' & Hw' & _). eauto. }
  split_and!.
  - intros self P pc u w' [H|H]; eapply Hframe; exact H.
  - intros self P pc u w' [H|H]; eapply Hframe; exact H.
  - intros self. apply Hret.
  - intros self. apply Hret.
Qed.

(** C10 on the store of the example. *)
Lemma mult_preserves_input_witness :
  let w := ex_world ex_PCBNN.1.2 in
  let xv := [qc 4; qc 8; qc 4] in
  let yv := [qc 5; qc 5; qc 5] in
  (∀ (self : PCBNN.t) P (pc : P) u w',
     PCBNN.mult self 1 2 w = Some (u, w') ∨ PCBNN.apply self pc 1 2 w = Some (u, w') →
     vecs w' !! 1%positive = Some xv)
  ∧ (∀ (self : PCNew.t) P (pc : P) u w',
     PCNew.mult self 1 2 w = Some (u, w') ∨ PCNew.apply self pc 1 2 w = Some (u, w') →
     vecs w' !! 1%positive = Some xv)
  ∧ (∀ self : PCBNN.t,
     is_Some (six_steps (PCBNN.projCS self) (PCBNN.addCS self) (PCBNN.proj self)
                (PCBNN.scatter_l2g self) (PCBNN.ksp_Atildes self) (works_2 w) xv yv) →
     is_Some (PCBNN.mult self 1 2 w))
  ∧ (∀ self : PCNew.t,
     is_Some (six_steps (PCNew.projCS self) (PCNew.addCS self) (PCNew.proj self)
                (PCNew.scatter_l2g self) (PCNew.ksp_Atildes <$> PCNew.locals self)
                (works_2 w) xv yv) →
     is_Some (PCNew.mult self 1 2 w)).
Proof.
  apply (mult_preserves_input 1 2 (ex_world ex_PCBNN.1.2)); by_evaluation.
Defined.

(** * Further properties of the code *)

(** ** The operators of a rank *)

Lemma init_local_mus sv opts rank is_A work mult_max As Bs eps :
  let L := (PCNew.init_local sv opts rank is_A work mult_max As Bs eps).1 in
  PCNew.mus L = Scatter.reverse_insert is_A work
  ∧ PCNew.invmus L = Vec.rtruediv 1 (Scatter.reverse_insert is_A work).
Proof.
  unfold PCNew.init_local. by destruct (PCNew.PCNew_switchtoASM opts).
Qed.

Lemma init_local_Aposs_mult sv opts rank is_A work mult_max As Bs eps n x y :
  Forall (λ p, length p.2 = n) eps → length x = n →
  Mat_mult (PCNew.Aposs (PCNew.init_local sv opts rank is_A work mult_max As Bs eps).1) x y
  = Some (Vec.add (AIJ.mult Bs x) (Anegs_sum n eps x)).
Proof.
  intros Heps Hx.
  destruct (init_local_objects sv opts rank is_A work mult_max As Bs eps)
    as (_ & _ & -> & _).
  simpl. unfold Aposs_ctx_mult.
  rewrite (init_local_Anegs_mult _ _ _ _ _ _ _ _ _ n)
    by (by rewrite ?length_duplicate).
  simpl. by rewrite iadd_add.
Qed.

Lemma init_local_Vnegs sv opts rank is_A work mult_max As Bs eps :
  PCNew.Vnegs (PCNew.diag (PCNew.init_local sv opts rank is_A work mult_max As Bs eps).1)
  = snd <$> filter (λ p, p.1 < 0) eps.
Proof.
  destruct (init_local_objects sv opts rank is_A work mult_max As Bs eps)
    as (-> & _).
  by rewrite diagonalize_filter.
Qed.

Lemma init_local_projVposs_mult sv opts rank is_A work mult_max As Bs eps n x y :
  Forall (λ p, length p.2 = n) eps → length y = n →
  Mat_mult (PCNew.projVposs (PCNew.init_local sv opts rank is_A work mult_max As Bs eps).1) x y
  = Some (projVposs_sum n (snd <$> filter (λ p, p.1 < 0) eps) x).
Proof.
  intros Heps Hy.
  destruct (init_local_objects sv opts rank is_A work mult_max As Bs eps)
    as (_ & _ & _ & HPn & -> & _).
  rewrite HPn, init_local_Vnegs. simpl.
  rewrite projVposs_ctx_mult_sub. unfold projVposs_sum.
  rewrite (projVnegs_ctx_mult_sum n); [done| |done].
  by apply Forall_fmap, Forall_filter.
Qed.

Lemma init_local_invAposs_mult sv opts rank is_A work mult_max As Bs eps n x y :
  Forall (λ p, length p.2 = n) eps → length y = n →
  let Vnegs := snd <$> filter (λ p, p.1 < 0) eps in
  Mat_mult (PCNew.invAposs (PCNew.init_local sv opts rank is_A work mult_max As Bs eps).1) x y
  = Some (projVposs_sum n Vnegs (mumps sv Bs (projVposs_sum n Vnegs x))).
Proof.
  intros Heps Hy Vnegs.
  destruct (init_local_objects sv opts rank is_A work mult_max As Bs eps)
    as (_ & _ & _ & _ & _ & -> & _).
  simpl. unfold invAposs_ctx_mult, invAposs_ctx_apply.
  rewrite (init_local_projVposs_mult _ _ _ _ _ _ _ _ _ n)
    by (by rewrite ?length_duplicate).
  simpl.
  by rewrite (init_local_projVposs_mult _ _ _ _ _ _ _ _ _ n).
Qed.

Lemma init_local_mus_inverse sv opts rank is_A work mult_max As Bs eps :
  Forall (λ gi, work !!! gi ≠ 0) is_A →
  let L := (PCNew.init_local sv opts rank is_A work mult_max As Bs eps).1 in
  length (PCNew.mus L) = length is_A
  ∧ Vec.mul (PCNew.invmus L) (PCNew.mus L) = replicate (length is_A) 1
  ∧ Vec.mul (PCNew.mus L) (PCNew.invmus L) = replicate (length is_A) 1.
Proof.
  intros Hnz L.
  destruct (init_local_mus sv opts rank is_A work mult_max As Bs eps)
    as [Hmus Hinv].
  fold L in Hmus, Hinv. rewrite Hinv, Hmus.
  assert (length (Scatter.reverse_insert is_A work) = length is_A) as Hl
    by apply length_fmap.
  assert (Forall (λ m, m ≠ 0) (Scatter.reverse_insert is_A work)) as Hm.
  { unfold Scatter.reverse_insert. by apply Forall_fmap. }
  split; [done|]. rewrite (mul_comm (Scatter.reverse_insert is_A work)).
  rewrite mul_rtruediv_ones, Hl by done. done.
Qed.

(** X1.  The scaling vectors of [PCNew.__init__] are entrywise inverse to
    each other: where the multiplicities [work] are not zero at the
    degrees of freedom of the rank, [invmus * mus] and [mus * invmus] are
    the vector of ones (the check of lines 570-574). *)
Theorem mus_invmus_ones sv opts rank is_A work mult_max As Bs eps :
  Forall (λ gi, work !!! gi ≠ 0) is_A →
  let L := (PCNew.init_local sv opts rank is_A work mult_max As Bs eps).1 in
  length (PCNew.mus L) = length is_A
  ∧ length (PCNew.invmus L) = length is_A
  ∧ Vec.mul (PCNew.invmus L) (PCNew.mus L) = replicate (length is_A) 1
  ∧ Vec.mul (PCNew.mus L) (PCNew.invmus L) = replicate (length is_A) 1
  ∧ Forall (λ m, m ≠ 0) (PCNew.invmus L).
Proof.
  intros Hnz L.
  destruct (init_local_mus_inverse sv opts rank is_A work mult_max As Bs eps Hnz)
    as (Hl & Him & Hmi).
  destruct (init_local_mus sv opts rank is_A work mult_max As Bs eps)
    as [Hmus Hinv].
  fold L in Hl, Him, Hmi, Hmus, Hinv.
  split_and!; try done.
  - rewrite Hinv. unfold Vec.rtruediv. rewrite length_fmap, <-Hmus. exact Hl.
  - rewrite Hinv. unfold Vec.rtruediv, Scatter.reverse_insert.
    rewrite <-list_fmap_compose. apply Forall_fmap, Forall_forall.
    intros gi Hgi. simpl. rewrite Forall_forall in Hnz.
    intros H0. unfold compose in H0.
    assert (work !!! gi * (1 * / work !!! gi) = 1) as H1
      by (field; by apply Hnz).
    rewrite H0 in H1. ring_simplify in H1. done.
Qed.

(** X2.  For an orthonormal family [Vnegs], the two projections split
    every vector: [projVnegs x + projVposs x = x], the two parts are
    orthogonal, and [|x|² = |projVnegs x|² + |projVposs x|²] (the checks
    of lines 536-542). *)
Theorem projVnegs_projVposs_pythagoras n Vnegs x y :
  Forall (λ v, length v = n) Vnegs → length x = n → length y = n →
  orthonormal Vnegs →
  let px := projVnegs_sum n Vnegs x in
  let qx := projVposs_sum n Vnegs x in
  Mat_mult (MatPython (projVnegs_ctx Vnegs)) x y = Some px
  ∧ Mat_mult (MatPython (projVposs_ctx (MatPython (projVnegs_ctx Vnegs)))) x y
    = Some qx
  ∧ Vec.add px qx = x
  ∧ Vec.dot px qx = 0
  ∧ Vec.dot x x = Vec.dot px px + Vec.dot qx qx.
Proof.
  intros Hvs Hx Hy Hon px qx.
  assert (length px = n) as Hlp by by apply length_projVnegs_sum.
  assert (length qx = n) as Hlq by by apply length_projVposs_sum.
  assert (Vec.add px qx = x) as Hsum.
  { unfold qx, projVposs_sum. apply add_sub_cancel. fold px. congruence. }
  assert (Vec.dot px qx = 0) as Horth.
  { unfold px. rewrite dot_projVnegs_sum by done.
    apply sumQ_fmap_zero, Forall_forall. intros v Hv. simpl.
    rewrite (dot_comm v qx). unfold qx.
    rewrite (dot_projVposs_sum_orthogonal n) by done. ring. }
  split_and!.
  - simpl. f_equal. by apply projVnegs_ctx_mult_sum.
  - simpl. rewrite projVposs_ctx_mult_sub. unfold qx, projVposs_sum, px.
    by rewrite (projVnegs_ctx_mult_sum n).
  - done.
  - done.
  - rewrite <-Hsum at 1 2.
    rewrite dot_add_l, !dot_add_r by congruence.
    rewrite (dot_comm qx px), Horth. ring.
Qed.

(** X3.  The operators [projVnegs] and [Anegs] are symmetric, whatever the
    vectors and eigenvalues they hold, and [Aposs] is symmetric when [Bs]
    is: [⟨Op x, z⟩ = ⟨x, Op z⟩]. *)
Theorem local_operators_symmetric
    sv opts rank is_A work mult_max As Bs eps n x z y :
  length Bs = n → Forall (λ p, length p.2 = n) eps →
  length x = n → length z = n → length y = n →
  let L := (PCNew.init_local sv opts rank is_A work mult_max As Bs eps).1 in
  ∃ px pz nx nz ax az,
    Mat_mult (PCNew.projVnegs L) x y = Some px
    ∧ Mat_mult (PCNew.projVnegs L) z y = Some pz
    ∧ Mat_mult (PCNew.Anegs L) x y = Some nx
    ∧ Mat_mult (PCNew.Anegs L) z y = Some nz
    ∧ Mat_mult (PCNew.Aposs L) x y = Some ax
    ∧ Mat_mult (PCNew.Aposs L) z y = Some az
    ∧ Vec.dot px z = Vec.dot x pz
    ∧ Vec.dot nx z = Vec.dot x nz
    ∧ (Vec.dot (AIJ.mult Bs x) z = Vec.dot x (AIJ.mult Bs z) →
       Vec.dot ax z = Vec.dot x az).
Proof.
  intros HBs Heps Hx Hz Hy L.
  set (negs := filter (λ p, p.1 < 0) eps).
  assert (Forall (λ v, length v = n) (snd <$> negs)) as Hvs.
  { by apply Forall_fmap, Forall_filter. }
  destruct (init_local_objects sv opts rank is_A work mult_max As Bs eps)
    as (_ & _ & _ & HPn & _).
  unfold L.
  exists (projVnegs_sum n (snd <$> negs) x), (projVnegs_sum n (snd <$> negs) z),
    (Anegs_sum n eps x), (Anegs_sum n eps z),
    (Vec.add (AIJ.mult Bs x) (Anegs_sum n eps x)),
    (Vec.add (AIJ.mult Bs z) (Anegs_sum n eps z)).
  assert (Vec.dot (Anegs_sum n eps x) z = Vec.dot x (Anegs_sum n eps z)) as HsymN.
  { rewrite (dot_comm x), !dot_Anegs_sum by done.
    apply sumQ_fmap_ext. intros p _. simpl.
    rewrite (dot_comm z p.2), (dot_comm p.2 z), (dot_comm p.2 x). ring. }
  split_and!.
  - rewrite HPn, init_local_Vnegs. simpl. f_equal.
    by apply projVnegs_ctx_mult_sum.
  - rewrite HPn, init_local_Vnegs. simpl. f_equal.
    by apply projVnegs_ctx_mult_sum.
  - by apply init_local_Anegs_mult.
  - by apply init_local_Anegs_mult.
  - by apply init_local_Aposs_mult.
  - by apply init_local_Aposs_mult.
  - rewrite (dot_comm x), !dot_projVnegs_sum by done.
    rewrite <-!list_fmap_compose. apply sumQ_fmap_ext. intros p _. simpl.
    rewrite (dot_comm z p.2), (dot_comm p.2 z), (dot_comm p.2 x). ring.
  - done.
  - intros HsymB.
    rewrite dot_add_l, dot_add_r
      by (by rewrite length_AIJ_mult, length_Anegs_sum, HBs).
    by rewrite HsymB, HsymN.
Qed.

(** ** [Aposs], [projVposs] and the local solves *)

Section exact_operators.
Implicit Types (x y z v w : Vec.t) (eps negs : PCNew.EPS).

Lemma projVposs_sum_fixed n vs z :
  Forall (λ v, length v = n) vs → length z = n →
  Forall (λ v, Vec.dot z v = 0) vs →
  projVposs_sum n vs z = z.
Proof.
  intros Hvs Hz Horth. unfold projVposs_sum.
  rewrite projVnegs_sum_lincomb by done.
  rewrite (lincomb_ext _ (λ _, 0)).
  - rewrite lincomb_zero by (by rewrite length_zeros).
    rewrite <-Hz. apply sub_zeros.
  - rewrite Forall_forall in Horth. exact Horth.
Qed.

Lemma eigen_filter (Bs : AIJ.t) eps :
  Forall (λ p, p.1 < 0 → AIJ.mult Bs p.2 = Vec.rmul p.1 p.2) eps →
  Forall (λ p, AIJ.mult Bs p.2 = Vec.rmul p.1 p.2) (filter (λ p, p.1 < 0) eps).
Proof.
  rewrite !Forall_forall. intros H p [Hp Hin]%list_elem_of_filter. by apply H.
Qed.

(** [Bs] maps the complement of its eigenvectors into itself. *)
Lemma Bs_keeps_complement n (Bs : AIJ.t) negs z :
  length Bs = n → Forall (λ p, length p.2 = n) negs → length z = n →
  (∀ v w, length v = n → length w = n →
     Vec.dot (AIJ.mult Bs v) w = Vec.dot v (AIJ.mult Bs w)) →
  Forall (λ p, AIJ.mult Bs p.2 = Vec.rmul p.1 p.2) negs →
  Forall (λ v, Vec.dot z v = 0) (snd <$> negs) →
  Forall (λ v, Vec.dot (AIJ.mult Bs z) v = 0) (snd <$> negs).
Proof.
  intros HBs Hnegs Hz Hsym Heig Horth.
  apply Forall_fmap, Forall_forall. intros p Hp. simpl.
  rewrite Forall_forall in Hnegs. rewrite Forall_forall in Heig.
  apply Forall_fmap in Horth. rewrite Forall_forall in Horth.
  rewrite Hsym by auto.
  rewrite (Heig p Hp), dot_rmul_r. simpl in Horth. rewrite (Horth p Hp). ring.
Qed.

Lemma projVposs_sum_orthogonal n vs x :
  Forall (λ v, length v = n) vs → length x = n → orthonormal vs →
  Forall (λ v, Vec.dot (projVposs_sum n vs x) v = 0) vs.
Proof.
  intros Hvs Hx Hon. apply Forall_forall. intros v Hv.
  by apply dot_projVposs_sum_orthogonal.
Qed.

(** The local solve of [ksp_Aposs] undoes [Bs] on the complement of the
    negative eigenvectors. *)
Lemma invAposs_Bs n sv (Bs : AIJ.t) negs z :
  length Bs = n → Forall (λ p, length p.2 = n) negs → length z = n →
  (∀ v w, length v = n → length w = n →
     Vec.dot (AIJ.mult Bs v) w = Vec.dot v (AIJ.mult Bs w)) →
  Forall (λ p, AIJ.mult Bs p.2 = Vec.rmul p.1 p.2) negs →
  (∀ u, length u = n → mumps sv Bs (AIJ.mult Bs u) = u) →
  Forall (λ v, Vec.dot z v = 0) (snd <$> negs) →
  projVposs_sum n (snd <$> negs)
    (mumps sv Bs (projVposs_sum n (snd <$> negs) (AIJ.mult Bs z))) = z.
Proof.
  intros HBs Hnegs Hz Hsym Heig Hsolve Horth.
  assert (Forall (λ v, length v = n) (snd <$> negs)) as Hvs by by apply Forall_fmap.
  rewrite (projVposs_sum_fixed n _ (AIJ.mult Bs z)); try done.
  - rewrite Hsolve by done. by apply projVposs_sum_fixed.
  - by rewrite length_AIJ_mult.
  - by apply (Bs_keeps_complement n).
Qed.

Lemma init_local_Ms sv opts rank is_A work mult_max As Bs eps :
  let L := (PCNew.init_local sv opts rank is_A work mult_max As Bs eps).1 in
  let S := scaledmats_ctx (PCNew.invAposs L) (PCNew.invmus L) (PCNew.invmus L) in
  PCNew.Ms L = MatPython (scaledmats_ctx (PCNew.Aposs L) (PCNew.mus L) (PCNew.mus L))
  ∧ PCNew.ksp_Ms L = KSPpreonly (PCNew.Ms L) (PCpython S)
  ∧ PCNew.ksp_Ms_forSLEPc L = KSPpreonly (PCNew.Ms L) (PCpython S)
  ∧ (PCNew.PCNew_switchtoASM opts = false →
     PCNew.Atildes L = PCNew.Ms L
     ∧ PCNew.ksp_Atildes L = KSPpreonly (PCNew.Ms L) (PCpython S)
     ∧ PCNew.ksp_Atildes_forSLEPc L = KSPpreonly (PCNew.Ms L) (PCpython S))
  ∧ (PCNew.PCNew_switchtoASM opts = true →
     PCNew.Atildes L = MatAIJ As
     ∧ PCNew.ksp_Atildes L = KSPpreonly (MatAIJ As) (PCcholesky (mumps sv As))
     ∧ PCNew.ksp_Atildes_forSLEPc L
       = KSPpreonly (MatAIJ As) (PCcholesky (mumps sv As))).
Proof.
  unfold PCNew.init_local. by destruct (PCNew.PCNew_switchtoASM opts).
Qed.

End exact_operators.

(** X4.  Where the negative eigenpairs kept by [PCNew.__init__] are
    genuine and orthonormal and [Bs] is symmetric, [Aposs], built as
    [Bs + Anegs], is [Bs] after [projVposs], and [projVposs] leaves its
    values unchanged: [Aposs = Bs projVposs = projVposs Bs projVposs]
    (the check of lines 543-552). *)
Theorem Aposs_is_projected_Bs
    sv opts rank is_A work mult_max As Bs eps n x y :
  length Bs = n → Forall (λ p, length p.2 = n) eps →
  length x = n → length y = n →
  (∀ v w, length v = n → length w = n →
     Vec.dot (AIJ.mult Bs v) w = Vec.dot v (AIJ.mult Bs w)) →
  Forall (λ p, p.1 < 0 → AIJ.mult Bs p.2 = Vec.rmul p.1 p.2) eps →
  orthonormal (snd <$> filter (λ p, p.1 < 0) eps) →
  let L := (PCNew.init_local sv opts rank is_A work mult_max As Bs eps).1 in
  ∃ a q,
    Mat_mult (PCNew.Aposs L) x y = Some a
    ∧ Mat_mult (PCNew.projVposs L) x y = Some q
    ∧ Mat_mult (MatAIJ Bs) q y = Some a
    ∧ Mat_mult (PCNew.projVposs L) a y = Some a.
Proof.
  intros HBs Heps Hx Hy Hsym Heig Hon L.
  set (negs := filter (λ p, p.1 < 0) eps).
  assert (Forall (λ p, length p.2 = n) negs) as Hnegs by by apply Forall_filter.
  assert (Forall (λ v, length v = n) (snd <$> negs)) as Hvs by by apply Forall_fmap.
  exists (AIJ.mult Bs (projVposs_sum n (snd <$> negs) x)),
    (projVposs_sum n (snd <$> negs) x).
  unfold L. split_and!.
  - rewrite (init_local_Aposs_mult _ _ _ _ _ _ _ _ _ n) by done.
    f_equal. by apply Aposs_Bs_projVposs.
  - by apply init_local_projVposs_mult.
  - done.
  - rewrite (init_local_projVposs_mult _ _ _ _ _ _ _ _ _ n) by done.
    f_equal. apply projVposs_sum_fixed; [done|by rewrite length_AIJ_mult|].
    apply (Bs_keeps_complement n); try done.
    + by apply length_projVposs_sum.
    + by apply eigen_filter.
    + by apply projVposs_sum_orthogonal.
Qed.

(** X5.  With an exact direct solver of [Bs] in addition, the solve of
    [ksp_Aposs] inverts [Aposs] on the range of [projVposs]:
    [ksp_Aposs.solve(Aposs x) = projVposs x] (the check of lines
    561-569). *)
Theorem ksp_Aposs_solve_Aposs
    sv opts rank is_A work mult_max As Bs eps n x y :
  length Bs = n → Forall (λ p, length p.2 = n) eps →
  length x = n → length y = n →
  (∀ v w, length v = n → length w = n →
     Vec.dot (AIJ.mult Bs v) w = Vec.dot v (AIJ.mult Bs w)) →
  Forall (λ p, p.1 < 0 → AIJ.mult Bs p.2 = Vec.rmul p.1 p.2) eps →
  orthonormal (snd <$> filter (λ p, p.1 < 0) eps) →
  (∀ u, length u = n → mumps sv Bs (AIJ.mult Bs u) = u) →
  let L := (PCNew.init_local sv opts rank is_A work mult_max As Bs eps).1 in
  ∃ a q,
    Mat_mult (PCNew.Aposs L) x y = Some a
    ∧ Mat_mult (PCNew.projVposs L) x y = Some q
    ∧ KSP_solve (PCNew.ksp_Aposs L) a y = Some q.
Proof.
  intros HBs Heps Hx Hy Hsym Heig Hon Hsolve L.
  set (negs := filter (λ p, p.1 < 0) eps).
  assert (Forall (λ p, length p.2 = n) negs) as Hnegs by by apply Forall_filter.
  assert (Forall (λ v, length v = n) (snd <$> negs)) as Hvs by by apply Forall_fmap.
  exists (AIJ.mult Bs (projVposs_sum n (snd <$> negs) x)),
    (projVposs_sum n (snd <$> negs) x).
  destruct (init_local_objects sv opts rank is_A work mult_max As Bs eps)
    as (_ & _ & _ & _ & _ & HinvA & Hksp).
  unfold L. split_and!.
  - rewrite (init_local_Aposs_mult _ _ _ _ _ _ _ _ _ n) by done.
    f_equal. by apply Aposs_Bs_projVposs.
  - by apply init_local_projVposs_mult.
  - rewrite Hksp. simpl.
    pose proof (init_local_invAposs_mult sv opts rank is_A work mult_max As Bs
                  eps n (AIJ.mult Bs (projVposs_sum n (snd <$> negs) x)) y
                  Heps Hy) as Hinv.
    simpl in Hinv. rewrite HinvA in Hinv. simpl in Hinv.
    unfold invAposs_ctx_mult in Hinv. rewrite Hinv. f_equal.
    apply (invAposs_Bs n); try done.
    + by apply length_projVposs_sum.
    + by apply eigen_filter.
    + by apply projVposs_sum_orthogonal.
Qed.

(** X6.  The scaled local operator [Ms = mus Aposs mus] and the
    preconditioner of [ksp_Ms], [invmus invAposs invmus], are
    pseudo-inverse to each other: [Ms (ksp_Ms.solve (Ms x)) = Ms x]
    (the check of lines 575-583); without [PCNew_switchtoASM] the local
    solver [ksp_Atildes] of the preconditioner is this one. *)
Theorem Ms_solve_round_trip
    sv opts rank is_A work mult_max As Bs eps n x y :
  length is_A = n → Forall (λ gi, work !!! gi ≠ 0) is_A →
  length Bs = n → Forall (λ p, length p.2 = n) eps →
  length x = n → length y = n →
  (∀ v w, length v = n → length w = n →
     Vec.dot (AIJ.mult Bs v) w = Vec.dot v (AIJ.mult Bs w)) →
  Forall (λ p, p.1 < 0 → AIJ.mult Bs p.2 = Vec.rmul p.1 p.2) eps →
  orthonormal (snd <$> filter (λ p, p.1 < 0) eps) →
  (∀ u, length u = n → mumps sv Bs (AIJ.mult Bs u) = u) →
  let L := (PCNew.init_local sv opts rank is_A work mult_max As Bs eps).1 in
  ∃ t s,
    Mat_mult (PCNew.Ms L) x y = Some t
    ∧ KSP_solve (PCNew.ksp_Ms L) t y = Some s
    ∧ Mat_mult (PCNew.Ms L) s y = Some t
    ∧ (PCNew.PCNew_switchtoASM opts = false →
       PCNew.Atildes L = PCNew.Ms L
       ∧ KSP_solve (PCNew.ksp_Atildes L) t y = Some s).
Proof.
  intros His Hnz HBs Heps Hx Hy Hsym Heig Hon Hsolve L.
  set (negs := filter (λ p, p.1 < 0) eps).
  assert (Forall (λ p, length p.2 = n) negs) as Hnegs by by apply Forall_filter.
  assert (Forall (λ v, length v = n) (snd <$> negs)) as Hvs by by apply Forall_fmap.
  destruct (init_local_mus_inverse sv opts rank is_A work mult_max As Bs eps Hnz)
    as (Hlmus & Him & Hmi).
  fold L in Hlmus, Him, Hmi. rewrite His in Hlmus, Him, Hmi.
  destruct (init_local_Ms sv opts rank is_A work mult_max As Bs eps)
    as (HMs & HkMs & _ & HBNN & _).
  fold L in HMs, HkMs, HBNN.
  set (q := projVposs_sum n (snd <$> negs) (Vec.mul x (PCNew.mus L))).
  set (a := AIJ.mult Bs q).
  assert (length (Vec.mul x (PCNew.mus L)) = n) as Hlu.
  { unfold Vec.mul. rewrite length_zip_with. lia. }
  assert (length q = n) as Hlq by by apply length_projVposs_sum.
  assert (length a = n) as Hla by (unfold a; by rewrite length_AIJ_mult).
  assert (Forall (λ v, Vec.dot q v = 0) (snd <$> negs)) as Hqorth
    by by apply projVposs_sum_orthogonal.
  assert (∀ u y', length u = n → length y' = n →
            Mat_mult (PCNew.Aposs L) u y'
            = Some (AIJ.mult Bs (projVposs_sum n (snd <$> negs) u))) as HAposs.
  { intros u y' Hu Hy'. unfold L.
    rewrite (init_local_Aposs_mult _ _ _ _ _ _ _ _ _ n) by done.
    f_equal. by apply Aposs_Bs_projVposs. }
  assert (∀ u y', length y' = n →
            Mat_mult (PCNew.invAposs L) u y'
            = Some (projVposs_sum n (snd <$> negs)
                      (mumps sv Bs (projVposs_sum n (snd <$> negs) u)))) as HinvA.
  { intros u y' Hy'. unfold L. by apply init_local_invAposs_mult. }
  assert (Mat_mult (PCNew.Ms L) x y = Some (Vec.mul a (PCNew.mus L))) as Ht.
  { rewrite HMs. simpl. unfold scaledmats_ctx_mult, Vec.copy.
    rewrite HAposs by done. done. }
  assert (Ctx_apply (scaledmats_ctx (PCNew.invAposs L) (PCNew.invmus L)
                       (PCNew.invmus L)) (Vec.mul a (PCNew.mus L)) y
          = Some (Vec.mul q (PCNew.invmus L))) as Hs.
  { simpl. unfold scaledmats_ctx_apply, scaledmats_ctx_mult, Vec.copy.
    rewrite mul_assoc, Hmi, <-Hla, mul_ones_r, HinvA by done. simpl.
    rewrite imul_mul. do 2 f_equal.
    apply (invAposs_Bs n); try done. by apply eigen_filter. }
  exists (Vec.mul a (PCNew.mus L)), (Vec.mul q (PCNew.invmus L)).
  split_and!.
  - exact Ht.
  - rewrite HkMs. exact Hs.
  - rewrite HMs. simpl. unfold scaledmats_ctx_mult, Vec.copy.
    rewrite mul_assoc, Him, <-Hlq, mul_ones_r, HAposs by done. simpl.
    rewrite imul_mul. do 2 f_equal. unfold a. f_equal.
    by apply projVposs_sum_fixed.
  - intros HASM. destruct (HBNN HASM) as (HAt & HkAt & _).
    split; [done|]. rewrite HkAt. exact Hs.
Qed.

(** X7.  Edge case of [PCNew.__init__]: when no converged eigenvalue is
    negative, [Anegs] and [projVnegs] are the zero operator, [Aposs] is
    [Bs], [projVposs] is the identity, the solve of [ksp_Aposs] is the
    direct solve of [Bs], and without [PCNew_switchtoASM] the rank
    contributes no vector to the minimal coarse space; the rank
    reports 0 negative eigenvalues. *)
Theorem no_negative_eigenvalue
    sv opts rank is_A work mult_max As Bs eps n x y :
  length Bs = n → Forall (λ p, length p.2 = n) eps →
  length x = n → length y = n →
  Forall (λ p, ¬ p.1 < 0) eps →
  let built := PCNew.init_local sv opts rank is_A work mult_max As Bs eps in
  let L := built.1 in
  PCNew.nnegs L = 0%nat
  ∧ PCNew.Dposs (PCNew.diag L) = fst <$> eps
  ∧ Mat_mult (PCNew.Anegs L) x y = Some (Vec.zeros n)
  ∧ Mat_mult (PCNew.projVnegs L) x y = Some (Vec.zeros n)
  ∧ Mat_mult (PCNew.Aposs L) x y = Some (AIJ.mult Bs x)
  ∧ Mat_mult (PCNew.projVposs L) x y = Some x
  ∧ (length (mumps sv Bs x) = n →
     KSP_solve (PCNew.ksp_Aposs L) x y = Some (mumps sv Bs x))
  ∧ (PCNew.PCNew_switchtoASM opts = false → PCNew.minV0s L = [])
  ∧ (rank, PCNew.msg_negative rank (length eps) 0 (PCNew.PCNew_Bs_nev opts))
    ∈ built.2.
Proof.
  intros HBs Heps Hx Hy Hpos built L.
  assert (filter (λ p : Qc * Vec.t, p.1 < 0) eps = []) as Hnone.
  { clear -Hpos. induction Hpos as [|p eps Hp _ IH]; [done|].
    rewrite filter_cons. by destruct (decide (p.1 < 0)). }
  assert (filter (λ p : Qc * Vec.t, ¬ p.1 < 0) eps = eps) as Hall.
  { clear -Hpos. induction Hpos as [|p eps Hp _ IH]; [done|].
    rewrite filter_cons. destruct (decide (¬ p.1 < 0)); [by rewrite IH|done]. }
  destruct (init_local_objects sv opts rank is_A work mult_max As Bs eps)
    as (Hd & HAn & HAp & HPn & HPp & HinvA & Hksp).
  fold built in Hd, HAn, HAp, HPn, HPp, HinvA, Hksp.
  fold L in Hd, HAn, HAp, HPn, HPp, HinvA, Hksp.
  rewrite diagonalize_filter, Hnone, Hall in Hd. simpl in Hd.
  assert (Anegs_sum n eps x = Vec.zeros n) as HAs.
  { unfold Anegs_sum. by rewrite Hnone. }
  assert (∀ u, projVposs_sum n [] u = Vec.sub u (Vec.zeros n)) as HQ by done.
  assert (∀ u y', length y' = n →
            Mat_mult (PCNew.projVposs L) u y' = Some (Vec.sub u (Vec.zeros n)))
    as Hproj.
  { intros u y' Hy'. unfold L, built.
    rewrite (init_local_projVposs_mult _ _ _ _ _ _ _ _ _ n) by done.
    by rewrite Hnone. }
  split_and!.
  - unfold L, built, PCNew.init_local.
    destruct (PCNew.PCNew_switchtoASM opts); simpl;
      by rewrite diagonalize_filter, Hnone.
  - by rewrite Hd.
  - unfold L, built. rewrite (init_local_Anegs_mult _ _ _ _ _ _ _ _ _ n) by done.
    by rewrite HAs.
  - rewrite HPn, Hd. simpl. f_equal. unfold projVnegs_ctx_mult. simpl.
    by rewrite set_zeros, Hy.
  - unfold L, built. rewrite (init_local_Aposs_mult _ _ _ _ _ _ _ _ _ n) by done.
    rewrite HAs, <-HBs, <-(length_AIJ_mult Bs x). by rewrite add_zeros_r.
  - rewrite Hproj by done. by rewrite <-Hx, sub_zeros.
  - intros Hlen. rewrite Hksp. simpl. unfold invAposs_ctx_apply.
    rewrite Hproj by (by rewrite length_duplicate). simpl.
    rewrite Hproj by done.
    rewrite <-Hx at 1. rewrite sub_zeros, <-Hlen. by rewrite sub_zeros.
  - intros HASM. unfold L, built, PCNew.init_local. rewrite HASM. simpl.
    by rewrite diagonalize_filter, Hnone.
  - unfold built, PCNew.init_local.
    destruct (PCNew.PCNew_switchtoASM opts); simpl;
      rewrite diagonalize_filter, Hnone; simpl;
      rewrite !elem_of_app, !elem_of_cons; auto.
Qed.

(** X8.  The loop of lines 361-372 sorts the converged eigenvalues by
    sign: the four lists of the negative part have the same length,
    [nnegs], which with the length of [Dposs] is the number of converged
    eigenpairs; the entries of [Dnegs] are positive, those of [Dposs]
    are not negative, [DVnegs[i] = Dnegs[i] * Vnegs[i]] and
    [invmusVnegs[i] = invmus * Vnegs[i]]; the rank always prints the
    count of line 373. *)
Theorem diagonalize_invariants sv opts rank is_A work mult_max As Bs eps :
  let built := PCNew.init_local sv opts rank is_A work mult_max As Bs eps in
  let L := built.1 in
  let d := PCNew.diag L in
  length (PCNew.Dnegs d) = PCNew.nnegs L
  ∧ length (PCNew.Vnegs d) = PCNew.nnegs L
  ∧ length (PCNew.DVnegs d) = PCNew.nnegs L
  ∧ length (PCNew.invmusVnegs d) = PCNew.nnegs L
  ∧ (PCNew.nnegs L + length (PCNew.Dposs d) = length eps)%nat
  ∧ Forall (λ e, 0 < e) (PCNew.Dnegs d)
  ∧ Forall (λ e, 0 ≤ e) (PCNew.Dposs d)
  ∧ PCNew.DVnegs d = zip_with Vec.rmul (PCNew.Dnegs d) (PCNew.Vnegs d)
  ∧ PCNew.invmusVnegs d = Vec.mul (PCNew.invmus L) <$> PCNew.Vnegs d
  ∧ (rank, PCNew.msg_negative rank (length eps) (PCNew.nnegs L)
             (PCNew.PCNew_Bs_nev opts)) ∈ built.2.
Proof.
  intros built L d.
  assert (PCNew.nnegs L = length (filter (λ p : Qc * Vec.t, p.1 < 0) eps)) as Hn.
  { unfold L, built, PCNew.init_local.
    destruct (PCNew.PCNew_switchtoASM opts); simpl;
      rewrite diagonalize_filter; simpl; by rewrite length_fmap. }
  destruct (init_local_objects sv opts rank is_A work mult_max As Bs eps)
    as (Hd & _).
  destruct (init_local_mus sv opts rank is_A work mult_max As Bs eps)
    as (_ & Hinv).
  fold built in Hd, Hinv. fold L in Hd, Hinv. fold d in Hd.
  rewrite diagonalize_filter in Hd. rewrite Hn, Hd, Hinv. simpl.
  rewrite !length_fmap. split_and!; try done.
  - apply length_filter_split.
  - apply Forall_fmap, Forall_forall. intros p [Hp _]%list_elem_of_filter. simpl.
    replace (-1 * p.1) with (- p.1) by ring.
    apply Qclt_minus_iff in Hp. by rewrite Qcplus_0_l in Hp.
  - apply Forall_fmap, Forall_forall. intros p [Hp _]%list_elem_of_filter. simpl.
    by apply Qcnot_lt_le.
  - generalize (filter (λ p : Qc * Vec.t, p.1 < 0) eps). intros l.
    induction l as [|p l IH]; [done|]. rewrite !fmap_cons. simpl. by f_equal.
  - by rewrite <-list_fmap_compose.
  - unfold built, PCNew.init_local.
    destruct (PCNew.PCNew_switchtoASM opts); simpl;
      rewrite diagonalize_filter; simpl; rewrite ?length_fmap;
      rewrite !elem_of_app, !elem_of_cons; auto.
Qed.

(** ** The global operators *)

Section scatter.
Implicit Types (is_A : Scatter.IS) (iss : list Scatter.IS) (g x l : Vec.t)
  (ls : list Vec.t).

Lemma dot_alter_add g x gi c :
  length g = length x →
  Vec.dot (alter (λ a, a + c) gi g) x = Vec.dot g x + c * (x !!! gi).
Proof.
  revert x gi. induction g as [|a g IH]; intros [|b x] gi Hl; try done.
  - change (([] : Vec.t) !!! gi) with (0 : Qc). unfold Vec.dot. simpl. ring.
  - injection Hl as Hl. destruct gi as [|gi].
    + change (alter (λ a0, a0 + c) 0%nat (a :: g)) with ((a + c) :: g).
      rewrite !dot_cons. change ((b :: x) !!! 0%nat) with b. ring.
    + change (alter (λ a0, a0 + c) (S gi) (a :: g))
        with (a :: alter (λ a0, a0 + c) gi g).
      rewrite !dot_cons, IH by done.
      change ((b :: x) !!! S gi) with (x !!! gi). ring.
Qed.

Lemma length_add_local is_A l g :
  length (Scatter.add_local is_A l g) = length g.
Proof.
  unfold Scatter.add_local. revert l g.
  induction is_A as [|gi is_A IH]; intros [|li l] g; try done.
  simpl. by rewrite IH, length_alter.
Qed.

Lemma length_forward_add iss ls g :
  length (Scatter.forward_add iss ls g) = length g.
Proof.
  unfold Scatter.forward_add. revert ls g.
  induction iss as [|is_A iss IH]; intros [|l ls] g; try done.
  simpl. by rewrite IH, length_add_local.
Qed.

(** Adding a local vector into a parallel one is the transpose of
    reading the local part of a parallel vector. *)
Lemma dot_add_local is_A l g x :
  length g = length x →
  Vec.dot (Scatter.add_local is_A l g) x
  = Vec.dot g x + Vec.dot l (Scatter.reverse_insert is_A x).
Proof.
  unfold Scatter.add_local, Scatter.reverse_insert. revert l g.
  induction is_A as [|gi is_A IH]; intros [|li l] g Hl; simpl;
    rewrite ?dot_nil_r; try (unfold Vec.dot; simpl; ring).
  rewrite IH by (by rewrite length_alter).
  rewrite dot_alter_add, dot_cons by done. by rewrite Qcplus_assoc.
Qed.

Lemma dot_forward_add iss ls g x :
  length g = length x →
  Vec.dot (Scatter.forward_add iss ls g) x
  = Vec.dot g x
    + sumQ (zip_with (λ is_A l, Vec.dot l (Scatter.reverse_insert is_A x)) iss ls).
Proof.
  unfold Scatter.forward_add. revert ls g.
  induction iss as [|is_A iss IH]; intros [|l ls] g Hl;
    try (unfold sumQ; simpl; ring).
  change (foldl _ g (zip (is_A :: iss) (l :: ls)))
    with (foldl (λ g0 '(is_A0, l0), Scatter.add_local is_A0 l0 g0)
            (Scatter.add_local is_A l g) (zip iss ls)).
  rewrite IH by (by rewrite length_add_local).
  change (zip_with ?f (is_A :: iss) (l :: ls))
    with (f is_A l :: zip_with f iss ls).
  rewrite dot_add_local, sumQ_cons by done. ring.
Qed.

Lemma alter_add_add g1 g2 gi (a b : Qc) :
  alter (λ c, c + (a + b)) gi (Vec.add g1 g2)
  = Vec.add (alter (λ c, c + a) gi g1) (alter (λ c, c + b) gi g2).
Proof.
  unfold Vec.add. revert g2 gi.
  induction g1 as [|c g1 IH]; intros [|d g2] [|gi]; simpl; try done.
  - f_equal. ring.
  - f_equal. apply IH.
Qed.

Lemma add_local_add is_A l1 l2 g1 g2 :
  length l1 = length l2 →
  Scatter.add_local is_A (Vec.add l1 l2) (Vec.add g1 g2)
  = Vec.add (Scatter.add_local is_A l1 g1) (Scatter.add_local is_A l2 g2).
Proof.
  unfold Scatter.add_local. revert l1 l2 g1 g2.
  induction is_A as [|gi is_A IH]; intros [|a l1] [|b l2] g1 g2 Hl;
    simplify_eq/=; try done.
  change (Vec.add (a :: l1) (b :: l2)) with ((a + b) :: Vec.add l1 l2). simpl.
  rewrite alter_add_add. by apply IH.
Qed.

Lemma forward_add_add iss ls1 ls2 g1 g2 :
  Forall2 (λ l1 l2, length l1 = length l2) ls1 ls2 →
  Scatter.forward_add iss (zip_with Vec.add ls1 ls2) (Vec.add g1 g2)
  = Vec.add (Scatter.forward_add iss ls1 g1) (Scatter.forward_add iss ls2 g2).
Proof.
  unfold Scatter.forward_add. intros Hl. revert iss g1 g2.
  induction Hl as [|l1 l2 ls1 ls2 H12 _ IH]; intros [|is_A iss] g1 g2;
    simpl; try done.
  rewrite add_local_add by done. apply IH.
Qed.

End scatter.

Section global_operators.
Implicit Types (is_A : Scatter.IS) (iss : list Scatter.IS) (x y z : Vec.t).

(** The local term of [Aneg_ctx.mult] on a rank built by
    [PCNew.__init__]. *)
Lemma init_locals_lookup sv opts A_mpiaij work As0 Bs0 iss eps i :
  length As0 = length iss → length Bs0 = length iss →
  length eps = length iss → (i < length iss)%nat →
  ∃ is_A As Bs e,
    iss !! i = Some is_A ∧ As0 !! i = Some As ∧ Bs0 !! i = Some Bs
    ∧ eps !! i = Some e
    ∧ PCNew.locals (PCNew.init sv opts A_mpiaij work As0 Bs0 iss eps).1.1 !! i
      = Some (PCNew.init_local sv opts i is_A work (Vec.max work) As Bs e).1.
Proof.
  intros HAs HBs He Hi.
  destruct (lookup_lt_is_Some_2 iss i) as [is_A His]; [done|].
  destruct (lookup_lt_is_Some_2 As0 i) as [As HAs']; [lia|].
  destruct (lookup_lt_is_Some_2 Bs0 i) as [Bs HBs']; [lia|].
  destruct (lookup_lt_is_Some_2 eps i) as [e He']; [lia|].
  exists is_A, As, Bs, e. split_and!; try done.
  by destruct (init_rank sv opts A_mpiaij work As0 Bs0 iss eps i is_A As Bs e).
Qed.

Lemma length_init_locals sv opts A_mpiaij work As0 Bs0 iss eps :
  length As0 = length iss → length Bs0 = length iss →
  length eps = length iss →
  length (PCNew.locals (PCNew.init sv opts A_mpiaij work As0 Bs0 iss eps).1.1)
  = length iss.
Proof.
  intros HAs HBs He. unfold PCNew.init. simpl.
  rewrite length_fmap, length_imap, !length_zip. lia.
Qed.

Lemma Aneg_ctx_mult_sum sv opts A_mpiaij work As0 Bs0 iss eps x y :
  length As0 = length iss → length Bs0 = length iss →
  length eps = length iss →
  Forall2 (λ is_A e, Forall (λ p, length p.2 = length is_A) e) iss eps →
  PCNew.Aneg_ctx_mult iss
    (PCNew.diag
       <$> PCNew.locals (PCNew.init sv opts A_mpiaij work As0 Bs0 iss eps).1.1)
    x y
  = Scatter.forward_add iss
      (zip_with (λ is_A e,
                   Anegs_sum (length is_A) e (Scatter.reverse_insert is_A x))
         iss eps)
      (Vec.zeros (length y)).
Proof.
  intros HAs HBs He Hsz. unfold PCNew.Aneg_ctx_mult.
  rewrite set_zeros. f_equal.
  apply list_eq. intros i.
  rewrite list_lookup_fmap, !lookup_zip_with, list_lookup_fmap.
  destruct (decide (i < length iss)%nat) as [Hi|Hi].
  - destruct (init_locals_lookup sv opts A_mpiaij work As0 Bs0 iss eps i)
      as (is_A & As & Bs & e & His & _ & _ & He' & HL); try done.
    rewrite His, HL, He'. simpl. f_equal.
    destruct (init_local_objects sv opts i is_A work (Vec.max work) As Bs e)
      as (Hd & _).
    rewrite Hd, diagonalize_filter. simpl.
    assert (Forall (λ p, length p.2 = length is_A) e) as Hse.
    { eapply Forall2_lookup_lr in Hsz; done. }
    rewrite <-(Anegs_ctx_mult_sum (length is_A) e
                 (Scatter.reverse_insert is_A x) (Scatter.reverse_insert is_A x))
      by (done || apply length_fmap).
    done.
  - rewrite (lookup_ge_None_2 iss) by lia. done.
Qed.

End global_operators.

Section global_splitting.
Implicit Types (is_A : Scatter.IS) (iss : list Scatter.IS) (x y z : Vec.t)
  (eps : list PCNew.EPS).

Lemma Anegs_sum_symmetric n (e : PCNew.EPS) x z :
  Forall (λ p, length p.2 = n) e →
  Vec.dot (Anegs_sum n e x) z = Vec.dot x (Anegs_sum n e z).
Proof.
  intros He. rewrite (dot_comm x), !dot_Anegs_sum by done.
  apply sumQ_fmap_ext. intros p _. simpl.
  rewrite (dot_comm z p.2), (dot_comm p.2 z), (dot_comm p.2 x). ring.
Qed.

Lemma Anegs_sum_nonneg n (e : PCNew.EPS) x :
  Forall (λ p, length p.2 = n) e → 0 ≤ Vec.dot (Anegs_sum n e x) x.
Proof.
  intros He. rewrite Anegs_sum_lincomb by done.
  apply Anegs_energy_nonneg; [by apply Forall_filter|].
  apply Forall_forall. by intros p [Hp _]%list_elem_of_filter.
Qed.

Lemma zip_with_zip_with_r {A B C D} (G : A → C → D) (F : A → B → C)
    (l : list A) (k : list B) :
  zip_with G l (zip_with F l k) = zip_with (λ a b, G a (F a b)) l k.
Proof.
  revert k. induction l as [|a l IH]; intros [|b k]; simpl; try done.
  by rewrite IH.
Qed.

Lemma length_Aneg_sum iss eps x : length (Aneg_sum iss eps x) = length x.
Proof. unfold Aneg_sum. by rewrite length_forward_add, length_zeros. Qed.

Lemma dot_Aneg_sum iss eps x z :
  length z = length x →
  Vec.dot (Aneg_sum iss eps x) z
  = sumQ (zip_with (λ is_A e,
                      Vec.dot (Anegs_sum (length is_A) e
                                 (Scatter.reverse_insert is_A x))
                        (Scatter.reverse_insert is_A z)) iss eps).
Proof.
  intros Hz. unfold Aneg_sum.
  rewrite dot_forward_add by (by rewrite length_zeros).
  rewrite dot_zeros_l, zip_with_zip_with_r. ring.
Qed.

Lemma Aneg_sum_symmetric iss eps x z :
  Forall2 (λ is_A e, Forall (λ p, length p.2 = length is_A) e) iss eps →
  length z = length x →
  Vec.dot (Aneg_sum iss eps x) z = Vec.dot x (Aneg_sum iss eps z).
Proof.
  intros Hsz Hz. rewrite (dot_comm x), !dot_Aneg_sum by done.
  f_equal. clear Hz. induction Hsz as [|is_A e iss eps He _ IH]; [done|].
  simpl. rewrite IH. f_equal.
  rewrite Anegs_sum_symmetric by done. apply dot_comm.
Qed.

Lemma Aneg_sum_nonneg iss eps x :
  Forall2 (λ is_A e, Forall (λ p, length p.2 = length is_A) e) iss eps →
  0 ≤ Vec.dot (Aneg_sum iss eps x) x.
Proof.
  intros Hsz. rewrite dot_Aneg_sum by done.
  apply sumQ_nonneg. induction Hsz as [|is_A e iss eps He _ IH]; [done|].
  simpl. constructor; [|exact IH]. by apply Anegs_sum_nonneg.
Qed.

Lemma init_Apos sv opts A_mpiaij work As0 Bs0 iss eps x y :
  length As0 = length iss → length Bs0 = length iss →
  length eps = length iss →
  Forall2 (λ is_A e, Forall (λ p, length p.2 = length is_A) e) iss eps →
  length A_mpiaij = length x →
  PCNew.Apos (PCNew.init sv opts A_mpiaij work As0 Bs0 iss eps).1.1 x y
  = Vec.add (AIJ.mult A_mpiaij x) (Aneg_sum iss eps x).
Proof.
  intros HAs HBs He Hsz HA.
  change (PCNew.Apos (PCNew.init sv opts A_mpiaij work As0 Bs0 iss eps).1.1 x y)
    with (PCNew.Apos_ctx_mult A_mpiaij
            (PCNew.Aneg_ctx_mult iss
               (PCNew.diag <$> PCNew.locals
                  (PCNew.init sv opts A_mpiaij work As0 Bs0 iss eps).1.1)) x y).
  unfold PCNew.Apos_ctx_mult.
  rewrite Aneg_ctx_mult_sum by done.
  by rewrite iadd_add, length_duplicate.
Qed.

End global_splitting.

(** X9.  The global operators of [PCNew.__init__]: [Apos], built from
    [Apos_ctx] and [Aneg_ctx], maps [x] to
    [A x + Σ_i R_iᵀ Anegs_i R_i x], whatever the output vector held; the
    added term [Aneg x] is symmetric and positive semi-definite, so the
    energy of [Apos] is the energy of [A] plus a term that is not
    negative. *)
Theorem Apos_global_splitting
    sv opts A_mpiaij work As0 Bs0 iss eps x z y :
  length As0 = length iss → length Bs0 = length iss →
  length eps = length iss →
  Forall2 (λ is_A e, Forall (λ p, length p.2 = length is_A) e) iss eps →
  length A_mpiaij = length x → length z = length x →
  let self := (PCNew.init sv opts A_mpiaij work As0 Bs0 iss eps).1.1 in
  PCNew.Apos self x y = Vec.add (AIJ.mult A_mpiaij x) (Aneg_sum iss eps x)
  ∧ PCNew.Aneg_ctx_mult iss (PCNew.diag <$> PCNew.locals self) x y
    = Scatter.forward_add iss
        (zip_with (λ is_A e,
                     Anegs_sum (length is_A) e (Scatter.reverse_insert is_A x))
           iss eps)
        (Vec.zeros (length y))
  ∧ 0 ≤ Vec.dot (Aneg_sum iss eps x) x
  ∧ Vec.dot (Aneg_sum iss eps x) z = Vec.dot x (Aneg_sum iss eps z)
  ∧ Vec.dot (PCNew.Apos self x y) x
    = Vec.dot (AIJ.mult A_mpiaij x) x + Vec.dot (Aneg_sum iss eps x) x
  ∧ Vec.dot (AIJ.mult A_mpiaij x) x ≤ Vec.dot (PCNew.Apos self x y) x.
Proof.
  intros HAs HBs He Hsz HA Hz self.
  assert (0 ≤ Vec.dot (Aneg_sum iss eps x) x) as Hnn by by apply Aneg_sum_nonneg.
  assert (Vec.dot (PCNew.Apos self x y) x
          = Vec.dot (AIJ.mult A_mpiaij x) x + Vec.dot (Aneg_sum iss eps x) x)
    as Hen.
  { unfold self. rewrite init_Apos by done.
    apply dot_add_l. by rewrite length_AIJ_mult, length_Aneg_sum. }
  split_and!.
  - by apply init_Apos.
  - by apply Aneg_ctx_mult_sum.
  - exact Hnn.
  - by apply Aneg_sum_symmetric.
  - exact Hen.
  - rewrite Hen. rewrite <-(Qcplus_0_r (Vec.dot (AIJ.mult A_mpiaij x) x)) at 1.
    by apply Qcplus_le_compat.
Qed.

Section debug.
Implicit Types (is_A : Scatter.IS) (iss : list Scatter.IS) (x y z : Vec.t)
  (eps : list PCNew.EPS).

Lemma init_Apos_debug sv opts A_mpiaij work As0 Bs0 iss eps x y :
  length As0 = length iss → length Bs0 = length iss →
  length eps = length iss →
  Forall2 (λ is_A e, Forall (λ p, length p.2 = length is_A) e) iss eps →
  Forall2 (λ is_A (Bs : AIJ.t), length Bs = length is_A) iss Bs0 →
  length y = length x →
  Apos_debug_ctx_mult iss
    (PCNew.Aposs
       <$> PCNew.locals (PCNew.init sv opts A_mpiaij work As0 Bs0 iss eps).1.1)
    x y
  = Some (Vec.add (Bs_sum iss Bs0 x) (Aneg_sum iss eps x)).
Proof.
  intros HAs HBs He Hsz HszB Hy. unfold Apos_debug_ctx_mult.
  set (ls1 := zip_with (λ is_A Bs, AIJ.mult Bs (Scatter.reverse_insert is_A x))
                iss Bs0).
  set (ls2 := zip_with (λ is_A e, Anegs_sum (length is_A) e
                                    (Scatter.reverse_insert is_A x)) iss eps).
  assert (length ls1 = length iss) as Hl1
    by (unfold ls1; rewrite length_zip_with; lia).
  assert (length ls2 = length iss) as Hl2
    by (unfold ls2; rewrite length_zip_with; lia).
  pose proof (length_init_locals sv opts A_mpiaij work As0 Bs0 iss eps
                HAs HBs He) as HlL.
  assert (mapM (λ '(is_A, Aposs),
                  Mat_mult Aposs (Scatter.reverse_insert is_A x)
                    (Vec.duplicate (Vec.zeros (length is_A))))
            (zip iss (PCNew.Aposs <$> PCNew.locals
               (PCNew.init sv opts A_mpiaij work As0 Bs0 iss eps).1.1))
          = Some (zip_with Vec.add ls1 ls2)) as ->.
  { apply mapM_Some, Forall2_same_length_lookup_2.
    - rewrite length_zip, length_fmap, length_zip_with. lia.
    - intros i [is_A' M] v Hi Hv.
      apply lookup_zip_with_Some in Hi as (is_A'' & M' & Heq & His & HM).
      injection Heq as -> ->.
      destruct (init_locals_lookup sv opts A_mpiaij work As0 Bs0 iss eps i)
        as (is_A & As & Bs & e & His' & _ & HBs' & He' & HL); try done.
      { by eapply lookup_lt_Some. }
      assert (Forall (λ p, length p.2 = length is_A) e) as Hse.
      { eapply Forall2_lookup_lr in Hsz; done. }
      assert (length Bs = length is_A) as HlB.
      { eapply Forall2_lookup_lr in HszB; done. }
      rewrite list_lookup_fmap, HL in HM.
      assert (is_A'' = is_A) as -> by congruence.
      injection HM as <-.
      rewrite (init_local_Aposs_mult _ _ _ _ _ _ _ _ _ (length is_A))
        by (done || apply length_fmap).
      f_equal.
      apply lookup_zip_with_Some in Hv as (v1 & v2 & -> & Hv1 & Hv2).
      unfold ls1 in Hv1. unfold ls2 in Hv2.
      rewrite lookup_zip_with, His', HBs' in Hv1.
      rewrite lookup_zip_with, His', He' in Hv2.
      simpl in Hv1, Hv2. congruence. }
  simpl. f_equal. unfold Bs_sum, Aneg_sum. fold ls1 ls2.
  rewrite <-forward_add_add.
  - f_equal. rewrite set_zeros, Hy.
    unfold Vec.zeros, Vec.add. rewrite zip_with_replicate. f_equal.
  - apply Forall2_same_length_lookup_2; [lia|].
    intros i v1 v2 Hv1 Hv2.
    unfold ls1 in Hv1. unfold ls2 in Hv2.
    apply lookup_zip_with_Some in Hv1 as (is_A & Bs & -> & His & HBs').
    apply lookup_zip_with_Some in Hv2 as (is_A' & e & -> & His' & He').
    simplify_eq.
    rewrite length_AIJ_mult, length_Anegs_sum.
    + eapply Forall2_lookup_lr in HszB; done.
    + eapply Forall2_lookup_lr in Hsz; done.
Qed.

End debug.

(** X10.  [Apos_debug_ctx] applies the local operators [Aposs] rank by
    rank and adds the results up: it returns
    [Σ_i R_iᵀ Bs_i R_i x + Σ_i R_iᵀ Anegs_i R_i x].  Where [A x] is the
    sum [Σ_i R_iᵀ Bs_i R_i x] of the local matrices, this is what
    [Apos] returns (the comparison of lines 584-594). *)
Theorem Apos_debug_agrees
    sv opts A_mpiaij work As0 Bs0 iss eps x y y' :
  length As0 = length iss → length Bs0 = length iss →
  length eps = length iss →
  Forall2 (λ is_A e, Forall (λ p, length p.2 = length is_A) e) iss eps →
  Forall2 (λ is_A (Bs : AIJ.t), length Bs = length is_A) iss Bs0 →
  length A_mpiaij = length x → length y' = length x →
  let self := (PCNew.init sv opts A_mpiaij work As0 Bs0 iss eps).1.1 in
  Apos_debug_ctx_mult iss (PCNew.Aposs <$> PCNew.locals self) x y'
  = Some (Vec.add (Bs_sum iss Bs0 x) (Aneg_sum iss eps x))
  ∧ (AIJ.mult A_mpiaij x = Bs_sum iss Bs0 x →
     Apos_debug_ctx_mult iss (PCNew.Aposs <$> PCNew.locals self) x y'
     = Some (PCNew.Apos self x y)).
Proof.
  intros HAs HBs He Hsz HszB HA Hy' self.
  pose proof (init_Apos_debug sv opts A_mpiaij work As0 Bs0 iss eps x y'
                HAs HBs He Hsz HszB Hy') as Hd.
  split; [exact Hd|].
  intros Hasm. unfold self. rewrite Hd, init_Apos by done. by rewrite Hasm.
Qed.

(** ** [PCBNN.MP_mult] *)

Section MP_mult.
Implicit Types (w : World) (x r : loc) (y : list loc)
  (is_A : Scatter.IS) (iss : list Scatter.IS) (g l : Vec.t) (ls : list Vec.t).

Lemma add_local_zeros is_A l g :
  Forall (λ a, a = 0) l → Scatter.add_local is_A l g = g.
Proof.
  unfold Scatter.add_local. revert l g.
  induction is_A as [|gi is_A IH]; intros [|li l] g Hl; try done.
  apply Forall_cons in Hl as [-> Hl]. simpl.
  rewrite list_alter_id by (intros; ring). by apply IH.
Qed.

Lemma forward_add_zeros iss ls g :
  Forall (Forall (λ a, a = 0)) ls → Scatter.forward_add iss ls g = g.
Proof.
  unfold Scatter.forward_add. intros Hls. revert iss g.
  induction Hls as [|l ls Hl _ IH]; intros [|is_A iss] g; try done.
  simpl. rewrite add_local_zeros by done. apply IH.
Qed.

(** When one rank only holds a vector that is not zero, the scatter
    adds that vector. *)
Lemma forward_add_single iss ls g i is_A l :
  iss !! i = Some is_A → ls !! i = Some l →
  (∀ j l', j ≠ i → ls !! j = Some l' → Forall (λ a, a = 0) l') →
  Scatter.forward_add iss ls g = Scatter.add_local is_A l g.
Proof.
  revert ls i g.
  induction iss as [|is0 iss IH]; intros [|l0 ls] i g His Hl Hz; try done.
  destruct i as [|i]; simplify_eq/=.
  - change (Scatter.forward_add (is_A :: iss) (l :: ls) g)
      with (Scatter.forward_add iss ls (Scatter.add_local is_A l g)).
    apply forward_add_zeros, Forall_lookup. intros j l' Hj.
    by apply (Hz (S j)).
  - change (Scatter.forward_add (is0 :: iss) (l0 :: ls) g)
      with (Scatter.forward_add iss ls (Scatter.add_local is0 l0 g)).
    rewrite (add_local_zeros is0 l0) by (by apply (Hz 0%nat)).
    apply (IH ls i); try done.
    intros j l' Hj Hl'. apply (Hz (S j)); [lia|done].
Qed.

Lemma scatter_forward_works_run iss a w r v :
  vecs w !! r = Some v →
  scatter_forward iss a r w
  = Some (tt, with_vecs
                <[r := Scatter.forward_add iss
                         (match a with
                          | Works_1 => works_1 w
                          | Works_2 => works_2 w
                          end) v]> w).
Proof.
  intros H. unfold scatter_forward.
  erewrite bind_Some; [|reflexivity].
  rewrite (bind_Some _ _ _ _ _ (get_vec_run _ _ _ H)).
  by apply (put_vec_run _ _ v).
Qed.

(** The rule of the [for] loop over a range, with an invariant. *)
Lemma for_seq_run (body : nat → M unit) (Inv : nat → World → Prop) m k w :
  (∀ i w1, (k ≤ i < k + m)%nat → Inv i w1 →
     ∃ w2, body i w1 = Some (tt, w2) ∧ Inv (S i) w2) →
  Inv k w →
  ∃ w', for_ (seq k m) body w = Some (tt, w') ∧ Inv (k + m)%nat w'.
Proof.
  revert k w. induction m as [|m IH]; intros k w Hstep Hk.
  - exists w. by rewrite Nat.add_0_r.
  - destruct (Hstep k w) as (w2 & Hrun & HS); [lia|done|].
    destruct (IH (S k) w2) as (w' & Hrun' & Hinv).
    { intros i w1 Hi. apply Hstep. lia. }
    { done. }
    exists w'. split.
    + simpl. by rewrite (bind_Some _ _ _ _ _ Hrun).
    + by replace (k + S m)%nat with (S k + m)%nat by lia.
Qed.

(** A loop raises when one of its iterations raises whatever it runs on. *)
Lemma for_raises {A} (body : A → M unit) (l : list A) a w :
  a ∈ l → (∀ w1, body a w1 = None) → for_ l body w = None.
Proof.
  intros Ha Hnone. revert w.
  induction l as [|b l IH]; intros w; [by apply elem_of_nil in Ha|].
  simpl. rewrite bind_run.
  destruct (body b w) as [[[] w1]|] eqn:Hb; [|done].
  apply elem_of_cons in Ha as [->|Ha]; [|by apply IH].
  by rewrite Hnone in Hb.
Qed.

(** One iteration of the loop of [PCBNN.MP_mult]. *)
Lemma MP_mult_iteration p iss y i w is_A yi v :
  iss !! i = Some is_A → length (works_1 w) = length iss →
  y !! i = Some yi → vecs w !! yi = Some v →
  ∃ w1,
    (w1 ← get_works Works_1;
     put_works Works_1 ((λ v, Vec.set v 0) <$> w1);;
     w1 ← get_works Works_1; w2 ← get_works Works_2;
     put_works Works_1
       (imap (λ rank v, if bool_decide (rank = i)
                        then Vec.copy (w2 !!! rank) else v) w1);;
     yi ← raise_None (y !! i);
     Vec_set yi 0;;
     scatter_forward iss Works_1 yi;;
     proj_project p yi) w = Some (tt, w1)
    ∧ vecs w1
      = <[yi := project p (Scatter.add_local is_A (works_2 w !!! i) (Vec.set v 0))]>
          (vecs w)
    ∧ works_2 w1 = works_2 w ∧ length (works_1 w1) = length iss
    ∧ out w1 = out w.
Proof.
  intros His Hlen Hyi Hv.
  set (W1 := imap (λ rank v0, if bool_decide (rank = i)
                              then Vec.copy (works_2 w !!! rank) else v0)
               ((λ v0, Vec.set v0 0) <$> works_1 w)).
  assert (Scatter.forward_add iss W1 (Vec.set v 0)
          = Scatter.add_local is_A (works_2 w !!! i) (Vec.set v 0)) as Hadd.
  { destruct (lookup_lt_is_Some_2 (works_1 w) i) as [v1 Hv1].
    { rewrite Hlen. by eapply lookup_lt_Some. }
    apply (forward_add_single _ _ _ i); [done| |].
    - unfold W1. rewrite list_lookup_imap, list_lookup_fmap, Hv1. simpl.
      by rewrite bool_decide_eq_true_2.
    - intros j l' Hj Hl'. unfold W1 in Hl'.
      rewrite list_lookup_imap, list_lookup_fmap in Hl'.
      destruct (works_1 w !! j) as [v2|]; simplify_eq/=.
      rewrite bool_decide_eq_false_2 by done.
      unfold Vec.set. by apply Forall_fmap, Forall_true. }
  eexists. split.
  - do 5 (erewrite bind_Some; [|reflexivity]).
    rewrite Hyi. erewrite bind_Some; [|reflexivity].
    erewrite bind_Some; [|by apply (Vec_set_run _ _ v)].
    erewrite bind_Some;
      [|apply scatter_forward_works_run; simpl; by rewrite lookup_insert_eq].
    apply proj_project_run. simpl. by rewrite lookup_insert_eq.
  - simpl. split_and!; try done.
    + fold W1. rewrite Hadd. by rewrite !insert_insert_eq.
    + by rewrite length_imap, length_fmap.
Qed.

Lemma MP_mult_iteration_raises p iss y i w :
  y !! i = None →
  (w1 ← get_works Works_1;
   put_works Works_1 ((λ v, Vec.set v 0) <$> w1);;
   w1 ← get_works Works_1; w2 ← get_works Works_2;
   put_works Works_1
     (imap (λ rank v, if bool_decide (rank = i)
                      then Vec.copy (w2 !!! rank) else v) w1);;
   yi ← raise_None (y !! i);
   Vec_set yi 0;;
   scatter_forward iss Works_1 yi;;
   proj_project p yi) w = None.
Proof.
  intros Hy.
  unfold mbind, M_bind, get_works, put_works, raise_None. simpl.
  by rewrite Hy.
Qed.

Lemma dd_MP_mult_run p iss ksps x y w xv sols :
  vecs w !! x = Some xv → NoDup y → (length iss ≤ length y)%nat →
  (∀ yj, yj ∈ y → is_Some (vecs w !! yj)) →
  mapM (λ '(k, (b, s)), KSP_solve k b s)
    (zip ksps (zip ((λ is_A, Scatter.reverse_insert is_A xv) <$> iss)
                 (works_2 w))) = Some sols →
  ∃ w', dd_MP_mult p iss ksps x y w = Some (tt, w')
    ∧ works_2 w' = sols ∧ out w' = out w
    ∧ (∀ j yj v, (j < length iss)%nat → y !! j = Some yj →
         vecs w !! yj = Some v →
         vecs w' !! yj
         = Some (project p (Scatter.add_local (iss !!! j) (sols !!! j)
                              (Vec.set v 0))))
    ∧ (∀ r, (∀ j, (j < length iss)%nat → y !! j ≠ Some r) →
         vecs w' !! r = vecs w !! r).
Proof.
  intros Hx Hnd Hlen Halloc Hsols. unfold dd_MP_mult.
  rewrite (bind_Some _ _ _ _ _ (scatter_reverse_run iss w x xv Hx)).
  rewrite bind_run, solve_all_run. simpl. rewrite Hsols.
  set (w0 := {| vecs := vecs w;
                works_1 := (λ is_A, Scatter.reverse_insert is_A xv) <$> iss;
                works_2 := sols; out := out w |}).
  set (Inv := λ (i : nat) (w1 : World),
         works_2 w1 = sols ∧ length (works_1 w1) = length iss
         ∧ out w1 = out w
         ∧ (∀ j yj v, (j < i)%nat → y !! j = Some yj →
              vecs w !! yj = Some v →
              vecs w1 !! yj
              = Some (project p (Scatter.add_local (iss !!! j) (sols !!! j)
                                   (Vec.set v 0))))
         ∧ (∀ r, (∀ j, (j < i)%nat → y !! j ≠ Some r) →
              vecs w1 !! r = vecs w !! r)).
  match goal with
  | |- ∃ w', for_ _ ?body _ = _ ∧ _ =>
      destruct (for_seq_run body Inv (length iss) 0 w0) as (w' & Hrun & HI)
  end.
  - intros i w1 [_ Hi] (Hw2 & Hw1 & Hout & Hslots & Hframe). simpl in Hi.
    destruct (lookup_lt_is_Some_2 iss i) as [is_A His]; [done|].
    destruct (lookup_lt_is_Some_2 y i) as [yi Hyi]; [lia|].
    destruct (Halloc yi) as [v Hv]; [by eapply list_elem_of_lookup_2|].
    assert (vecs w1 !! yi = Some v) as Hv1.
    { rewrite Hframe; [done|]. intros j Hj Hyj.
      pose proof (NoDup_lookup _ _ _ _ Hnd Hyj Hyi). lia. }
    destruct (MP_mult_iteration p iss y i w1 is_A yi v His Hw1 Hyi Hv1)
      as (w2 & Hrun & Hvecs & Hw2' & Hw1' & Hout').
    exists w2. split; [exact Hrun|]. unfold Inv. split_and!.
    + congruence.
    + done.
    + congruence.
    + intros j yj v' Hj Hyj Hv'. rewrite Hvecs.
      destruct (decide (j = i)) as [->|Hji].
      * assert (yj = yi) as -> by congruence.
        assert (v' = v) as -> by congruence.
        rewrite lookup_insert_eq, Hw2.
        by rewrite (list_lookup_total_correct _ _ _ His).
      * assert (yj ≠ yi) as Hne.
        { intros ->. by pose proof (NoDup_lookup _ _ _ _ Hnd Hyj Hyi). }
        rewrite lookup_insert_ne by done. apply Hslots; [lia|done|done].
    + intros r Hr. rewrite Hvecs.
      assert (r ≠ yi) as Hne.
      { intros ->. by apply (Hr i); [lia|]. }
      rewrite lookup_insert_ne by done. apply Hframe.
      intros j Hj. apply Hr. lia.
  - unfold Inv, w0. simpl. split_and!; try done.
    + by rewrite length_fmap.
    + intros j yj v Hj. lia.
  - destruct HI as (Hw2 & _ & Hout & Hslots & Hframe).
    exists w'. split_and!; done.
Qed.

Lemma dd_MP_mult_raises p iss ksps x y w :
  (length y < length iss)%nat → dd_MP_mult p iss ksps x y w = None.
Proof.
  intros Hlen. unfold dd_MP_mult. rewrite bind_run.
  destruct (scatter_reverse iss x Works_1 w) as [[[] w1]|]; [|done].
  rewrite bind_run.
  destruct (solve_all ksps Works_1 Works_2 w1) as [[[] w2]|]; [|done].
  apply (for_raises _ _ (length y)).
  - apply elem_of_seq. lia.
  - intros w3. apply MP_mult_iteration_raises. by apply lookup_ge_None_2.
Qed.

End MP_mult.

(** X11.  [PCBNN.MP_mult(x, y)] with a list [y] of distinct vectors, one at
    least per subdomain: after the local solves, the vector [y[i]] holds
    the projection of the contribution of the subdomain [i] alone,
    [project(R_iᵀ s_i)] with [s_i] the local solution on the rank [i];
    the vectors that are not among the first [size] of [y], the input
    [x] with them, are as they were, and nothing is printed. *)
Theorem PCBNN_MP_mult_slots (self : PCBNN.t) x y w xv sols :
  vecs w !! x = Some xv → NoDup y →
  (length (PCBNN.scatter_l2g self) ≤ length y)%nat →
  (∀ yj, yj ∈ y → is_Some (vecs w !! yj)) →
  mapM (λ '(k, (b, s)), KSP_solve k b s)
    (zip (PCBNN.ksp_Atildes self)
       (zip ((λ is_A, Scatter.reverse_insert is_A xv)
               <$> PCBNN.scatter_l2g self)
          (works_2 w))) = Some sols →
  ∃ w', PCBNN.MP_mult self x y w = Some (tt, w')
    ∧ works_2 w' = sols ∧ out w' = out w
    ∧ (∀ j yj v, (j < length (PCBNN.scatter_l2g self))%nat →
         y !! j = Some yj → vecs w !! yj = Some v →
         vecs w' !! yj
         = Some (project (PCBNN.proj self)
                   (Scatter.add_local (PCBNN.scatter_l2g self !!! j)
                      (sols !!! j) (Vec.set v 0))))
    ∧ (∀ r, (∀ j, (j < length (PCBNN.scatter_l2g self))%nat →
               y !! j ≠ Some r) →
         vecs w' !! r = vecs w !! r).
Proof.
  intros Hx Hnd Hlen Halloc Hsols. rewrite PCBNN_MP_mult_body.
  by apply (dd_MP_mult_run _ _ _ _ _ _ xv).
Qed.

(** X12.  [PCBNN.MP_mult(x, y)] with a list [y] shorter than the number of
    subdomains raises: the loop reaches [y[i]] with [i = len(y)]. *)
Theorem PCBNN_MP_mult_short_list (self : PCBNN.t) x y w :
  (length y < length (PCBNN.scatter_l2g self))%nat →
  PCBNN.MP_mult self x y w = None.
Proof.
  intros Hlen. rewrite PCBNN_MP_mult_body. by apply dd_MP_mult_raises.
Qed.

(** ** Preconditioners as built by the constructors *)

Section constructed.
Implicit Types (w : World) (x y r : loc) (iss : list Scatter.IS)
  (ksps : list KSP) (bs ss sols : list Vec.t).

(** The local solves return when every solver does. *)
Lemma solves_return ksps bs ss :
  Forall (λ k, ∀ b s, is_Some (KSP_solve k b s)) ksps →
  is_Some (mapM (λ '(k, (b, s)), KSP_solve k b s) (zip ksps (zip bs ss))).
Proof.
  intros Hk. apply mapM_is_Some, Forall_forall.
  intros [k [b s]] Hin. simpl.
  apply elem_of_zip_l in Hin. rewrite Forall_forall in Hk. by apply Hk.
Qed.

Lemma solves_lookup ksps bs ss sols i k b s :
  mapM (λ '(k, (b, s)), KSP_solve k b s) (zip ksps (zip bs ss)) = Some sols →
  ksps !! i = Some k → bs !! i = Some b → ss !! i = Some s →
  Some (sols !!! i) = KSP_solve k b s ∧ sols !! i = KSP_solve k b s.
Proof.
  intros Hm Hk Hb Hs. apply mapM_Some in Hm.
  assert (zip ksps (zip bs ss) !! i = Some (k, (b, s))) as Hz.
  { rewrite !lookup_zip_with, Hk, Hb, Hs. done. }
  destruct (Forall2_lookup_l _ _ _ _ _ Hm Hz) as (v & Hv & Hsolve).
  simpl in Hsolve. rewrite Hsolve, Hv.
  by rewrite (list_lookup_total_correct _ _ _ Hv).
Qed.

Lemma solves_length ksps bs ss sols n :
  mapM (λ '(k, (b, s)), KSP_solve k b s) (zip ksps (zip bs ss)) = Some sols →
  length ksps = n → length bs = n → length ss = n → length sols = n.
Proof.
  intros Hm Hk Hb Hs. apply length_mapM in Hm.
  rewrite <-Hm, !length_zip. lia.
Qed.

(** The solvers a constructor of [PCNew] sets up on a rank return on
    every input: a [PC] of type python holds a context with an [apply]
    method, whose operators hold contexts with a [mult] method. *)
Lemma init_local_solves_return sv opts rank is_A work mult_max As Bs e b s :
  let L := (PCNew.init_local sv opts rank is_A work mult_max As Bs e).1 in
  is_Some (KSP_solve (PCNew.ksp_Atildes L) b s)
  ∧ is_Some (KSP_solve (PCNew.ksp_Atildes_forSLEPc L) b s)
  ∧ is_Some (KSP_solve (PCNew.ksp_Ms L) b s)
  ∧ is_Some (KSP_solve (PCNew.ksp_Ms_forSLEPc L) b s)
  ∧ is_Some (KSP_solve (PCNew.ksp_Aposs L) b s).
Proof.
  unfold PCNew.init_local.
  destruct (PCNew.PCNew_switchtoASM opts); simpl; split_and!; eexists; done.
Qed.

(** The local solve of the preconditioner on a rank, from the parts
    [PCNew.__init__] builds it from. *)
Lemma init_local_ksp_Atildes_solve
    sv opts rank is_A work mult_max As Bs e b s :
  Forall (λ p, length p.2 = length is_A) e → length s = length is_A →
  let L := (PCNew.init_local sv opts rank is_A work mult_max As Bs e).1 in
  let Vnegs := snd <$> filter (λ p, p.1 < 0) e in
  KSP_solve (PCNew.ksp_Atildes L) b s
  = Some (if PCNew.PCNew_switchtoASM opts then mumps sv As b
          else Vec.mul
                 (projVposs_sum (length is_A) Vnegs
                    (mumps sv Bs
                       (projVposs_sum (length is_A) Vnegs
                          (Vec.mul b (PCNew.invmus L)))))
                 (PCNew.invmus L)).
Proof.
  intros He Hs L Vnegs.
  destruct (init_local_Ms sv opts rank is_A work mult_max As Bs e)
    as (_ & _ & _ & HBNN & HASM).
  fold L in HBNN, HASM.
  destruct (PCNew.PCNew_switchtoASM opts) eqn:Hopt.
  - destruct HASM as (_ & -> & _); done.
  - destruct HBNN as (_ & -> & _); [done|]. simpl.
    unfold scaledmats_ctx_apply, scaledmats_ctx_mult, Vec.copy.
    unfold L.
    rewrite (init_local_invAposs_mult _ _ _ _ _ _ _ _ _ (length is_A)) by done.
    done.
Qed.

Lemma six_steps_sols (projCS addCS : bool) (p : Projection) iss ksps ss
    (xv yv : Vec.t) sols :
  mapM (λ '(k, (b, s)), KSP_solve k b s)
    (zip ksps
       (zip ((λ is_A, Scatter.reverse_insert is_A
                        (if projCS then project_transpose p xv else xv))
               <$> iss) ss)) = Some sols →
  six_steps projCS addCS p iss ksps ss xv yv
  = Some (let y4 := Scatter.forward_add iss sols (Vec.zeros (length yv)) in
          let y5 := if projCS then project p y4 else y4 in
          if addCS then Vec.add y5 (coarse_init p xv) else y5).
Proof.
  intros Hm. unfold six_steps. rewrite Hm. simpl. by rewrite set_zeros.
Qed.

(** [mult(x, x)]: the input is copied before the output is zeroed, so
    the first five steps read the input; the coarse term of the sixth
    is computed from a copy taken after the output was written. *)
Lemma dd_mult_in_place_run (projCS addCS : bool) (p : Projection) iss ksps
    x w (xv : Vec.t) :
  vecs w !! x = Some xv →
  match six_steps projCS false p iss ksps (works_2 w) xv xv with
  | Some y5 =>
      ∃ w', dd_mult projCS addCS p iss ksps x x w = Some (tt, w')
        ∧ vecs w' !! x
          = Some (if addCS then Vec.add y5 (coarse_init p y5) else y5)
        ∧ (∀ r, r ∈ dom (vecs w) → r ≠ x → vecs w' !! r = vecs w !! r)
        ∧ out w' = out w
  | None => dd_mult projCS addCS p iss ksps x x w = None
  end.
Proof.
  intros Hx. unfold six_steps, dd_mult.
  destruct (Vec_copy_run w x xv Hx) as (xd & Hxd & Hrun).
  rewrite (bind_Some _ _ _ _ _ Hrun). clear Hrun.
  assert (x ≠ xd) as Hxd_x by congruence.
  assert (∀ r, r ∈ dom (vecs w) → r ≠ xd) as Hdom_xd.
  { intros r [v Hr]%elem_of_dom. congruence. }
  assert (∀ (W : World) (f : loc → M unit) v,
            vecs W !! x = Some v →
            ∃ r, vecs W !! r = None
              ∧ (Vec_copy x ≫= f) W = f r (with_vecs <[r := v]> W)) as Hcopy.
  { intros W f v HW. destruct (Vec_copy_run W x v HW) as (r & Hr & Hrun).
    exists r. split; [done|]. by rewrite (bind_Some _ _ _ _ _ Hrun). }
  assert (∀ (W : World) (f : loc → M unit) r v,
            vecs W !! r = Some v →
            ∃ r', vecs W !! r' = None
              ∧ (proj_coarse_init p r ≫= f) W
                = f r' (with_vecs <[r' := coarse_init p v]> W)) as Hcoarse.
  { intros W f r v HW.
    destruct (proj_coarse_init_run p W r v HW) as (r' & Hr' & Hrun).
    exists r'. split; [done|]. by rewrite (bind_Some _ _ _ _ _ Hrun). }
  destruct projCS; simpl.
  - erewrite bind_Some;
      [|apply proj_project_transpose_run; simpl; by rewrite lookup_insert_eq].
    erewrite bind_Some;
      [|apply scatter_reverse_run; simpl; by rewrite lookup_insert_eq].
    rewrite bind_run, solve_all_run. simpl.
    destruct (mapM _ _) as [sols|]; simpl; [|done].
    erewrite bind_Some;
      [|apply (Vec_set_run _ _ xv); simpl; by rewrite !lookup_insert_ne].
    erewrite bind_Some;
      [|apply scatter_forward_run; simpl; by rewrite lookup_insert_eq].
    erewrite bind_Some;
      [|apply proj_project_run; simpl; by rewrite lookup_insert_eq].
    destruct addCS; simpl.
    + edestruct Hcopy as (xd2 & Hxd2 & ->);
        [simpl; by rewrite lookup_insert_eq|].
      simpl in Hxd2.
      edestruct Hcoarse as (ytild & Hytild & ->);
        [simpl; by rewrite lookup_insert_eq|].
      simpl in Hytild.
      assert (x ≠ xd2) as Hne2 by (intros ->; by rewrite lookup_insert_eq in Hxd2).
      assert (xd2 ≠ ytild) as Hne3
        by (intros ->; by rewrite lookup_insert_eq in Hytild).
      assert (x ≠ ytild) as Hne4.
      { intros ->. rewrite lookup_insert_ne, lookup_insert_eq in Hytild; done. }
      eexists. split.
      { eapply Vec_iadd_run; simpl.
        - rewrite !lookup_insert_ne by done. by rewrite lookup_insert_eq.
        - by rewrite lookup_insert_eq. }
      simpl. split_and!.
      * rewrite lookup_insert_eq. by rewrite iadd_add.
      * intros r Hr Hrx. pose proof (Hdom_xd r Hr).
        apply elem_of_dom in Hr as [v Hr].
        assert (r ≠ xd2).
        { intros ->. rewrite !lookup_insert_ne in Hxd2 by done. congruence. }
        assert (r ≠ ytild).
        { intros ->. rewrite !lookup_insert_ne in Hytild by done. congruence. }
        by rewrite !lookup_insert_ne.
      * done.
    + eexists. split; [done|]. simpl. split_and!.
      * by rewrite lookup_insert_eq.
      * intros r Hr Hrx. pose proof (Hdom_xd r Hr).
        by rewrite !lookup_insert_ne.
      * done.
  - rewrite (bind_Some (mret tt) _ _ tt _) by done.
    erewrite bind_Some;
      [|apply scatter_reverse_run; simpl; by rewrite lookup_insert_eq].
    rewrite bind_run, solve_all_run. simpl.
    destruct (mapM _ _) as [sols|]; simpl; [|done].
    erewrite bind_Some;
      [|apply (Vec_set_run _ _ xv); simpl; by rewrite !lookup_insert_ne].
    erewrite bind_Some;
      [|apply scatter_forward_run; simpl; by rewrite lookup_insert_eq].
    rewrite (bind_Some (mret tt) _ _ tt _) by done.
    destruct addCS; simpl.
    + edestruct Hcopy as (xd2 & Hxd2 & ->);
        [simpl; by rewrite lookup_insert_eq|].
      simpl in Hxd2.
      edestruct Hcoarse as (ytild & Hytild & ->);
        [simpl; by rewrite lookup_insert_eq|].
      simpl in Hytild.
      assert (x ≠ xd2) as Hne2 by (intros ->; by rewrite lookup_insert_eq in Hxd2).
      assert (xd2 ≠ ytild) as Hne3
        by (intros ->; by rewrite lookup_insert_eq in Hytild).
      assert (x ≠ ytild) as Hne4.
      { intros ->. rewrite lookup_insert_ne, lookup_insert_eq in Hytild; done. }
      eexists. split.
      { eapply Vec_iadd_run; simpl.
        - rewrite !lookup_insert_ne by done. by rewrite lookup_insert_eq.
        - by rewrite lookup_insert_eq. }
      simpl. split_and!.
      * rewrite lookup_insert_eq. by rewrite iadd_add.
      * intros r Hr Hrx. pose proof (Hdom_xd r Hr).
        apply elem_of_dom in Hr as [v Hr].
        assert (r ≠ xd2).
        { intros ->. rewrite !lookup_insert_ne in Hxd2 by done. congruence. }
        assert (r ≠ ytild).
        { intros ->. rewrite !lookup_insert_ne in Hytild by done. congruence. }
        by rewrite !lookup_insert_ne.
      * done.
    + eexists. split; [done|]. simpl. split_and!.
      * by rewrite lookup_insert_eq.
      * intros r Hr Hrx. pose proof (Hdom_xd r Hr).
        by rewrite !lookup_insert_ne.
      * done.
Qed.

End constructed.

(** X13.  [mult(x, x)], the input and the output being one vector, for
    [PCBNN] and [PCNew]: the input is copied before the output is
    zeroed, so without [addCoarseSolve] the result is the one of
    [mult(x, y)]; with it, the coarse term is computed from a copy taken
    after the output was written: [y5 + coarse_init(y5)] instead of
    [y5 + coarse_init(x)]. *)
Theorem mult_in_place (bnn : PCBNN.t) (new : PCNew.t) x w xv :
  vecs w !! x = Some xv →
  (∀ y5,
     six_steps (PCBNN.projCS bnn) false (PCBNN.proj bnn)
       (PCBNN.scatter_l2g bnn) (PCBNN.ksp_Atildes bnn) (works_2 w) xv xv
     = Some y5 →
     ∃ w', PCBNN.mult bnn x x w = Some (tt, w')
       ∧ vecs w' !! x
         = Some (if PCBNN.addCS bnn
                 then Vec.add y5 (coarse_init (PCBNN.proj bnn) y5) else y5))
  ∧ (∀ y5,
       six_steps (PCNew.projCS new) false (PCNew.proj new)
         (PCNew.scatter_l2g new) (PCNew.ksp_Atildes <$> PCNew.locals new)
         (works_2 w) xv xv
       = Some y5 →
       ∃ w', PCNew.mult new x x w = Some (tt, w')
         ∧ vecs w' !! x
           = Some (if PCNew.addCS new
                   then Vec.add y5 (coarse_init (PCNew.proj new) y5) else y5)).
Proof.
  intros Hx. split; intros y5 H5.
  - pose proof (dd_mult_in_place_run (PCBNN.projCS bnn) (PCBNN.addCS bnn)
                  (PCBNN.proj bnn) (PCBNN.scatter_l2g bnn)
                  (PCBNN.ksp_Atildes bnn) x w xv Hx) as Hrun.
    rewrite H5 in Hrun. destruct Hrun as (w' & Hrun & Hy & _).
    exists w'. by rewrite PCBNN_mult_body.
  - pose proof (dd_mult_in_place_run (PCNew.projCS new) (PCNew.addCS new)
                  (PCNew.proj new) (PCNew.scatter_l2g new)
                  (PCNew.ksp_Atildes <$> PCNew.locals new) x w xv Hx) as Hrun.
    rewrite H5 in Hrun. destruct Hrun as (w' & Hrun & Hy & _).
    exists w'. by rewrite PCNew_mult_body.
Qed.

(** X14.  [PCBNN.mult] of a preconditioner built by [PCBNN.__init__]
    never raises and computes the two-level formula with the direct
    solves of the local matrices: for distinct allocated [x] and [y],
    [y = P (Σ_i R_iᵀ Atildes_i⁻¹ R_i Pᵀ x)], plus [coarse_init(x)] with
    [PCBNN_addCoarseSolve], where [Atildes] is the scaled [Ms], or [As]
    with [PCBNN_switchtoASM], and [P], [Pᵀ] are left out without
    [PCBNN_CoarseProjection]; [x] is unchanged and nothing is printed.
    The work vectors the constructor leaves have the size asked for. *)
Theorem PCBNN_init_mult
    sv opts A_mpiaij Ms0 As0 iss nglobal x y w xv yv :
  length Ms0 = length iss → length As0 = length iss →
  length (works_2 w) = length iss →
  x ≠ y → vecs w !! x = Some xv → vecs w !! y = Some yv →
  let built := PCBNN.init sv opts A_mpiaij Ms0 As0 iss nglobal in
  let self := built.1.1 in
  let Atildes :=
    if PCBNN.PCBNN_switchtoASM opts then As0 else PCBNN.Ms self in
  let x1 := if PCBNN.PCBNN_CoarseProjection opts
            then project_transpose (PCBNN.proj self) xv else xv in
  let sols :=
    zip_with (λ At is_A, mumps sv At (Scatter.reverse_insert is_A x1))
      Atildes iss in
  let y4 := Scatter.forward_add iss sols (Vec.zeros (length yv)) in
  let y5 := if PCBNN.PCBNN_CoarseProjection opts
            then project (PCBNN.proj self) y4 else y4 in
  let yr := if PCBNN.PCBNN_addCoarseSolve opts
            then Vec.add y5 (coarse_init (PCBNN.proj self) xv) else y5 in
  (∃ w', PCBNN.mult self x y w = Some (tt, w')
     ∧ vecs w' !! y = Some yr ∧ vecs w' !! x = Some xv ∧ out w' = out w)
  ∧ length built.1.2.1 = length iss ∧ length built.1.2.2 = length iss.
Proof.
  intros HMs HAs Hw2 Hxy Hx Hy built self Atildes x1 sols y4 y5 yr.
  assert (length (PCBNN.multiplicity iss nglobal).1 = length iss) as Hlv.
  { unfold PCBNN.multiplicity. simpl. by rewrite length_fmap. }
  assert (PCBNN.ksp_Atildes self
          = (λ At, KSPpreonly (MatAIJ At) (PCcholesky (mumps sv At)))
              <$> Atildes) as Hksp.
  { unfold Atildes, self, built, PCBNN.init.
    destruct (PCBNN.multiplicity iss nglobal) as [vlocal vglobal].
    by destruct (PCBNN.PCBNN_switchtoASM opts). }
  assert (PCBNN.projCS self = PCBNN.PCBNN_CoarseProjection opts
          ∧ PCBNN.addCS self = PCBNN.PCBNN_addCoarseSolve opts
          ∧ PCBNN.scatter_l2g self = iss
          ∧ length (PCBNN.Ms self) = length iss
          ∧ length built.1.2.1 = length iss
          ∧ length built.1.2.2 = length iss)
    as (HprojCS & HaddCS & Hiss & HlMs & Hw1' & Hw2').
  { unfold self, built, PCBNN.init.
    destruct (PCBNN.multiplicity iss nglobal) as [vlocal vglobal].
    simpl in Hlv. simpl. rewrite !length_fmap, length_zip_with, length_zip.
    split_and!; try done; lia. }
  assert (length Atildes = length iss) as HlA.
  { unfold Atildes. by destruct (PCBNN.PCBNN_switchtoASM opts). }
  split; [|done].
  pose proof (dd_mult_run (PCBNN.projCS self) (PCBNN.addCS self)
                (PCBNN.proj self) (PCBNN.scatter_l2g self)
                (PCBNN.ksp_Atildes self) x y w xv yv Hxy Hx Hy) as Hrun.
  rewrite (six_steps_sols _ _ _ _ _ _ _ _ sols) in Hrun.
  - destruct Hrun as (w' & Hrun & Hyr & Hframe & Hout).
    exists w'. rewrite PCBNN_mult_body. split_and!.
    + exact Hrun.
    + rewrite Hyr. unfold yr, y5, y4. by rewrite HprojCS, HaddCS, Hiss.
    + rewrite Hframe; [done| |done]. by apply elem_of_dom.
    + exact Hout.
  - rewrite Hksp, HprojCS, Hiss. fold x1.
    apply mapM_Some, Forall2_same_length_lookup_2.
    + unfold sols.
      rewrite !length_zip, !length_fmap, length_zip_with. lia.
    + intros i [k [b s]] v Hi Hv.
      apply lookup_zip_with_Some in Hi as (k' & bs' & Heq & Hk & Hbs).
      apply lookup_zip_with_Some in Hbs as (b' & s' & -> & Hb & Hs).
      injection Heq as -> -> ->.
      rewrite list_lookup_fmap in Hk. rewrite list_lookup_fmap in Hb.
      destruct (Atildes !! i) as [At|] eqn:HAt; [|done].
      destruct (iss !! i) as [is_A|] eqn:His; [|done].
      simpl in Hk, Hb. injection Hk as <-. injection Hb as <-.
      unfold sols in Hv. rewrite lookup_zip_with, HAt in Hv. simpl in Hv.
      rewrite His in Hv. simpl in Hv. by injection Hv as <-.
Qed.

(** X15.  [PCNew.mult] of a preconditioner built by [PCNew.__init__]
    never raises: every solver of the constructor holds a context with
    the method PETSc calls.  For distinct allocated [x] and [y] and work
    vectors of the local sizes, [y = P (Σ_i R_iᵀ s_i)], plus
    [coarse_init(x)] with [PCNew_addCoarseSolve], where the local
    solution [s_i] is [invmus projVposs Bs⁻¹ projVposs invmus b_i] on
    [b_i = R_i Pᵀ x], or the direct solve of [As] with
    [PCNew_switchtoASM]; [x] is unchanged and nothing is printed. *)
Theorem PCNew_init_mult
    sv opts A_mpiaij work As0 Bs0 iss eps x y w xv yv :
  length As0 = length iss → length Bs0 = length iss →
  length eps = length iss →
  Forall2 (λ is_A e, Forall (λ p, length p.2 = length is_A) e) iss eps →
  Forall2 (λ is_A (s : Vec.t), length s = length is_A) iss (works_2 w) →
  x ≠ y → vecs w !! x = Some xv → vecs w !! y = Some yv →
  let self := (PCNew.init sv opts A_mpiaij work As0 Bs0 iss eps).1.1 in
  let x1 := if PCNew.PCNew_CoarseProjection opts
            then project_transpose (PCNew.proj self) xv else xv in
  ∃ sols w',
    PCNew.mult self x y w = Some (tt, w')
    ∧ length sols = length iss
    ∧ (∀ i is_A As Bs e,
         iss !! i = Some is_A → As0 !! i = Some As → Bs0 !! i = Some Bs →
         eps !! i = Some e →
         let b := Scatter.reverse_insert is_A x1 in
         let invmus := Vec.rtruediv 1 (Scatter.reverse_insert is_A work) in
         let Vnegs := snd <$> filter (λ p, p.1 < 0) e in
         sols !! i
         = Some (if PCNew.PCNew_switchtoASM opts then mumps sv As b
                 else Vec.mul
                        (projVposs_sum (length is_A) Vnegs
                           (mumps sv Bs
                              (projVposs_sum (length is_A) Vnegs
                                 (Vec.mul b invmus))))
                        invmus))
    ∧ vecs w' !! y
      = Some (let y4 := Scatter.forward_add iss sols (Vec.zeros (length yv)) in
              let y5 := if PCNew.PCNew_CoarseProjection opts
                        then project (PCNew.proj self) y4 else y4 in
              if PCNew.PCNew_addCoarseSolve opts
              then Vec.add y5 (coarse_init (PCNew.proj self) xv) else y5)
    ∧ vecs w' !! x = Some xv ∧ out w' = out w.
Proof.
  intros HAs HBs He Hsz Hw2 Hxy Hx Hy self x1.
  pose proof (length_init_locals sv opts A_mpiaij work As0 Bs0 iss eps
                HAs HBs He) as HlL.
  fold self in HlL.
  assert (Forall (λ k, ∀ b s, is_Some (KSP_solve k b s))
            (PCNew.ksp_Atildes <$> PCNew.locals self)) as Hret.
  { apply Forall_fmap, Forall_lookup. intros i L HL. simpl.
    destruct (init_locals_lookup sv opts A_mpiaij work As0 Bs0 iss eps i)
      as (is_A & As & Bs & e & _ & _ & _ & _ & HL'); try done.
    { rewrite <-HlL. by eapply lookup_lt_Some. }
    unfold self in HL. rewrite HL' in HL. injection HL as <-.
    intros b s.
    by destruct (init_local_solves_return sv opts i is_A work (Vec.max work)
                   As Bs e b s) as (? & _). }
  destruct (solves_return (PCNew.ksp_Atildes <$> PCNew.locals self)
              ((λ is_A, Scatter.reverse_insert is_A x1) <$> iss) (works_2 w)
              Hret) as [sols Hsols].
  assert (PCNew.projCS self = PCNew.PCNew_CoarseProjection opts
          ∧ PCNew.addCS self = PCNew.PCNew_addCoarseSolve opts
          ∧ PCNew.scatter_l2g self = iss) as (HprojCS & HaddCS & Hiss) by done.
  pose proof (dd_mult_run (PCNew.projCS self) (PCNew.addCS self)
                (PCNew.proj self) (PCNew.scatter_l2g self)
                (PCNew.ksp_Atildes <$> PCNew.locals self) x y w xv yv
                Hxy Hx Hy) as Hrun.
  rewrite (six_steps_sols _ _ _ _ _ _ _ _ sols) in Hrun
    by (by rewrite HprojCS, Hiss).
  destruct Hrun as (w' & Hrun & Hyr & Hframe & Hout).
  exists sols, w'. rewrite PCNew_mult_body. split_and!.
  - exact Hrun.
  - apply (solves_length _ _ _ _ _ Hsols).
    + by rewrite length_fmap.
    + by rewrite length_fmap.
    + symmetry. by eapply Forall2_length.
  - intros i is_A As Bs e His HAs' HBs' He' b invmus Vnegs.
    destruct (init_locals_lookup sv opts A_mpiaij work As0 Bs0 iss eps i)
      as (is_A' & As' & Bs' & e' & His'' & HAs'' & HBs'' & He'' & HL);
      try done.
    { by eapply lookup_lt_Some. }
    assert (is_A' = is_A) as -> by congruence.
    assert (As' = As) as -> by congruence.
    assert (Bs' = Bs) as -> by congruence.
    assert (e' = e) as -> by congruence.
    destruct (Forall2_lookup_l _ _ _ _ _ Hw2 His) as (s & Hs & Hls).
    destruct (solves_lookup _ _ _ _ i
                (PCNew.ksp_Atildes
                   (PCNew.init_local sv opts i is_A work (Vec.max work) As Bs e).1)
                b s Hsols) as [_ ->]; try done.
    + unfold self. by rewrite list_lookup_fmap, HL.
    + by rewrite list_lookup_fmap, His.
    + assert (Forall (λ p, length p.2 = length is_A) e) as Hse.
      { eapply Forall2_lookup_lr in Hsz; done. }
      pose proof (init_local_ksp_Atildes_solve sv opts i is_A work
                    (Vec.max work) As Bs e b s Hse Hls) as Hk.
      cbv zeta in Hk. rewrite Hk.
      destruct (init_local_mus sv opts i is_A work (Vec.max work) As Bs e)
        as [_ ->]. done.
  - rewrite Hyr. by rewrite HprojCS, HaddCS, Hiss.
  - rewrite Hframe; [done| |done]. by apply elem_of_dom.
  - exact Hout.
Qed.

(** ** The multiplicities and the scalings of [PCBNN.__init__], continued *)

Section multiplicity.
Implicit Types (is_A : Scatter.IS) (iss : list Scatter.IS) (g : Vec.t).

Lemma Qc_of_nat_nonneg n : 0 ≤ Qc_of_nat n.
Proof.
  induction n as [|n IH]; [by rewrite Qc_of_nat_0|].
  rewrite Qc_of_nat_S. replace 0 with (0 + 0) by ring.
  by apply Qcplus_le_compat.
Qed.

Lemma Qc_of_nat_le a b : (a ≤ b)%nat → Qc_of_nat a ≤ Qc_of_nat b.
Proof.
  induction 1 as [|m _ IH]; [apply Qcle_refl|].
  rewrite Qc_of_nat_S. eapply Qcle_trans; [exact IH|].
  rewrite <-(Qcplus_0_l (Qc_of_nat m)) at 1.
  by apply Qcplus_le_compat; [|apply Qcle_refl].
Qed.

Lemma Qc_of_nat_1 : Qc_of_nat 1 = 1.
Proof. rewrite Qc_of_nat_S, Qc_of_nat_0. ring. Qed.

Lemma owners_le iss k : (owners iss k ≤ length iss)%nat.
Proof. unfold owners. apply length_filter. Qed.

Lemma owners_pos iss is_A k : is_A ∈ iss → k ∈ is_A → (1 ≤ owners iss k)%nat.
Proof.
  intros His Hk. unfold owners.
  assert (is_A ∈ filter (λ is_A, k ∈ is_A) iss) as Hin
    by by apply list_elem_of_filter.
  destruct (filter _ iss); [by apply elem_of_nil in Hin|simpl; lia].
Qed.

(** [v.max()] bounds the entries of [v], and is bounded by what bounds
    them. *)
Lemma max_ge (v : Vec.t) : Forall (λ a, a ≤ Vec.max v) v.
Proof.
  unfold Vec.max. generalize (default 0 (head v)). intros init.
  induction v as [|a v IH]; [done|]. simpl.
  case_bool_decide as Hm; constructor.
  - apply Qcle_refl.
  - eapply Forall_impl; [exact IH|]. intros c Hc. simpl in Hc.
    by eapply Qcle_trans.
  - apply Qclt_le_weak. by apply Qcnot_le_lt.
  - exact IH.
Qed.

Lemma max_le (v : Vec.t) (B : Qc) :
  0 ≤ B → Forall (λ a, a ≤ B) v → Vec.max v ≤ B.
Proof.
  intros HB Hv. unfold Vec.max.
  assert (default 0 (head v) ≤ B) as Hinit.
  { destruct Hv; simpl; done. }
  revert Hinit. generalize (default 0 (head v)). intros init Hinit.
  induction Hv as [|a v Ha _ IH]; [done|]. simpl.
  by case_bool_decide.
Qed.

Lemma multiplicity_vglobal iss nglobal k :
  Forall NoDup iss → (k < nglobal)%nat →
  (PCBNN.multiplicity iss nglobal).2 !! k = Some (Qc_of_nat (owners iss k)).
Proof.
  intros Hnd Hk. unfold PCBNN.multiplicity. simpl.
  assert ((λ is_A, Vec.set (Vec.zeros (length is_A)) 1) <$> iss
          = (λ is_A, replicate (length is_A) 1) <$> iss) as ->.
  { apply list_fmap_ext. intros ? ? _. simpl. apply set_replicate. }
  rewrite forward_add_ones by done.
  unfold Vec.zeros. rewrite set_replicate, lookup_replicate_2 by done.
  simpl. f_equal. ring.
Qed.

Lemma length_multiplicity_vglobal iss nglobal :
  length (PCBNN.multiplicity iss nglobal).2 = nglobal.
Proof.
  unfold PCBNN.multiplicity. simpl.
  rewrite length_forward_add. unfold Vec.set, Vec.zeros.
  by rewrite length_fmap, length_replicate.
Qed.

Lemma length_diagonalScale (A : AIJ.t) (L R : Vec.t) n :
  length A = n → Forall (λ row, length row = n) A →
  length L = n → length R = n →
  length (AIJ.diagonalScale A L R) = n
  ∧ Forall (λ row, length row = n) (AIJ.diagonalScale A L R).
Proof.
  intros HA Hrows HL HR. unfold AIJ.diagonalScale. split.
  - rewrite length_zip_with. lia.
  - apply Forall_forall. intros row Hrow.
    apply elem_of_lookup_zip_with in Hrow as (i & li & r & -> & _ & Hr).
    rewrite length_zip_with.
    rewrite Forall_forall in Hrows.
    rewrite (Hrows r) by (by eapply list_elem_of_lookup_2). lia.
Qed.

End multiplicity.

(** X16.  The multiplicities of [PCBNN.__init__] (lines 86-91): the
    parallel vector [vglobal] holds at every degree of freedom the
    number of subdomains that own it; every local entry is at least 1
    and at most the number of subdomains; [mult_max], the maximum of
    [vglobal], bounds every entry and is at most the number of
    subdomains. *)
Theorem multiplicity_bounds sv opts A_mpiaij Ms0 As0 iss nglobal :
  Forall NoDup iss → Forall (Forall (λ gi, gi < nglobal)%nat) iss →
  let vlocal := (PCBNN.multiplicity iss nglobal).1 in
  let vglobal := (PCBNN.multiplicity iss nglobal).2 in
  let self := (PCBNN.init sv opts A_mpiaij Ms0 As0 iss nglobal).1.1 in
  length vglobal = nglobal
  ∧ (∀ k, (k < nglobal)%nat → vglobal !! k = Some (Qc_of_nat (owners iss k)))
  ∧ Forall2 (λ is_A (v : Vec.t), length v = length is_A) iss vlocal
  ∧ Forall (Forall (λ m, 1 ≤ m ∧ m ≤ Qc_of_nat (length iss))) vlocal
  ∧ PCBNN.mult_max self = Vec.max vglobal
  ∧ Forall (λ m, m ≤ PCBNN.mult_max self) vglobal
  ∧ PCBNN.mult_max self ≤ Qc_of_nat (length iss).
Proof.
  intros Hnd Hrange vlocal vglobal self.
  assert (PCBNN.mult_max self = Vec.max vglobal) as Hmax.
  { unfold self, vglobal, PCBNN.init.
    by destruct (PCBNN.multiplicity iss nglobal). }
  assert (∀ k, (k < nglobal)%nat →
            vglobal !! k = Some (Qc_of_nat (owners iss k))) as Hvg.
  { intros k Hk. by apply multiplicity_vglobal. }
  split_and!.
  - apply length_multiplicity_vglobal.
  - exact Hvg.
  - unfold vlocal, PCBNN.multiplicity. simpl.
    apply Forall2_fmap_r, Forall_Forall2_diag, Forall_forall.
    intros is_A _. apply length_fmap.
  - apply Forall_lookup. intros rank v Hv.
    assert (is_Some (iss !! rank)) as [is_A His].
    { apply lookup_lt_is_Some.
      apply lookup_lt_Some in Hv. unfold vlocal, PCBNN.multiplicity in Hv.
      simpl in Hv. by rewrite length_fmap in Hv. }
    assert (vlocal !!! rank = v) as Hv' by by apply list_lookup_total_correct.
    assert (length v = length is_A) as Hlv.
    { unfold vlocal, PCBNN.multiplicity in Hv. simpl in Hv.
      rewrite list_lookup_fmap, His in Hv. simpl in Hv. injection Hv as <-.
      unfold Scatter.reverse_insert. by rewrite length_fmap. }
    apply Forall_lookup. intros i m Hm.
    destruct (lookup_lt_is_Some_2 is_A i) as [gi Hgi].
    { rewrite <-Hlv. by eapply lookup_lt_Some. }
    pose proof (multiplicity_owners iss nglobal rank is_A i gi Hnd Hrange
                  His Hgi) as Hown.
    fold vlocal in Hown. rewrite Hv', Hm in Hown. injection Hown as ->.
    split.
    + rewrite <-Qc_of_nat_1. apply Qc_of_nat_le.
      apply (owners_pos iss is_A); by eapply list_elem_of_lookup_2.
    + apply Qc_of_nat_le, owners_le.
  - exact Hmax.
  - rewrite Hmax. apply max_ge.
  - rewrite Hmax. apply max_le; [apply Qc_of_nat_nonneg|].
    apply Forall_lookup. intros k m Hm.
    assert (k < nglobal)%nat as Hk.
    { apply lookup_lt_Some in Hm.
      unfold vglobal in Hm. by rewrite length_multiplicity_vglobal in Hm. }
    rewrite (Hvg k Hk) in Hm. injection Hm as <-.
    apply Qc_of_nat_le, owners_le.
Qed.

(** X17.  Both scalings of [PCBNN.__init__] (lines 93-99) multiply [Ms]
    by one diagonal matrix on the left and on the right, so they keep
    its size and its symmetry. *)
Theorem scale_Ms_symmetric (kscaling : bool) (vlocal : Vec.t)
    (As Ms : AIJ.t) n :
  length Ms = n → Forall (λ row, length row = n) Ms →
  length As = n → length vlocal = n →
  (∀ i j, (i < n)%nat → (j < n)%nat → AIJ.entry Ms i j = AIJ.entry Ms j i) →
  let S := PCBNN.scale_Ms kscaling vlocal As Ms in
  length S = n ∧ Forall (λ row, length row = n) S
  ∧ ∀ i j, (i < n)%nat → (j < n)%nat → AIJ.entry S i j = AIJ.entry S j i.
Proof.
  intros HMs Hrows HAs Hv Hsym S.
  assert (∃ d : Vec.t, length d = n ∧ S = AIJ.diagonalScale Ms d d)
    as (d & Hd & ->).
  { unfold S, PCBNN.scale_Ms. destruct kscaling; simpl.
    - eexists. split; [|done].
      unfold Vec.truediv, AIJ.getDiagonal.
      rewrite length_zip_with, !length_imap. lia.
    - by exists vlocal. }
  destruct (length_diagonalScale Ms d d n) as [Hl Hr]; try done.
  split_and!; try done.
  intros i j Hi Hj.
  rewrite !(entry_diagonalScale _ _ _ n), (Hsym i j) by done. ring.
Qed.

(** ** Output vectors and linearity *)

Section output.
Implicit Types (x y z v w : Vec.t) (a c : Qc) (vs : list Vec.t).

Lemma set_length_ext y y' c : length y = length y' → Vec.set y c = Vec.set y' c.
Proof.
  revert y'. induction y as [|b y IH]; intros [|d y'] Hl; simplify_eq/=; [done|].
  unfold Vec.set in *. simpl. f_equal. by apply IH.
Qed.

Lemma duplicate_length_ext y y' :
  length y = length y' → Vec.duplicate y = Vec.duplicate y'.
Proof. apply set_length_ext. Qed.

(** No operator reads what its output vector held. *)
Lemma operators_output :
  (∀ A : Mat, ∀ x y y', length y = length y' → Mat_mult A x y = Mat_mult A x y')
  ∧ (∀ ctx : Ctx, ∀ x y y', length y = length y' →
       Ctx_mult ctx x y = Ctx_mult ctx x y'
       ∧ Ctx_apply ctx x y = Ctx_apply ctx x y')
  ∧ (∀ ksp : KSP, ∀ b s s', length s = length s' →
       KSP_solve ksp b s = KSP_solve ksp b s')
  ∧ (∀ pc : PC, ∀ x y y', length y = length y' →
       PC_apply pc x y = PC_apply pc x y').
Proof.
  apply operators_mutind.
  - done.
  - intros ctx IH x y y' Hl. simpl. by apply IH.
  - intros Vnegs DVnegs gamma x y y' Hl. simpl. unfold Anegs_ctx_mult.
    by rewrite (set_length_ext y y').
  - intros Bs IHBs An IHAn x y y' Hl. simpl. unfold Aposs_ctx_mult.
    by rewrite (IHBs x y y').
  - intros mats IH musl musr x y y' Hl. simpl.
    unfold scaledmats_ctx_apply, scaledmats_ctx_mult.
    by rewrite (IH _ y y').
  - intros ksp IHk P IHP x y y' Hl. simpl.
    unfold invAposs_ctx_mult, invAposs_ctx_apply.
    rewrite (duplicate_length_ext y y') by done.
    destruct (Mat_mult P x (Vec.duplicate y')) as [t1|]; simpl; [|done].
    destruct (KSP_solve ksp t1 (Vec.duplicate y')) as [t2|]; simpl; [|done].
    by rewrite (IHP t2 y y').
  - intros Vnegs x y y' Hl. simpl. unfold projVnegs_ctx_mult.
    by rewrite (set_length_ext y y').
  - intros P IH x y y' Hl. simpl. unfold projVposs_ctx_mult.
    by rewrite (IH _ y y').
  - intros ops _ pc IH b s s' Hl. simpl. by apply IH.
  - done.
  - intros ctx IH x y y' Hl. simpl. by apply IH.
Qed.

Lemma projVnegs_sum_axpy n vs a x z :
  Forall (λ v, length v = n) vs → length x = length z →
  projVnegs_sum n vs (Vec.axpy a x z)
  = Vec.axpy a (projVnegs_sum n vs x) (projVnegs_sum n vs z).
Proof.
  intros Hvs Hxz. rewrite !projVnegs_sum_lincomb by done.
  unfold lincomb.
  assert (∀ y1 y2 : Vec.t, length y1 = n → length y2 = n →
    foldl (λ y '(c, v), Vec.axpy c v y) (Vec.axpy a y1 y2)
      (zip ((λ v, Vec.dot (Vec.axpy a x z) v) <$> vs) vs)
    = Vec.axpy a
        (foldl (λ y '(c, v), Vec.axpy c v y) y1
           (zip ((λ v, Vec.dot x v) <$> vs) vs))
        (foldl (λ y '(c, v), Vec.axpy c v y) y2
           (zip ((λ v, Vec.dot z v) <$> vs) vs))) as Hgen.
  { induction Hvs as [|v vs Hv _ IH]; intros y1 y2 H1 H2; [done|].
    simpl. rewrite <-IH by (by rewrite length_axpy; lia).
    f_equal. rewrite dot_axpy by done.
    clear -H1 H2 Hv. revert H1 H2 Hv. generalize (Vec.dot x v) (Vec.dot z v).
    intros p q. revert y1 y2 v.
    induction n as [|n IHn]; intros [|b1 y1] [|b2 y2] [|e v] H1 H2 Hv;
      simplify_eq/=; [done|].
    unfold Vec.axpy in *. simpl. f_equal; [ring|]. by apply IHn. }
  rewrite <-Hgen by apply length_zeros. f_equal.
  unfold Vec.axpy, Vec.zeros. rewrite zip_with_replicate. f_equal. ring.
Qed.

End output.

Section linear_operators.
Implicit Types (x y z v w : Vec.t) (a c : Qc) (vs : list Vec.t)
  (eps negs : PCNew.EPS).

Lemma axpy_axpy_axpy n a p q (y1 y2 v : Vec.t) :
  length y1 = n → length y2 = n → length v = n →
  Vec.axpy (q + a * p) v (Vec.axpy a y1 y2)
  = Vec.axpy a (Vec.axpy p v y1) (Vec.axpy q v y2).
Proof.
  revert y1 y2 v.
  induction n as [|n IHn]; intros [|b1 y1] [|b2 y2] [|e v] H1 H2 Hv;
    simplify_eq/=; [done|].
  unfold Vec.axpy in *. simpl. f_equal; [ring|]. by apply IHn.
Qed.

Lemma lincomb_axpy n a (f f1 f2 : Qc * Vec.t → Qc) negs (y1 y2 : Vec.t) :
  Forall (λ p, length p.2 = n) negs → length y1 = n → length y2 = n →
  (∀ p, p ∈ negs → f p = f2 p + a * f1 p) →
  lincomb (f <$> negs) (snd <$> negs) (Vec.axpy a y1 y2)
  = Vec.axpy a (lincomb (f1 <$> negs) (snd <$> negs) y1)
      (lincomb (f2 <$> negs) (snd <$> negs) y2).
Proof.
  unfold lincomb. intros Hnegs. revert y1 y2.
  induction Hnegs as [|p negs Hp _ IH]; intros y1 y2 H1 H2 Hf; [done|].
  simpl. rewrite <-IH.
  - f_equal. rewrite (Hf p) by apply list_elem_of_here.
    by apply (axpy_axpy_axpy n).
  - by rewrite length_axpy; lia.
  - by rewrite length_axpy; lia.
  - intros q Hq. apply Hf. by apply list_elem_of_further.
Qed.

Lemma axpy_zeros_zeros a n :
  Vec.axpy a (Vec.zeros n) (Vec.zeros n) = Vec.zeros n.
Proof.
  unfold Vec.axpy, Vec.zeros. rewrite zip_with_replicate. f_equal. ring.
Qed.

Lemma Anegs_sum_axpy n eps a x z :
  Forall (λ p, length p.2 = n) eps → length x = length z →
  Anegs_sum n eps (Vec.axpy a x z)
  = Vec.axpy a (Anegs_sum n eps x) (Anegs_sum n eps z).
Proof.
  intros Heps Hxz. rewrite !Anegs_sum_lincomb by done.
  rewrite <-(axpy_zeros_zeros a n) at 1.
  apply (lincomb_axpy n); try apply length_zeros.
  - by apply Forall_filter.
  - intros p _. simpl. rewrite dot_axpy by done. ring.
Qed.

Lemma sub_axpy n a (x z px pz : Vec.t) :
  length x = n → length z = n → length px = n → length pz = n →
  Vec.sub (Vec.axpy a x z) (Vec.axpy a px pz)
  = Vec.axpy a (Vec.sub x px) (Vec.sub z pz).
Proof.
  revert x z px pz.
  induction n as [|n IHn]; intros [|b1 x] [|b2 z] [|e1 px] [|e2 pz] H1 H2 H3 H4;
    simplify_eq/=; [done|].
  unfold Vec.sub, Vec.axpy in *. simpl. f_equal; [ring|]. by apply IHn.
Qed.

Lemma add_axpy n a (x z px pz : Vec.t) :
  length x = n → length z = n → length px = n → length pz = n →
  Vec.add (Vec.axpy a x z) (Vec.axpy a px pz)
  = Vec.axpy a (Vec.add x px) (Vec.add z pz).
Proof.
  revert x z px pz.
  induction n as [|n IHn]; intros [|b1 x] [|b2 z] [|e1 px] [|e2 pz] H1 H2 H3 H4;
    simplify_eq/=; [done|].
  unfold Vec.add, Vec.axpy in *. simpl. f_equal; [ring|]. by apply IHn.
Qed.

End linear_operators.

(** X18.  The local operators [projVnegs], [projVposs], [Anegs] and
    [Aposs] built by [PCNew.__init__] are linear on the vectors of the
    local size, whatever eigenpairs the eigensolver returned:
    [Op (z + a x) = Op z + a (Op x)]. *)
Theorem local_operators_linear
    sv opts rank is_A work mult_max As Bs eps n a x z y :
  length Bs = n → Forall (λ p, length p.2 = n) eps →
  length x = n → length z = n → length y = n →
  let L := (PCNew.init_local sv opts rank is_A work mult_max As Bs eps).1 in
  linear_at (PCNew.projVnegs L) a x z y
  ∧ linear_at (PCNew.projVposs L) a x z y
  ∧ linear_at (PCNew.Anegs L) a x z y
  ∧ linear_at (PCNew.Aposs L) a x z y.
Proof.
  intros HBs Heps Hx Hz Hy L.
  set (vs := snd <$> filter (λ p, p.1 < 0) eps).
  assert (Forall (λ v, length v = n) vs) as Hvs
    by by apply Forall_fmap, Forall_filter.
  assert (length (Vec.axpy a x z) = n) as Hu by (rewrite length_axpy; lia).
  destruct (init_local_objects sv opts rank is_A work mult_max As Bs eps)
    as (_ & _ & _ & HPn & _).
  fold L in HPn.
  assert (∀ u, Mat_mult (PCNew.projVnegs L) u y = Some (projVnegs_sum n vs u))
    as HP.
  { intros u. rewrite HPn. unfold L. rewrite init_local_Vnegs. simpl. f_equal.
    by apply projVnegs_ctx_mult_sum. }
  unfold linear_at. split_and!.
  - eexists _, _. split_and!; [apply HP|apply HP|].
    rewrite HP. f_equal. apply projVnegs_sum_axpy; [done|congruence].
  - unfold L. eexists _, _.
    rewrite !(init_local_projVposs_mult _ _ _ _ _ _ _ _ _ n) by done.
    split_and!; [done|done|]. f_equal. unfold projVposs_sum. fold vs.
    rewrite projVnegs_sum_axpy by (done || congruence).
    apply (sub_axpy n); try done; by apply length_projVnegs_sum.
  - unfold L. eexists _, _.
    rewrite !(init_local_Anegs_mult _ _ _ _ _ _ _ _ _ n) by done.
    split_and!; [done|done|]. f_equal.
    apply Anegs_sum_axpy; [done|congruence].
  - unfold L. eexists _, _.
    rewrite !(init_local_Aposs_mult _ _ _ _ _ _ _ _ _ n) by done.
    split_and!; [done|done|]. f_equal.
    rewrite AIJ_mult_axpy, Anegs_sum_axpy by (done || congruence).
    apply (add_axpy n); rewrite ?length_AIJ_mult, ?length_Anegs_sum; done.
Qed.

(** X19.  No operator of the file reads what its output vector held:
    for every matrix, solver and preconditioner made of the context
    classes, [mult], [apply] and [solve] give the same result on two
    output vectors of one size.  The scratch vector [gamma] of
    [Anegs_ctx] is written before it is read, so what an earlier call
    left in it has no effect either. *)
Theorem output_content_ignored
    (A : Mat) (ksp : KSP) (Vnegs DVnegs : list Vec.t) (gamma gamma' : Vec.t)
    (x y y' : Vec.t) :
  length y = length y' →
  length DVnegs = length Vnegs → length gamma = length Vnegs →
  length gamma' = length Vnegs →
  Mat_mult A x y = Mat_mult A x y'
  ∧ KSP_solve ksp x y = KSP_solve ksp x y'
  ∧ Mat_mult (MatPython (Anegs_ctx_obj Vnegs DVnegs gamma)) x y
    = Mat_mult (MatPython (Anegs_ctx_obj Vnegs DVnegs gamma')) x y'.
Proof.
  intros Hy HDV Hg Hg'.
  destruct operators_output as (HM & _ & HK & _).
  split_and!.
  - by apply HM.
  - by apply HK.
  - simpl. f_equal. rewrite !Anegs_ctx_mult_lincomb by done.
    by rewrite (set_length_ext y y').
Qed.

(** ** The further properties on the example data *)

(** The negative eigenvectors of the example are orthonormal. *)
Lemma ex_eps_orthonormal :
  orthonormal (snd <$> filter (λ p : Qc * Vec.t, p.1 < 0) ex_eps).
Proof.
  replace (snd <$> filter (λ p : Qc * Vec.t, p.1 < 0) ex_eps)
    with [[1; 0] : Vec.t] by by_evaluation.
  repeat constructor; by_evaluation.
Qed.

(** The direct solver of the example is exact on a diagonal matrix
    without zero on its diagonal. *)
Lemma ex_solve_exact (c1 c2 : Qc) (u : Vec.t) :
  c1 ≠ 0 → c2 ≠ 0 → length u = 2%nat →
  mumps ex_services [[c1; 0]; [0; c2]] (AIJ.mult [[c1; 0]; [0; c2]] u) = u.
Proof.
  destruct u as [|a [|b [|]]]; try done. intros H1 H2 _.
  unfold ex_services, AIJ.mult, AIJ.getDiagonal, Vec.truediv, Vec.dot. simpl.
  f_equal; [|f_equal]; by field.
Qed.

(** X1 on the example data. *)
Lemma mus_invmus_ones_witness :
  let L := (PCNew.init_local ex_services PCNew.default_options 0 [0; 1]%nat
              [1; qc 2; 1] (qc 2) ex_Bs ex_Bs ex_eps).1 in
  Vec.mul (PCNew.invmus L) (PCNew.mus L) = [1; 1]
  ∧ Vec.mul (PCNew.mus L) (PCNew.invmus L) = [1; 1].
Proof.
  destruct (mus_invmus_ones ex_services PCNew.default_options 0 [0; 1]%nat
              [1; qc 2; 1] (qc 2) ex_Bs ex_Bs ex_eps)
    as (_ & _ & H1 & H2 & _); [by_evaluation|].
  split; [exact H1|exact H2].
Defined.

(** X2 on the example data. *)
Lemma projVnegs_projVposs_pythagoras_witness :
  let x := [qc 3; qc 4] in
  let px := projVnegs_sum 2 [[1; 0]] x in
  let qx := projVposs_sum 2 [[1; 0]] x in
  Vec.add px qx = x ∧ Vec.dot px qx = 0
  ∧ Vec.dot x x = Vec.dot px px + Vec.dot qx qx.
Proof.
  destruct (projVnegs_projVposs_pythagoras 2 [[1; 0]] [qc 3; qc 4] [0; 0])
    as (_ & _ & H1 & H2 & H3); [try by_evaluation..|].
  { repeat constructor; by_evaluation. }
  split_and!; [exact H1|exact H2|exact H3].
Defined.

(** X3 on the example data. *)
Lemma local_operators_symmetric_witness :
  let L := (PCNew.init_local ex_services PCNew.default_options 0 [0; 1]%nat
              [1; qc 2; 1] (qc 2) ex_Bs ex_Bs ex_eps).1 in
  let x := [qc 3; qc 4] in
  let z := [1; qc 2] in
  ∃ px pz nx nz ax az,
    Mat_mult (PCNew.projVnegs L) x [0; 0] = Some px
    ∧ Mat_mult (PCNew.projVnegs L) z [0; 0] = Some pz
    ∧ Mat_mult (PCNew.Anegs L) x [0; 0] = Some nx
    ∧ Mat_mult (PCNew.Anegs L) z [0; 0] = Some nz
    ∧ Mat_mult (PCNew.Aposs L) x [0; 0] = Some ax
    ∧ Mat_mult (PCNew.Aposs L) z [0; 0] = Some az
    ∧ Vec.dot px z = Vec.dot x pz
    ∧ Vec.dot nx z = Vec.dot x nz
    ∧ Vec.dot ax z = Vec.dot x az.
Proof.
  destruct (local_operators_symmetric ex_services PCNew.default_options 0
              [0; 1]%nat [1; qc 2; 1] (qc 2) ex_Bs ex_Bs ex_eps 2
              [qc 3; qc 4] [1; qc 2] [0; 0])
    as (px & pz & nx & nz & ax & az & H1 & H2 & H3 & H4 & H5 & H6 & H7 & H8
        & H9); [by_evaluation..|].
  exists px, pz, nx, nz, ax, az.
  split_and!; [exact H1|exact H2|exact H3|exact H4|exact H5|exact H6|exact H7
              |exact H8|].
  apply H9. by apply ex_Bs_symmetric.
Defined.

(** X4 on the example data. *)
Lemma Aposs_is_projected_Bs_witness :
  let L := (PCNew.init_local ex_services PCNew.default_options 0 [0; 1]%nat
              [1; qc 2; 1] (qc 2) ex_Bs ex_Bs ex_eps).1 in
  let x := [qc 3; qc 4] in
  ∃ a q,
    Mat_mult (PCNew.Aposs L) x [0; 0] = Some a
    ∧ Mat_mult (PCNew.projVposs L) x [0; 0] = Some q
    ∧ Mat_mult (MatAIJ ex_Bs) q [0; 0] = Some a
    ∧ Mat_mult (PCNew.projVposs L) a [0; 0] = Some a.
Proof.
  apply (Aposs_is_projected_Bs ex_services PCNew.default_options 0 [0; 1]%nat
           [1; qc 2; 1] (qc 2) ex_Bs ex_Bs ex_eps 2 [qc 3; qc 4] [0; 0]);
    [try by_evaluation..].
  - apply ex_Bs_symmetric.
  - apply ex_eps_orthonormal.
Defined.

(** X5 on the example data. *)
Lemma ksp_Aposs_solve_Aposs_witness :
  let L := (PCNew.init_local ex_services PCNew.default_options 0 [0; 1]%nat
              [1; qc 2; 1] (qc 2) ex_Bs ex_Bs ex_eps).1 in
  let x := [qc 3; qc 4] in
  ∃ a q,
    Mat_mult (PCNew.Aposs L) x [0; 0] = Some a
    ∧ Mat_mult (PCNew.projVposs L) x [0; 0] = Some q
    ∧ KSP_solve (PCNew.ksp_Aposs L) a [0; 0] = Some q.
Proof.
  apply (ksp_Aposs_solve_Aposs ex_services PCNew.default_options 0 [0; 1]%nat
           [1; qc 2; 1] (qc 2) ex_Bs ex_Bs ex_eps 2 [qc 3; qc 4] [0; 0]);
    [try by_evaluation..].
  - apply ex_Bs_symmetric.
  - apply ex_eps_orthonormal.
  - intros u Hu.
    apply (ex_solve_exact (qc (-1)) (qc 2)); [by_evaluation|by_evaluation|done].
Defined.

(** X6 on the example data. *)
Lemma Ms_solve_round_trip_witness :
  let L := (PCNew.init_local ex_services PCNew.default_options 0 [0; 1]%nat
              [1; qc 2; 1] (qc 2) ex_Bs ex_Bs ex_eps).1 in
  let x := [qc 3; qc 4] in
  ∃ t s,
    Mat_mult (PCNew.Ms L) x [0; 0] = Some t
    ∧ KSP_solve (PCNew.ksp_Ms L) t [0; 0] = Some s
    ∧ Mat_mult (PCNew.Ms L) s [0; 0] = Some t
    ∧ PCNew.Atildes L = PCNew.Ms L
    ∧ KSP_solve (PCNew.ksp_Atildes L) t [0; 0] = Some s.
Proof.
  destruct (Ms_solve_round_trip ex_services PCNew.default_options 0
              [0; 1]%nat [1; qc 2; 1] (qc 2) ex_Bs ex_Bs ex_eps 2
              [qc 3; qc 4] [0; 0])
    as (t & s & H1 & H2 & H3 & H4); [try by_evaluation..|].
  - apply ex_Bs_symmetric.
  - apply ex_eps_orthonormal.
  - intros u Hu.
    apply (ex_solve_exact (qc (-1)) (qc 2)); [by_evaluation|by_evaluation|done].
  - exists t, s. destruct (H4 eq_refl) as [H5 H6].
    split_and!; [exact H1|exact H2|exact H3|exact H5|exact H6].
Defined.

(** X7 on the example data. *)
Lemma no_negative_eigenvalue_witness :
  let built := PCNew.init_local ex_services PCNew.default_options 0
                 [0; 1]%nat [1; qc 2; 1] (qc 2) ex_Bs_pos ex_Bs_pos
                 ex_eps_pos in
  let L := built.1 in
  let x := [qc 3; qc 4] in
  PCNew.nnegs L = 0%nat
  ∧ Mat_mult (PCNew.Anegs L) x [0; 0] = Some [0; 0]
  ∧ Mat_mult (PCNew.Aposs L) x [0; 0] = Some (AIJ.mult ex_Bs_pos x)
  ∧ Mat_mult (PCNew.projVposs L) x [0; 0] = Some x
  ∧ KSP_solve (PCNew.ksp_Aposs L) x [0; 0] = Some (mumps ex_services ex_Bs_pos x)
  ∧ PCNew.minV0s L = []
  ∧ (0%nat, PCNew.msg_negative 0 2 0 20) ∈ built.2.
Proof.
  destruct (no_negative_eigenvalue ex_services PCNew.default_options 0
              [0; 1]%nat [1; qc 2; 1] (qc 2) ex_Bs_pos ex_Bs_pos ex_eps_pos 2
              [qc 3; qc 4] [0; 0])
    as (H1 & _ & H3 & _ & H5 & H6 & H7 & H8 & H9); [by_evaluation..|].
  split_and!; [exact H1|exact H3|exact H5|exact H6| |by apply H8|exact H9].
  apply H7. by_evaluation.
Defined.

(** X9 on the example data. *)
Lemma Apos_global_splitting_witness :
  let self := (ex_PCNew PCNew.default_options).1.1 in
  let iss := ex_iss in
  let eps := [ex_eps; ex_eps] in
  let x := [1; qc 2; qc 3] in
  let z := [qc 3; qc 2; 1] in
  PCNew.Apos self x [0; 0; 0] = Vec.add (AIJ.mult ex_A x) (Aneg_sum iss eps x)
  ∧ 0 ≤ Vec.dot (Aneg_sum iss eps x) x
  ∧ Vec.dot (Aneg_sum iss eps x) z = Vec.dot x (Aneg_sum iss eps z)
  ∧ Vec.dot (AIJ.mult ex_A x) x ≤ Vec.dot (PCNew.Apos self x [0; 0; 0]) x.
Proof.
  destruct (Apos_global_splitting ex_services PCNew.default_options ex_A
              [1; qc 2; 1] ex_As [ex_Bs; ex_Bs] ex_iss [ex_eps; ex_eps]
              [1; qc 2; qc 3] [qc 3; qc 2; 1] [0; 0; 0])
    as (H1 & _ & H3 & H4 & _ & H6); [by_evaluation..|].
  split_and!; [exact H1|exact H3|exact H4|exact H6].
Defined.

(** X10 on the example data. *)
Lemma Apos_debug_agrees_witness :
  let self := (PCNew.init ex_services PCNew.default_options ex_A_Bs
                 [1; qc 2; 1] ex_As [ex_Bs; ex_Bs] ex_iss
                 [ex_eps; ex_eps]).1.1 in
  let x := [1; qc 2; qc 3] in
  Apos_debug_ctx_mult ex_iss (PCNew.Aposs <$> PCNew.locals self) x [0; 0; 0]
  = Some (PCNew.Apos self x [qc 5; qc 5; qc 5]).
Proof.
  destruct (Apos_debug_agrees ex_services PCNew.default_options ex_A_Bs
              [1; qc 2; 1] ex_As [ex_Bs; ex_Bs] ex_iss [ex_eps; ex_eps]
              [1; qc 2; qc 3] [qc 5; qc 5; qc 5] [0; 0; 0])
    as (_ & H2); [by_evaluation..|].
  apply H2. by_evaluation.
Defined.

(** X11 on the example data. *)
Lemma PCBNN_MP_mult_slots_witness :
  ∃ w', PCBNN.MP_mult ex_PCBNN.1.1 1%positive [2; 3]%positive
          (ex_world_MP ex_PCBNN.1.2) = Some (tt, w')
    ∧ vecs w' !! 2%positive = Some [qc 2; 1; 0]
    ∧ vecs w' !! 3%positive = Some [0; 1; qc 2]
    ∧ vecs w' !! 1%positive = Some [qc 4; qc 8; qc 4]
    ∧ works_2 w' = [[qc 2; 1]; [1; qc 2]].
Proof.
  destruct (PCBNN_MP_mult_slots ex_PCBNN.1.1 1%positive [2; 3]%positive
              (ex_world_MP ex_PCBNN.1.2) [qc 4; qc 8; qc 4]
              [[qc 2; 1]; [1; qc 2]])
    as (w' & Hrun & Hw2 & _ & Hslots & Hframe); [try by_evaluation..|].
  { intros yj Hyj. repeat (apply elem_of_cons in Hyj as [->|Hyj]);
      [by_evaluation|by_evaluation|by apply elem_of_nil in Hyj]. }
  exists w'. split_and!.
  - exact Hrun.
  - rewrite (Hslots 0%nat 2%positive [qc 5; qc 5; qc 5]); by_evaluation.
  - rewrite (Hslots 1%nat 3%positive [qc 7; qc 7; qc 7]); by_evaluation.
  - rewrite Hframe; [by_evaluation|].
    intros [|[|j]] Hj; [by_evaluation|by_evaluation|].
    exfalso. revert Hj. by_evaluation.
  - exact Hw2.
Defined.

(** X12 on the example data. *)
Lemma PCBNN_MP_mult_short_list_witness :
  PCBNN.MP_mult ex_PCBNN.1.1 1%positive [2%positive]
    (ex_world_MP ex_PCBNN.1.2) = None.
Proof. apply PCBNN_MP_mult_short_list. by_evaluation. Defined.

(** X13 on the example data. *)
Lemma mult_in_place_witness :
  (∃ w', PCBNN.mult ex_PCBNN.1.1 1%positive 1%positive
           (ex_world ex_PCBNN.1.2) = Some (tt, w')
     ∧ vecs w' !! 1%positive = Some [qc 2; qc 2; qc 2])
  ∧ (∃ w', PCNew.mult (ex_PCNew PCNew.default_options).1.1 1%positive
             1%positive (ex_world ex_PCBNN.1.2) = Some (tt, w')
       ∧ vecs w' !! 1%positive = Some [0; 1; qc 2]).
Proof.
  destruct (mult_in_place ex_PCBNN.1.1 (ex_PCNew PCNew.default_options).1.1
              1%positive (ex_world ex_PCBNN.1.2) [qc 4; qc 8; qc 4])
    as [H1 H2]; [by_evaluation|].
  split.
  - destruct (H1 [qc 2; qc 2; qc 2]) as (w' & Hrun & Hx); [by_evaluation|].
    exists w'. split; [exact Hrun|]. rewrite Hx. by_evaluation.
  - destruct (H2 [0; 1; qc 2]) as (w' & Hrun & Hx); [by_evaluation|].
    exists w'. split; [exact Hrun|]. rewrite Hx. by_evaluation.
Defined.

(** X14 on the example data. *)
Lemma PCBNN_init_mult_witness :
  ∃ w', PCBNN.mult ex_PCBNN.1.1 1%positive 2%positive
          (ex_world ex_PCBNN.1.2) = Some (tt, w')
    ∧ vecs w' !! 2%positive = Some [qc 2; qc 2; qc 2]
    ∧ vecs w' !! 1%positive = Some [qc 4; qc 8; qc 4].
Proof.
  destruct (PCBNN_init_mult ex_services PCBNN.default_options ex_A ex_Ms ex_As
              ex_iss 3 1%positive 2%positive (ex_world ex_PCBNN.1.2)
              [qc 4; qc 8; qc 4] [qc 5; qc 5; qc 5])
    as ((w' & Hrun & Hy & Hx & _) & _); [by_evaluation..|].
  exists w'. split_and!; [exact Hrun| |exact Hx].
  rewrite Hy. by_evaluation.
Defined.

(** X15 on the example data. *)
Lemma PCNew_init_mult_witness :
  ∃ w', PCNew.mult (ex_PCNew PCNew.default_options).1.1 1%positive 2%positive
          (ex_world (ex_PCNew PCNew.default_options).1.2) = Some (tt, w')
    ∧ vecs w' !! 2%positive = Some [0; 1; qc 2]
    ∧ vecs w' !! 1%positive = Some [qc 4; qc 8; qc 4].
Proof.
  destruct (PCNew_init_mult ex_services PCNew.default_options ex_A
              [1; qc 2; 1] ex_As [ex_Bs; ex_Bs] ex_iss [ex_eps; ex_eps]
              1%positive 2%positive
              (ex_world (ex_PCNew PCNew.default_options).1.2)
              [qc 4; qc 8; qc 4] [qc 5; qc 5; qc 5])
    as (sols & w' & Hrun & Hlen & Hsols & Hy & Hx & _); [by_evaluation..|].
  exists w'. split_and!; [exact Hrun| |exact Hx].
  rewrite Hy.
  assert (sols = [[0; 1]; [0; qc 2]]) as ->.
  { destruct sols as [|s0 [|s1 [|]]]; try done.
    pose proof (Hsols 0%nat [0; 1]%nat [[qc 2; 0]; [0; qc 4]] ex_Bs ex_eps
                  eq_refl eq_refl eq_refl eq_refl) as H0.
    pose proof (Hsols 1%nat [1; 2]%nat [[qc 4; 0]; [0; qc 2]] ex_Bs ex_eps
                  eq_refl eq_refl eq_refl eq_refl) as H1.
    cbv zeta in H0, H1. simpl in H0, H1.
    injection H0 as ->. injection H1 as ->.
    by_evaluation. }
  by_evaluation.
Defined.

(** X16 on the example data. *)
Lemma multiplicity_bounds_witness :
  let vlocal := (PCBNN.multiplicity ex_iss 3).1 in
  let vglobal := (PCBNN.multiplicity ex_iss 3).2 in
  (∀ k, (k < 3)%nat → vglobal !! k = Some (Qc_of_nat (owners ex_iss k)))
  ∧ Forall (Forall (λ m, 1 ≤ m ∧ m ≤ Qc_of_nat 2)) vlocal
  ∧ PCBNN.mult_max ex_PCBNN.1.1 ≤ Qc_of_nat 2.
Proof.
  destruct (multiplicity_bounds ex_services PCBNN.default_options ex_A ex_Ms
              ex_As ex_iss 3)
    as (_ & H2 & _ & H4 & _ & _ & H7); [by_evaluation..|].
  split_and!; [exact H2|exact H4|exact H7].
Defined.

(** X17 on the example data. *)
Lemma scale_Ms_symmetric_witness :
  let S := PCBNN.scale_Ms true [1; qc 2] [[qc 2; 0]; [0; qc 4]]
             [[qc 2; 1]; [1; qc 2]] in
  length S = 2%nat ∧ AIJ.entry S 0 1 = AIJ.entry S 1 0.
Proof.
  destruct (scale_Ms_symmetric true [1; qc 2] [[qc 2; 0]; [0; qc 4]]
              [[qc 2; 1]; [1; qc 2]] 2)
    as (H1 & _ & H3); [try by_evaluation..|].
  { intros [|[|i]] [|[|j]] Hi Hj; try lia; by_evaluation. }
  split; [exact H1|]. apply H3; lia.
Defined.

(** X18 on the example data. *)
Lemma local_operators_linear_witness :
  let L := (PCNew.init_local ex_services PCNew.default_options 0 [0; 1]%nat
              [1; qc 2; 1] (qc 2) ex_Bs ex_Bs ex_eps).1 in
  linear_at (PCNew.projVposs L) (qc 2) [qc 3; qc 4] [1; qc 2] [0; 0]
  ∧ linear_at (PCNew.Aposs L) (qc 2) [qc 3; qc 4] [1; qc 2] [0; 0].
Proof.
  destruct (local_operators_linear ex_services PCNew.default_options 0
              [0; 1]%nat [1; qc 2; 1] (qc 2) ex_Bs ex_Bs ex_eps 2 (qc 2)
              [qc 3; qc 4] [1; qc 2] [0; 0])
    as (_ & H2 & _ & H4); [by_evaluation..|].
  split; [exact H2|exact H4].
Defined.

(** X19 on the example data. *)
Lemma output_content_ignored_witness :
  let L := (PCNew.init_local ex_services PCNew.default_options 0 [0; 1]%nat
              [1; qc 2; 1] (qc 2) ex_Bs ex_Bs ex_eps).1 in
  let x := [qc 3; qc 4] in
  Mat_mult (PCNew.Ms L) x [0; 0] = Mat_mult (PCNew.Ms L) x [qc 5; qc 7]
  ∧ KSP_solve (PCNew.ksp_Atildes L) x [0; 0]
    = KSP_solve (PCNew.ksp_Atildes L) x [qc 5; qc 7]
  ∧ Mat_mult (MatPython (Anegs_ctx_obj [[1; 0]] [[1; 0]] [0])) x [0; 0]
    = Mat_mult (MatPython (Anegs_ctx_obj [[1; 0]] [[1; 0]] [qc 9])) x
        [qc 5; qc 7].
Proof.
  apply output_content_ignored; by_evaluation.
Defined.

